(** * FreeRTOS_Logger: a shallow embedding of the deferred logging core

    The development follows the C sources module by module:
    - [log_format.c]  : format-string analysis and argument capture,
    - [log_pool.c]    : the bump allocator over a static byte arena,
    - [log_queue.c]   : the bounded queue, the worker task and the fan-out
                        to back ends,
    - [log_backend.c] : the singly linked registry of back ends,
    - [log_core.c]    : initialisation and the submission entry point,
    - [log_core.h], [log.h] : the format strings the logging macros build.

    Conventions.
    - A [size_t] is a [Z] reduced modulo [2 ^ (8 * sizeof(size_t))] after every
      addition and subtraction.
    - A pointer into a NUL-terminated string is the [string] of the characters
      from the pointer up to the terminator; reading the terminator gives
      [NUL], stepping over it is out of bounds.
    - A pointer to a byte buffer is the list of the bytes of the enclosing
      object from the pointer on; a store that leaves the object is undefined.
    - Behaviour that C leaves undefined is the outcome [Undefined]. *)

From Stdlib Require Import ZArith List String Ascii Bool Lia.
From Stdlib Require Import FunInd Recdef.
Import ListNotations.

Open Scope Z_scope.

(** ** Outcomes *)

Inductive outcome (A : Type) : Type :=
| Done (a : A)
| Undefined
| OutOfFuel.

Arguments Done {A} a.
Arguments Undefined {A}.
Arguments OutOfFuel {A}.

Definition bind {A B : Type} (m : outcome A) (k : A -> outcome B) : outcome B :=
  match m with
  | Done a => k a
  | Undefined => Undefined
  | OutOfFuel => OutOfFuel
  end.

Notation "x <- m ;; k" := (bind m (fun x => k))
  (at level 61, m at next level, right associativity).
Notation "' pat <- m ;; k" := (bind m (fun x => match x with pat => k end))
  (at level 61, pat pattern, m at next level, right associativity).

(** ** The C data model of the target *)

(** The argument types that [log_format.c] names in [sizeof] and [va_arg]. *)
Inductive ctype : Type :=
| CInt | CLong | CLongLong | CSizeT | CPtrdiffT | CIntmaxT
| CDouble | CCharPtr | CVoidPtr | CIntPtr.

Definition ctype_eqb (a b : ctype) : bool :=
  match a, b with
  | CInt, CInt | CLong, CLong | CLongLong, CLongLong | CSizeT, CSizeT
  | CPtrdiffT, CPtrdiffT | CIntmaxT, CIntmaxT | CDouble, CDouble
  | CCharPtr, CCharPtr | CVoidPtr, CVoidPtr | CIntPtr, CIntPtr => true
  | _, _ => false
  end.

(** Sizes and the layout of [log_msg_t] are fixed by the compiler, not by the
    sources; they are the fields of an [abi]. *)
Record abi : Type := {
  sizeof_int : Z;
  sizeof_long : Z;
  sizeof_long_long : Z;
  sizeof_size_t : Z;
  sizeof_ptrdiff_t : Z;
  sizeof_intmax_t : Z;
  sizeof_double : Z;
  sizeof_pointer : Z;
  (* typedef struct log_msg_t { module_name; function_name; log_level;
     fmt_str; args_buffer_size; args_buffer[]; } *)
  sizeof_log_msg_t : Z;
  offsetof_module_name : Z;
  offsetof_function_name : Z;
  offsetof_log_level : Z;
  offsetof_fmt_str : Z;
  offsetof_args_buffer_size : Z;
  offsetof_args_buffer : Z
}.

Definition sizeof (a : abi) (t : ctype) : Z :=
  match t with
  | CInt => sizeof_int a
  | CLong => sizeof_long a
  | CLongLong => sizeof_long_long a
  | CSizeT => sizeof_size_t a
  | CPtrdiffT => sizeof_ptrdiff_t a
  | CIntmaxT => sizeof_intmax_t a
  | CDouble => sizeof_double a
  | CCharPtr | CVoidPtr | CIntPtr => sizeof_pointer a
  end.

(** 32-bit ARM (AAPCS): the default target of [log_reconstruct.c]. *)
Definition ilp32 : abi := {|
  sizeof_int := 4; sizeof_long := 4; sizeof_long_long := 8;
  sizeof_size_t := 4; sizeof_ptrdiff_t := 4; sizeof_intmax_t := 8;
  sizeof_double := 8; sizeof_pointer := 4;
  sizeof_log_msg_t := 20;
  offsetof_module_name := 0; offsetof_function_name := 4;
  offsetof_log_level := 8; offsetof_fmt_str := 12;
  offsetof_args_buffer_size := 16; offsetof_args_buffer := 20 |}.

(** 64-bit ARM (the [__aarch64__] branch of [log_reconstruct.c]). *)
Definition lp64 : abi := {|
  sizeof_int := 4; sizeof_long := 8; sizeof_long_long := 8;
  sizeof_size_t := 8; sizeof_ptrdiff_t := 8; sizeof_intmax_t := 8;
  sizeof_double := 8; sizeof_pointer := 8;
  sizeof_log_msg_t := 40;
  offsetof_module_name := 0; offsetof_function_name := 8;
  offsetof_log_level := 16; offsetof_fmt_str := 24;
  offsetof_args_buffer_size := 32; offsetof_args_buffer := 40 |}.

(** [size_t] arithmetic. *)
Definition size_modulus (a : abi) : Z := 2 ^ (8 * sizeof_size_t a).
Definition SIZE_MAX (a : abi) : Z := size_modulus a - 1.
Definition size_wrap (a : abi) (z : Z) : Z := z mod size_modulus a.
Definition size_add (a : abi) (x y : Z) : Z := size_wrap a (x + y).
Definition size_sub (a : abi) (x y : Z) : Z := size_wrap a (x - y).

(** log_config.h *)
Definition LOG_BUFFER_SIZE_BYTES : Z := 1024.
Definition LOG_QUEUE_SIZE : Z := 32.

(** What every C implementation guarantees and the proofs rely on: object
    sizes are positive and representable, the fields of [log_msg_t] lie inside
    the header in declaration order, and the arena itself is addressable. *)
Definition abi_wf (a : abi) : Prop :=
  0 < sizeof_size_t a /\
  (forall t, 0 < sizeof a t <= SIZE_MAX a) /\
  0 <= offsetof_module_name a /\
  offsetof_module_name a + sizeof_pointer a <= offsetof_function_name a /\
  offsetof_function_name a + sizeof_pointer a <= offsetof_log_level a /\
  offsetof_log_level a + 1 <= offsetof_fmt_str a /\
  offsetof_fmt_str a + sizeof_pointer a <= offsetof_args_buffer_size a /\
  offsetof_args_buffer_size a + sizeof_size_t a <= offsetof_args_buffer a /\
  offsetof_args_buffer a <= sizeof_log_msg_t a /\
  sizeof_log_msg_t a + LOG_BUFFER_SIZE_BYTES <= SIZE_MAX a.

(** ** Bytes in memory (little endian, as on the ARM targets) *)

Fixpoint encode_le (n : nat) (v : Z) : list Z :=
  match n with
  | O => []
  | S k => (v mod 256) :: encode_le k (v / 256)
  end.

Fixpoint decode_le (bs : list Z) : Z :=
  match bs with
  | [] => 0
  | b :: rest => b + 256 * decode_le rest
  end.

Definition in_bounds (mem : list Z) (off : Z) (n : nat) : bool :=
  (0 <=? off) && (off + Z.of_nat n <=? Z.of_nat (List.length mem)).

(** [*(T * )(mem + off) = bytes] *)
Definition store (mem : list Z) (off : Z) (bytes : list Z) : outcome (list Z) :=
  if in_bounds mem off (List.length bytes) then
    Done (firstn (Z.to_nat off) mem ++ bytes
            ++ skipn (Z.to_nat off + List.length bytes) mem)
  else Undefined.

(** [*(T * )(mem + off)] *)
Definition load (mem : list Z) (off : Z) (n : nat) : outcome (list Z) :=
  if in_bounds mem off n then Done (firstn n (skipn (Z.to_nat off) mem))
  else Undefined.

(** ** Strings and variadic arguments *)

Definition NUL : ascii := Ascii.zero.

(** [*p] *)
Definition deref (p : string) : ascii :=
  match p with
  | EmptyString => NUL
  | String c _ => c
  end.

(** [*(p + 1)], read only where [*p] is not the terminator. *)
Definition deref1 (p : string) : ascii :=
  match p with
  | EmptyString => NUL
  | String _ t => deref t
  end.

(** [p++]: every increment in [log_format.c] is followed by a read of [*p],
    so stepping over the terminator reads past the end of the string. *)
Definition incr (p : string) : outcome string :=
  match p with
  | EmptyString => Undefined
  | String c t => if (c =? NUL)%char then Undefined else Done t
  end.

(** One variadic argument: the (promoted) type it was passed with and its
    object representation as an unsigned number. *)
Record va_item : Type := { va_type : ctype; va_bits : Z }.

Definition va_list : Type := list va_item.

(** [va_arg(args, t)]: undefined when no argument is left or the next one
    was passed with another type. *)
Definition va_arg (args : va_list) (t : ctype) : outcome (Z * va_list) :=
  match args with
  | [] => Undefined
  | x :: rest => if ctype_eqb (va_type x) t then Done (va_bits x, rest) else Undefined
  end.

(** ** log_format.c *)

Definition is_char (c k : ascii) : bool := Ascii.eqb c k.

(** [while ( *p && f( *p)) p++;] *)
Fixpoint skip_while (f : ascii -> bool) (p : string) : string :=
  match p with
  | EmptyString => p
  | String c t => if negb (is_char c NUL) && f c then skip_while f t else p
  end.

Definition is_flag (c : ascii) : bool :=
  is_char c "-" || is_char c "+" || is_char c " " || is_char c "#" || is_char c "0".

Definition is_digit (c : ascii) : bool :=
  Ascii.leb "0" c && Ascii.leb c "9".

(** "Skip flags, width, precision": the three loops between the [%] and the
    [switch], the same text in both functions. *)
Definition skip_flags_width_precision (p : string) : outcome string :=
  let p := skip_while is_flag p in
  let p := skip_while is_digit p in
  if is_char (deref p) "." then
    p <- incr p ;;
    Done (skip_while is_digit p)
  else Done p.

Definition is_int_conv (c : ascii) : bool :=
  is_char c "d" || is_char c "i" || is_char c "o" || is_char c "u" || is_char c "x" || is_char c "X" || is_char c "c".

Definition is_float_conv (c : ascii) : bool :=
  is_char c "f" || is_char c "F" || is_char c "e" || is_char c "E" || is_char c "g" || is_char c "G".

(** The [switch ( *p)] of [log_format_calculate_buffer_size]. *)
Definition calculate_switch (a : abi) (p : string) (buffer_size : Z)
  : outcome (string * Z) :=
  let c := deref p in
  if is_char c "h" then
    if is_char (deref1 p) "h" then
      p <- incr p ;;
      let buffer_size := size_add a buffer_size (sizeof a CInt) in
      p <- incr p ;;
      Done (p, buffer_size)
    else
      let buffer_size := size_add a buffer_size (sizeof a CInt) in
      p <- incr p ;;
      Done (p, buffer_size)
  else if is_char c "l" then
    if is_char (deref1 p) "l" then
      p <- incr p ;;
      let buffer_size := size_add a buffer_size (sizeof a CLongLong) in
      p <- incr p ;;
      Done (p, buffer_size)
    else
      let buffer_size := size_add a buffer_size (sizeof a CLong) in
      p <- incr p ;;
      Done (p, buffer_size)
  else if is_char c "z" then
    let buffer_size := size_add a buffer_size (sizeof a CSizeT) in
    p <- incr p ;;
    Done (p, buffer_size)
  else if is_char c "t" then
    let buffer_size := size_add a buffer_size (sizeof a CPtrdiffT) in
    p <- incr p ;;
    Done (p, buffer_size)
  else if is_char c "j" then
    let buffer_size := size_add a buffer_size (sizeof a CIntmaxT) in
    p <- incr p ;;
    Done (p, buffer_size)
  else (* default: *)
    if is_int_conv c then Done (p, size_add a buffer_size (sizeof a CInt))
    else if is_float_conv c then Done (p, size_add a buffer_size (sizeof a CDouble))
    else if is_char c "s" then Done (p, size_add a buffer_size (sizeof a CCharPtr))
    else if is_char c "p" then Done (p, size_add a buffer_size (sizeof a CVoidPtr))
    else if is_char c "n" then Done (p, size_add a buffer_size (sizeof a CIntPtr))
    else Done (p, buffer_size).

(** The body of [while ( *p)] in [log_format_calculate_buffer_size]. *)
Definition calculate_body (a : abi) (p : string) (buffer_size : Z)
  : outcome (string * Z) :=
  '(p, buffer_size) <-
    (if is_char (deref p) "%" && negb (is_char (deref1 p) "%") then
       p <- incr p ;;
       p <- skip_flags_width_precision p ;;
       calculate_switch a p buffer_size
     else if is_char (deref p) "%" && is_char (deref1 p) "%" then
       p <- incr p ;;
       Done (p, buffer_size)
     else Done (p, buffer_size)) ;;
  p <- incr p ;;
  Done (p, buffer_size).

(** Termination of the scanning loops: every pass through a loop body ends
    with [p++], and nothing before it moves [p] backwards. *)
Ltac scan_length_facts :=
  assert (Hskip : forall f q,
             (String.length (skip_while f q) <= String.length q)%nat)
    by (intros f q; induction q as [| c q IH]; simpl; [lia |];
        destruct (negb (is_char c NUL) && f c); simpl; lia);
  assert (Hincr : forall q q',
             incr q = Done q' -> String.length q = S (String.length q'))
    by (intros q q' H; destruct q as [| c q]; simpl in H; [discriminate |];
        destruct (c =? NUL)%char; inversion H; reflexivity);
  assert (Hpre : forall q q',
             skip_flags_width_precision q = Done q' ->
             (String.length q' <= String.length q)%nat)
    by (intros q q'; unfold skip_flags_width_precision;
        pose proof (Hskip is_flag q) as Hs1;
        pose proof (Hskip is_digit (skip_while is_flag q)) as Hs2;
        destruct (is_char (deref (skip_while is_digit (skip_while is_flag q))) ".");
        [ destruct (incr (skip_while is_digit (skip_while is_flag q)))
            as [r | |] eqn:Hr; simpl; intros H; inversion H; subst;
          apply Hincr in Hr; pose proof (Hskip is_digit r) as Hs3; lia
        | intros H; inversion H; subst; lia ]).

Ltac scan_split :=
  repeat match goal with
         | |- context [if ?b then _ else _] => destruct b
         | Hincr : forall q q', incr q = Done q' -> _
           |- context [bind (incr ?x) _] =>
             let E := fresh "E" in
             destruct (incr x) eqn:E; simpl; [apply Hincr in E | |]
         | |- context [bind ?m _] =>
             destruct m as [[[? ?] ?] | |]; simpl
         end.

Ltac use_incr H :=
  match type of H with
  | context [incr ?p] =>
      let E := fresh "E" in
      destruct (incr p) eqn:E; simpl in H; try discriminate;
      match goal with
      | Hi : forall q q', incr q = Done q' -> _ |- _ => apply Hi in E
      end
  end.

Ltac use_prefix H :=
  match type of H with
  | context [skip_flags_width_precision ?q] =>
      let E := fresh "E" in
      destruct (skip_flags_width_precision q) eqn:E; simpl in H;
      try discriminate;
      match goal with
      | Hp : forall q q', skip_flags_width_precision q = Done q' -> _ |- _ =>
          apply Hp in E
      end
  end.

Ltac use_switch H Hsw :=
  match type of H with
  | bind ?m _ = _ =>
      let E := fresh "E" in
      destruct m as [[? ?] | |] eqn:E; simpl in H; try discriminate;
      apply Hsw in E
  end.

Ltac scan_body_shorter Hbody Hsw :=
  match type of Hbody with
  | bind (if ?b then _ else _) _ = _ => destruct b
  end;
  [ use_incr Hbody; use_prefix Hbody; use_switch Hbody Hsw
  | match type of Hbody with
    | bind (if ?b then _ else _) _ = _ => destruct b
    end;
    [ use_incr Hbody | ] ];
  simpl in Hbody; use_incr Hbody;
  inversion Hbody; subst; simpl in *; lia.

Function calculate_loop (a : abi) (p : string) (buffer_size : Z)
  {measure String.length p} : outcome Z :=
  if is_char (deref p) NUL then Done buffer_size
  else
    match calculate_body a p buffer_size with
    | Done (p', buffer_size') => calculate_loop a p' buffer_size'
    | Undefined => Undefined
    | OutOfFuel => OutOfFuel
    end.
Proof.
  intros.
  match goal with H : calculate_body _ _ _ = Done _ |- _ => rename H into Hbody end.
  scan_length_facts.
  assert (Hsw : forall q bs q' bs0,
             calculate_switch a q bs = Done (q', bs0) ->
             (String.length q' <= String.length q)%nat).
  { intros q bs q' bs0. unfold calculate_switch.
    scan_split; simpl; intros H; inversion H; subst; lia. }
  unfold calculate_body in Hbody.
  scan_body_shorter Hbody Hsw.
Defined.

(** [size_t log_format_calculate_buffer_size(const char *fmt_str)];
    [None] is the null pointer. *)
Definition log_format_calculate_buffer_size (a : abi) (fmt_str : option string)
  : outcome Z :=
  match fmt_str with
  | None => Done 0
  | Some p => calculate_loop a p 0
  end.

(** [*(T * )(buf_ptr + bytes_written) = va_arg(args, T);
     bytes_written += sizeof(T);] *)
Definition capture (a : abi) (t : ctype)
  (buf_ptr : list Z) (bytes_written : Z) (args : va_list)
  : outcome (list Z * Z * va_list) :=
  '(v, args) <- va_arg args t ;;
  buf_ptr <- store buf_ptr bytes_written (encode_le (Z.to_nat (sizeof a t)) v) ;;
  Done (buf_ptr, size_add a bytes_written (sizeof a t), args).

(** The [switch ( *p)] of [log_format_copy_args_to_buffer]. *)
Definition copy_switch (a : abi) (p : string)
  (buf_ptr : list Z) (bytes_written : Z) (args : va_list)
  : outcome (string * (list Z * Z * va_list)) :=
  let c := deref p in
  if is_char c "h" then
    if is_char (deref1 p) "h" then
      p <- incr p ;;
      st <- capture a CInt buf_ptr bytes_written args ;;
      p <- incr p ;;
      Done (p, st)
    else
      st <- capture a CInt buf_ptr bytes_written args ;;
      p <- incr p ;;
      Done (p, st)
  else if is_char c "l" then
    if is_char (deref1 p) "l" then
      p <- incr p ;;
      st <- capture a CLongLong buf_ptr bytes_written args ;;
      p <- incr p ;;
      Done (p, st)
    else
      st <- capture a CLong buf_ptr bytes_written args ;;
      p <- incr p ;;
      Done (p, st)
  else if is_char c "z" then
    st <- capture a CSizeT buf_ptr bytes_written args ;;
    p <- incr p ;;
    Done (p, st)
  else if is_char c "t" then
    st <- capture a CPtrdiffT buf_ptr bytes_written args ;;
    p <- incr p ;;
    Done (p, st)
  else if is_char c "j" then
    st <- capture a CIntmaxT buf_ptr bytes_written args ;;
    p <- incr p ;;
    Done (p, st)
  else (* default: *)
    if is_int_conv c then
      st <- capture a CInt buf_ptr bytes_written args ;; Done (p, st)
    else if is_float_conv c then
      st <- capture a CDouble buf_ptr bytes_written args ;; Done (p, st)
    else if is_char c "s" then
      st <- capture a CCharPtr buf_ptr bytes_written args ;; Done (p, st)
    else if is_char c "p" then
      st <- capture a CVoidPtr buf_ptr bytes_written args ;; Done (p, st)
    else if is_char c "n" then
      st <- capture a CIntPtr buf_ptr bytes_written args ;; Done (p, st)
    else Done (p, (buf_ptr, bytes_written, args)).

(** The body of [while ( *p && bytes_written < buffer_size)]. *)
Definition copy_body (a : abi) (p : string)
  (buf_ptr : list Z) (bytes_written : Z) (args : va_list)
  : outcome (string * (list Z * Z * va_list)) :=
  '(p, st) <-
    (if is_char (deref p) "%" && negb (is_char (deref1 p) "%") then
       p <- incr p ;;
       p <- skip_flags_width_precision p ;;
       copy_switch a p buf_ptr bytes_written args
     else if is_char (deref p) "%" && is_char (deref1 p) "%" then
       p <- incr p ;;
       Done (p, (buf_ptr, bytes_written, args))
     else Done (p, (buf_ptr, bytes_written, args))) ;;
  p <- incr p ;;
  Done (p, st).

Function copy_loop (a : abi) (buffer_size : Z) (p : string)
  (buf_ptr : list Z) (bytes_written : Z) (args : va_list)
  {measure String.length p} : outcome (Z * list Z) :=
  if is_char (deref p) NUL then Done (bytes_written, buf_ptr)
  else if negb (bytes_written <? buffer_size) then Done (bytes_written, buf_ptr)
  else
    match copy_body a p buf_ptr bytes_written args with
    | Done (p', (buf_ptr', bytes_written', args')) =>
        copy_loop a buffer_size p' buf_ptr' bytes_written' args'
    | Undefined => Undefined
    | OutOfFuel => OutOfFuel
    end.
Proof.
  intros.
  match goal with H : copy_body _ _ _ _ _ = Done _ |- _ => rename H into Hbody end.
  scan_length_facts.
  assert (Hsw : forall q b w g q' st,
             copy_switch a q b w g = Done (q', st) ->
             (String.length q' <= String.length q)%nat).
  { intros q b w g q' st. unfold copy_switch.
    scan_split; simpl; intros H; inversion H; subst; lia. }
  unfold copy_body in Hbody.
  scan_body_shorter Hbody Hsw.
Defined.

(** [size_t log_format_copy_args_to_buffer(void *buffer, size_t buffer_size,
    const char *fmt_str, va_list args)]; the result pairs the returned count
    with the contents of the buffer afterwards. *)
Definition log_format_copy_args_to_buffer (a : abi)
  (buffer : option (list Z)) (buffer_size : Z)
  (fmt_str : option string) (args : va_list)
  : outcome (Z * option (list Z)) :=
  match buffer, fmt_str with
  | Some buf_ptr, Some p =>
      if buffer_size =? 0 then Done (0, buffer)
      else
        '(bytes_written, buf_ptr) <- copy_loop a buffer_size p buf_ptr 0 args ;;
        Done (bytes_written, Some buf_ptr)
  | _, _ => Done (0, buffer)
  end.

(** *** The conversion table the two switches share

    [switch_class p] is the type whose size and value the [switch] at [p]
    handles, with the position the [switch] leaves [p] at; [scan_body] is one
    pass through either loop body with the arithmetic and the stores left
    out.  Both are read off the two functions above and are related to them
    by [calculate_body_scan] and [copy_body_scan]. *)

Definition drop1 (p : string) : string :=
  match p with
  | EmptyString => p
  | String _ t => t
  end.

Definition switch_class (p : string) : option ctype * string :=
  let c := deref p in
  if is_char c "h" then
    if is_char (deref1 p) "h" then (Some CInt, drop1 (drop1 p))
    else (Some CInt, drop1 p)
  else if is_char c "l" then
    if is_char (deref1 p) "l" then (Some CLongLong, drop1 (drop1 p))
    else (Some CLong, drop1 p)
  else if is_char c "z" then (Some CSizeT, drop1 p)
  else if is_char c "t" then (Some CPtrdiffT, drop1 p)
  else if is_char c "j" then (Some CIntmaxT, drop1 p)
  else if is_int_conv c then (Some CInt, p)
  else if is_float_conv c then (Some CDouble, p)
  else if is_char c "s" then (Some CCharPtr, p)
  else if is_char c "p" then (Some CVoidPtr, p)
  else if is_char c "n" then (Some CIntPtr, p)
  else (None, p).

Definition scan_body (p : string) : outcome (option ctype * string) :=
  '(t, p) <-
    (if is_char (deref p) "%" && negb (is_char (deref1 p) "%") then
       p <- incr p ;;
       p <- skip_flags_width_precision p ;;
       Done (switch_class p)
     else if is_char (deref p) "%" && is_char (deref1 p) "%" then
       p <- incr p ;;
       Done (None, p)
     else Done (None, p)) ;;
  p <- incr p ;;
  Done (t, p).

Definition cons_some {A : Type} (x : option A) (l : list A) : list A :=
  match x with
  | Some y => y :: l
  | None => l
  end.

(** The types of the arguments a complete scan of [p] captures, in order;
    [Undefined] when the scan runs over the terminator. *)
Function capture_types (p : string) {measure String.length p}
  : outcome (list ctype) :=
  if is_char (deref p) NUL then Done []
  else
    match scan_body p with
    | Done (t, p') =>
        match capture_types p' with
        | Done ts => Done (cons_some t ts)
        | Undefined => Undefined
        | OutOfFuel => OutOfFuel
        end
    | Undefined => Undefined
    | OutOfFuel => OutOfFuel
    end.
Proof.
  intros.
  match goal with H : scan_body _ = Done _ |- _ => rename H into Hbody end.
  scan_length_facts.
  assert (Hsw : forall q0 t0 q1, switch_class q0 = (t0, q1) ->
                                 (String.length q1 <= String.length q0)%nat).
  { intros q0 t0 q1. unfold switch_class.
    assert (Hd : forall r, (String.length (drop1 r) <= String.length r)%nat)
      by (intros [| c0 r]; simpl; lia).
    pose proof (Hd q0) as Hd1. pose proof (Hd (drop1 q0)) as Hd2.
    scan_split; intros H; inversion H; subst; lia. }
  unfold scan_body in Hbody.
  destruct (is_char (deref p) "%" && negb (is_char (deref1 p) "%")).
  - use_incr Hbody. use_prefix Hbody.
    match type of Hbody with
    | context [switch_class ?q] =>
        destruct (switch_class q) as [t1 q1] eqn:E3; simpl in Hbody;
        apply Hsw in E3
    end.
    use_incr Hbody. inversion Hbody; subst. lia.
  - destruct (is_char (deref p) "%" && is_char (deref1 p) "%").
    + use_incr Hbody. simpl in Hbody. use_incr Hbody.
      inversion Hbody; subst. lia.
    + simpl in Hbody. use_incr Hbody. inversion Hbody; subst. lia.
Defined.

Definition total_size (a : abi) (ts : list ctype) : Z :=
  fold_right (fun t acc => sizeof a t + acc) 0 ts.

(** The size of one captured argument, none for a conversion that captures
    nothing, and the two accumulating steps of the loops in those terms. *)
Definition cost (a : abi) (t : option ctype) : Z :=
  match t with
  | None => 0
  | Some ty => sizeof a ty
  end.

Definition add_cost (a : abi) (size : Z) (t : option ctype) : Z :=
  match t with
  | None => size
  | Some ty => size_add a size (sizeof a ty)
  end.

Definition capture_opt (a : abi) (t : option ctype)
  (b : list Z) (w : Z) (g : va_list) : outcome (list Z * Z * va_list) :=
  match t with
  | None => Done (b, w, g)
  | Some ty => capture a ty b w g
  end.

(** ** log_pool.c *)

(** errno.h *)
Definition EIO : Z := 5.
Definition EINVAL : Z := 22.
Definition ENOSPC : Z := 28.

(** The file-scope variables of [log_pool.c].  A message pointer is its
    offset from [prv_log_buffer_pool]; [prv_log_pool_mutex] is [None] while
    the handle is [NULL], and otherwise tells whether the mutex is held. *)
Record pool : Type := {
  prv_log_buffer_pool : list Z;
  prv_log_buffer_used : Z;
  prv_log_pool_mutex : option bool
}.

Definition set_mutex (s : pool) (m : option bool) : pool :=
  {| prv_log_buffer_pool := prv_log_buffer_pool s;
     prv_log_buffer_used := prv_log_buffer_used s;
     prv_log_pool_mutex := m |}.

Definition set_used (s : pool) (u : Z) : pool :=
  {| prv_log_buffer_pool := prv_log_buffer_pool s;
     prv_log_buffer_used := u;
     prv_log_pool_mutex := prv_log_pool_mutex s |}.

Definition set_buffer (s : pool) (b : list Z) : pool :=
  {| prv_log_buffer_pool := b;
     prv_log_buffer_used := prv_log_buffer_used s;
     prv_log_pool_mutex := prv_log_pool_mutex s |}.

(** Modelled from the spec: the FreeRTOS call [xSemaphoreTake], of which the
    core requires the abstract contract only.  In a sequential run a take
    succeeds exactly when the mutex is free; the result pairs [pdTRUE]
    ([true]) or [pdFALSE] with the mutex afterwards. *)
Definition xSemaphoreTake (held : bool) : bool * bool := (negb held, true).

(** Modelled from the spec: [xSemaphoreTakeFromISR], the non-blocking variant
    that fails fast when the mutex is held. *)
Definition xSemaphoreTakeFromISR (held : bool) : bool * bool := (negb held, true).

(** Modelled from the spec: [xSemaphoreGive] releases the mutex. *)
Definition xSemaphoreGive (held : bool) : bool := false.

(** Modelled from the spec: [xSemaphoreGiveFromISR] releases the mutex. *)
Definition xSemaphoreGiveFromISR (held : bool) : bool := false.

(** [int log_pool_init(void)]; [created] tells whether
    [xSemaphoreCreateMutexStatic] returned a handle. *)
Definition log_pool_init (created : bool) (s : pool) : Z * pool :=
  let s := set_mutex s (if created then Some false else None) in
  match prv_log_pool_mutex s with
  | None => (- EIO, s)
  | Some _ => (0, set_used s 0)
  end.

(** log_msg.h: [#define LOG_MSG_SIZE(args_size) (sizeof(log_msg_t) + (args_size))] *)
Definition LOG_MSG_SIZE (a : abi) (args_size : Z) : Z :=
  size_add a (sizeof_log_msg_t a) args_size.

(** [log_msg_t *log_pool_alloc(size_t args_size)]; [isr] is the value of
    [xPortIsInsideInterrupt()]. *)
Definition log_pool_alloc (a : abi) (isr : bool) (args_size : Z) (s : pool)
  : outcome (option Z * pool) :=
  let total_size := LOG_MSG_SIZE a args_size in
  match prv_log_pool_mutex s with
  | None => Done (None, s)
  | Some m =>
      let '(ret, m) := if isr then xSemaphoreTakeFromISR m else xSemaphoreTake m in
      if negb ret then Done (None, set_mutex s (Some m))
      else if LOG_BUFFER_SIZE_BYTES <? size_add a (prv_log_buffer_used s) total_size then
        let m := if isr then xSemaphoreGiveFromISR m else xSemaphoreGive m in
        Done (None, set_mutex s (Some m))
      else
        let msg := prv_log_buffer_used s in
        let s := set_used s (size_add a (prv_log_buffer_used s) total_size) in
        (* msg->args_buffer_size = args_size; *)
        b <- store (prv_log_buffer_pool s) (msg + offsetof_args_buffer_size a)
               (encode_le (Z.to_nat (sizeof_size_t a)) args_size) ;;
        let s := set_buffer s b in
        let m := if isr then xSemaphoreGiveFromISR m else xSemaphoreGive m in
        Done (Some msg, set_mutex s (Some m))
  end.

(** [void log_pool_free(log_msg_t *msg)].  The pointer comparison is the
    comparison of the two addresses, taken relative to the arena. *)
Definition log_pool_free (a : abi) (isr : bool) (msg : option Z) (s : pool)
  : outcome pool :=
  match msg with
  | None => Done s
  | Some msg =>
      match prv_log_pool_mutex s with
      | None => Done s
      | Some m =>
          let '(ret, m) := if isr then xSemaphoreTakeFromISR m else xSemaphoreTake m in
          if negb ret then Done (set_mutex s (Some m))
          else
            (* msg->args_buffer_size *)
            bytes <- load (prv_log_buffer_pool s) (msg + offsetof_args_buffer_size a)
                       (Z.to_nat (sizeof_size_t a)) ;;
            let args_buffer_size := decode_le bytes in
            let s :=
              if size_wrap a (msg + LOG_MSG_SIZE a args_buffer_size)
                 =? size_wrap a (prv_log_buffer_used s)
              then set_used s (size_sub a (prv_log_buffer_used s)
                                 (LOG_MSG_SIZE a args_buffer_size))
              else s in
            let m := if isr then xSemaphoreGiveFromISR m else xSemaphoreGive m in
            Done (set_mutex s (Some m))
      end
  end.

(** The pool as the program starts: zeroed static storage. *)
Definition pool_at_start : pool :=
  {| prv_log_buffer_pool := repeat 0 (Z.to_nat LOG_BUFFER_SIZE_BYTES);
     prv_log_buffer_used := 0;
     prv_log_pool_mutex := None |}.

(** The bound on the watermark, and on the pointers handed out. *)
Definition in_arena (z : Z) : Prop := 0 <= z <= LOG_BUFFER_SIZE_BYTES.

(** The pool between two calls of a sequential run: initialised, the mutex
    free, the arena of its declared size, the watermark inside it. *)
Definition pool_ready (s : pool) : Prop :=
  prv_log_pool_mutex s = Some false /\
  List.length (prv_log_buffer_pool s) = Z.to_nat LOG_BUFFER_SIZE_BYTES /\
  in_arena (prv_log_buffer_used s).

(** ** log_queue.c: the queue *)

(** [prv_log_queue] is [None] while the handle is [NULL], and otherwise the
    message pointers waiting in the queue, oldest first. *)

(** Modelled from the spec: the FreeRTOS call [xQueueSend] with a block time
    of 0 on the queue of [LOG_QUEUE_SIZE] places: a bounded FIFO whose
    enqueue on a full queue fails and does not wait. *)
Definition xQueueSend (items : list Z) (msg : Z) : bool * list Z :=
  if Z.of_nat (List.length items) <? LOG_QUEUE_SIZE then (true, items ++ [msg])
  else (false, items).

(** Modelled from the spec: [xQueueSendFromISR], the same contract from
    interrupt context. *)
Definition xQueueSendFromISR (items : list Z) (msg : Z) : bool * list Z :=
  if Z.of_nat (List.length items) <? LOG_QUEUE_SIZE then (true, items ++ [msg])
  else (false, items).

(** [int log_queue_init(void)]; [created] tells whether [xQueueCreateStatic]
    returned a handle. *)
Definition log_queue_init (created : bool) : Z * option (list Z) :=
  let prv_log_queue := if created then Some [] else None in
  match prv_log_queue with
  | None => (- EIO, prv_log_queue)
  | Some _ => (0, prv_log_queue)
  end.

(** [int log_queue_send(log_msg_t *msg)] *)
Definition log_queue_send (isr : bool) (msg : option Z)
  (prv_log_queue : option (list Z)) : Z * option (list Z) :=
  match msg with
  | None => (- EINVAL, prv_log_queue)
  | Some m =>
      match prv_log_queue with
      | None => (- EIO, prv_log_queue)
      | Some items =>
          let '(ret, items) :=
            if isr then xQueueSendFromISR items m else xQueueSend items m in
          (if ret then 0 else - ENOSPC, Some items)
      end
  end.

(** ** log_backend.c *)

(** [log_backend_t]: the [process_msg] function pointer of its [api] and the
    [next] link; [None] is [NULL]. *)
Record log_backend_t : Type := {
  process_msg : option Z;
  next : option Z
}.

(** The back ends live in storage of their owners: [backends] maps the
    address of a [log_backend_t] to its contents, [prv_inst_head] is
    [prv_inst.head]. *)
Record registry : Type := {
  backends : Z -> log_backend_t;
  prv_inst_head : option Z
}.

(** [node->next = v;] *)
Definition set_next (mem : Z -> log_backend_t) (node : Z) (v : option Z)
  : Z -> log_backend_t :=
  fun x => if x =? node
           then {| process_msg := process_msg (mem x); next := v |}
           else mem x.

(** The [while (node)] loop of [log_backend_register_backend]. *)
Fixpoint register_loop (fuel : nat) (mem : Z -> log_backend_t)
  (node : option Z) (backend : Z) : outcome (Z -> log_backend_t) :=
  match fuel with
  | O => OutOfFuel
  | S fuel =>
      match node with
      | None => Done mem
      | Some n =>
          match next (mem n) with
          | None =>
              let mem := set_next mem n (Some backend) in
              let mem := set_next mem backend None in
              Done mem
          | Some n' => register_loop fuel mem (Some n') backend
          end
      end
  end.

(** [int log_backend_register_backend(log_backend_t *backend)] *)
Definition log_backend_register_backend (fuel : nat) (backend : option Z)
  (r : registry) : outcome (Z * registry) :=
  match backend with
  | None => Done (- EINVAL, r)
  | Some b =>
      let r :=
        match prv_inst_head r with
        | None => {| backends := set_next (backends r) b None;
                     prv_inst_head := Some b |}
        | Some _ => r
        end in
      mem <- register_loop fuel (backends r) (prv_inst_head r) b ;;
      Done (0, {| backends := mem; prv_inst_head := prv_inst_head r |})
  end.

(** [log_backend_t *log_backend_get_head(void)] *)
Definition log_backend_get_head (r : registry) : option Z := prv_inst_head r.

(** ** log_queue.c: the fan-out *)

(** What a run of the worker does to the outside: a call of a back end's
    [process_msg] with the back end and the message, and the call of
    [log_pool_free]. *)
Inductive event : Type :=
| CallProcessMsg (fn : Z) (backend : Z) (msg : Z)
| CallPoolFree (msg : Z).

(** The [while (backend)] loop of [log_queue_process_immediate]. *)
Fixpoint process_loop (fuel : nat) (mem : Z -> log_backend_t)
  (backend : option Z) (msg : Z) : outcome (list event) :=
  match fuel with
  | O => OutOfFuel
  | S fuel =>
      match backend with
      | None => Done []
      | Some b =>
          match process_msg (mem b) with
          | None => process_loop fuel mem (next (mem b)) msg
          | Some fn =>
              evs <- process_loop fuel mem (next (mem b)) msg ;;
              Done (CallProcessMsg fn b msg :: evs)
          end
      end
  end.

(** [void log_queue_process_immediate(log_msg_t *msg)] *)
Definition log_queue_process_immediate (a : abi) (isr : bool) (fuel : nat)
  (msg : option Z) (r : registry) (s : pool) : outcome (list event * pool) :=
  match msg with
  | None => Done ([], s)
  | Some m =>
      let backend := log_backend_get_head r in
      evs <- process_loop fuel (backends r) backend m ;;
      s <- log_pool_free a isr msg s ;;
      Done (evs ++ [CallPoolFree m], s)
  end.

(** ** log_core.c *)

(** [log_core.c] reaches the other modules through the functions their
    headers declare. *)
Record callees : Type := {
  format_calculate_buffer_size : option string -> outcome Z;
  format_copy_args_to_buffer :
    option (list Z) -> Z -> option string -> va_list
    -> outcome (Z * option (list Z));
  pool_alloc : Z -> pool -> outcome (option Z * pool);
  pool_free : option Z -> pool -> outcome pool;
  queue_send : option Z -> option (list Z) -> Z * option (list Z)
}.

(** The program as built: [log_core.c] with [log_format.c], [log_pool.c] and
    [log_queue.c]. *)
Definition linked (a : abi) (isr : bool) : callees := {|
  format_calculate_buffer_size := log_format_calculate_buffer_size a;
  format_copy_args_to_buffer := log_format_copy_args_to_buffer a;
  pool_alloc := log_pool_alloc a isr;
  pool_free := log_pool_free a isr;
  queue_send := log_queue_send isr |}.

(** A [const char *] argument with the characters it points to. *)
Record c_string : Type := { str_addr : Z; str_chars : string }.

Record system : Type := {
  sys_pool : pool;
  sys_queue : option (list Z)
}.

(** [msg->module_name = module_name; msg->function_name = function_name;
     msg->log_level = level; msg->fmt_str = fmt_str;] *)
Definition fill_header (a : abi) (msg : Z)
  (module_name function_name level fmt_str : Z) (b : list Z)
  : outcome (list Z) :=
  let ptr := Z.to_nat (sizeof_pointer a) in
  b <- store b (msg + offsetof_module_name a) (encode_le ptr module_name) ;;
  b <- store b (msg + offsetof_function_name a) (encode_le ptr function_name) ;;
  b <- store b (msg + offsetof_log_level a) (encode_le 1 level) ;;
  store b (msg + offsetof_fmt_str a) (encode_le ptr fmt_str).

(** [msg->args_buffer] as a buffer pointer, and the arena once the callee
    has returned the buffer. *)
Definition args_buffer (a : abi) (msg : Z) (b : list Z) : list Z :=
  skipn (Z.to_nat (msg + offsetof_args_buffer a)) b.

Definition with_args_buffer (a : abi) (msg : Z) (b : list Z)
  (buf : option (list Z)) : list Z :=
  match buf with
  | None => b
  | Some bytes => firstn (Z.to_nat (msg + offsetof_args_buffer a)) b ++ bytes
  end.

(** [int log_queue_deferred_message(const char *module_name,
    const char *function_name, uint8_t level, const char *fmt_str, ...)] *)
Definition log_queue_deferred_message (c : callees) (a : abi)
  (module_name function_name : Z) (level : Z) (fmt_str : option c_string)
  (args : va_list) (s : system) : outcome (Z * system) :=
  match fmt_str with
  | None => Done (- EINVAL, s)
  | Some f =>
      args_buffer_size <- format_calculate_buffer_size c (Some (str_chars f)) ;;
      '(msg, p) <- pool_alloc c args_buffer_size (sys_pool s) ;;
      match msg with
      | None => Done (- ENOSPC, {| sys_pool := p; sys_queue := sys_queue s |})
      | Some m =>
          b <- fill_header a m module_name function_name level (str_addr f)
                 (prv_log_buffer_pool p) ;;
          let p := set_buffer p b in
          let send (p : pool) :=
            let '(r, q) := queue_send c (Some m) (sys_queue s) in
            Done (r, {| sys_pool := p; sys_queue := q |}) in
          if 0 <? args_buffer_size then
            '(bytes_written, buf) <-
              format_copy_args_to_buffer c (Some (args_buffer a m b))
                args_buffer_size (Some (str_chars f)) args ;;
            let p := set_buffer p (with_args_buffer a m b buf) in
            if bytes_written =? 0 then
              p <- pool_free c (Some m) p ;;
              Done (- EIO, {| sys_pool := p; sys_queue := sys_queue s |})
            else send p
          else send p
      end
  end.

(** [int log_init(void)]; the flags tell whether the mutex and the queue
    could be created.  The worker task that [log_start_thread] creates runs
    [log_queue_process_immediate] on what it takes from the queue and has no
    state of its own here. *)
Definition log_init (mutex_created queue_created : bool) (s : system)
  : Z * system :=
  let '(r, p) := log_pool_init mutex_created (sys_pool s) in
  if negb (r =? 0) then (-1, {| sys_pool := p; sys_queue := sys_queue s |})
  else
    let '(r, q) := log_queue_init queue_created in
    if negb (r =? 0) then (-2, {| sys_pool := p; sys_queue := q |})
    else (0, {| sys_pool := p; sys_queue := q |}).

(** The program before [log_init] has run. *)
Definition system_at_start : system :=
  {| sys_pool := pool_at_start; sys_queue := None |}.

(** ** Runs of the pool and of the registry *)

(** A call of the pool's interface.  [Free] names its argument as [NULL] or
    as the [k]-th pointer that [log_pool_alloc] has returned so far. *)
Inductive pool_call : Type :=
| Init (created : bool)
| Alloc (isr : bool) (args_size : Z)
| Free (isr : bool) (which : option nat).

Definition returned_pointer (returned : list (option Z)) (which : option nat)
  : option Z :=
  match which with
  | None => None
  | Some k => nth k returned None
  end.

(** A sequence of calls, one after the other; the argument of [Alloc] is
    converted to [size_t] as at any C call. *)
Fixpoint run_calls (a : abi) (calls : list pool_call) (s : pool)
  (returned : list (option Z)) : outcome (pool * list (option Z)) :=
  match calls with
  | [] => Done (s, returned)
  | Init created :: rest =>
      run_calls a rest (snd (log_pool_init created s)) returned
  | Alloc isr n :: rest =>
      '(msg, s) <- log_pool_alloc a isr (size_wrap a n) s ;;
      run_calls a rest s (returned ++ [msg])
  | Free isr which :: rest =>
      s <- log_pool_free a isr (returned_pointer returned which) s ;;
      run_calls a rest s returned
  end.




(** A request that [size_t] arithmetic handles without wrapping around. *)
Definition fits (a : abi) (args_size : Z) : Prop :=
  0 <= args_size /\
  sizeof_log_msg_t a + args_size + LOG_BUFFER_SIZE_BYTES <= SIZE_MAX a.

(** The calls of [log_backend_register_backend] with the pointers in
    [calls], one after the other. *)
Fixpoint register_all (fuel : nat) (calls : list (option Z)) (r : registry)
  : outcome registry :=
  match calls with
  | [] => Done r
  | backend :: rest =>
      '(_, r) <- log_backend_register_backend fuel backend r ;;
      register_all fuel rest r
  end.

(** The list that starts at [node] and follows the [next] links to [NULL]. *)
Inductive chain (mem : Z -> log_backend_t) : option Z -> list Z -> Prop :=
| chain_end : chain mem None []
| chain_link b l : chain mem (next (mem b)) l -> chain mem (Some b) (b :: l).

(** The list after a call of [log_backend_register_backend] on the list
    [l]: a new back end is appended, one that is on the list already becomes
    its last element, and [NULL] changes nothing. *)
Fixpoint upto (b : Z) (l : list Z) : list Z :=
  match l with
  | [] => []
  | x :: rest => if x =? b then [x] else x :: upto b rest
  end.

Definition listed_after (l : list Z) (backend : option Z) : list Z :=
  match backend with
  | None => l
  | Some b => if existsb (Z.eqb b) l then upto b l else l ++ [b]
  end.

Definition listed (calls : list (option Z)) : list Z :=
  fold_left listed_after calls [].

(** The calls the fan-out owes to the back ends in [l], in that order. *)
Definition emits (mem : Z -> log_backend_t) (msg : Z) (l : list Z) : list event :=
  flat_map (fun b => match process_msg (mem b) with
                     | Some fn => [CallProcessMsg fn b msg]
                     | None => []
                     end) l.

(** ** The specification's vocabulary *)

(** The status codes of the specification and the [errno] values the sources
    return for them. *)
Inductive status : Type :=
| OK | INVALID_ARGUMENT | NO_SPACE | IO_ERROR | NOT_INITIALIZED.

Definition status_of (ret : Z) : option status :=
  if ret =? 0 then Some OK
  else if ret =? - EINVAL then Some INVALID_ARGUMENT
  else if ret =? - ENOSPC then Some NO_SPACE
  else if ret =? - EIO then Some IO_ERROR
  else None.

(** The conversion table in the words of the specification: a conversion
    specification is a [%] not followed by [%], flags, a numeric width, an
    optional [.precision], an optional length modifier and the conversion
    character. *)
Inductive length_modifier : Type := Mhh | Mh | Ml | Mll | Mz | Mt | Mj.

Definition read_length_modifier (p : string) : option length_modifier * string :=
  let c := deref p in
  if is_char c "h" then
    if is_char (deref1 p) "h" then (Some Mhh, drop1 (drop1 p)) else (Some Mh, drop1 p)
  else if is_char c "l" then
    if is_char (deref1 p) "l" then (Some Mll, drop1 (drop1 p)) else (Some Ml, drop1 p)
  else if is_char c "z" then (Some Mz, drop1 p)
  else if is_char c "t" then (Some Mt, drop1 p)
  else if is_char c "j" then (Some Mj, drop1 p)
  else (None, p).

Definition is_integer_conv (c : ascii) : bool :=
  is_char c "d" || is_char c "i" || is_char c "o" || is_char c "u"
  || is_char c "x" || is_char c "X".

Definition spec_cost_by_conversion (a : abi) (conv : ascii) : Z :=
  if is_float_conv conv then sizeof_double a
  else if is_char conv "s" || is_char conv "p" || is_char conv "n"
       then sizeof_pointer a
  else 0.

Definition spec_cost (a : abi) (m : option length_modifier) (conv : ascii) : Z :=
  match m with
  | Some Mhh | Some Mh =>
      if is_integer_conv conv then sizeof_int a else spec_cost_by_conversion a conv
  | Some Ml =>
      if is_integer_conv conv then sizeof_long a else spec_cost_by_conversion a conv
  | Some Mll => sizeof_long_long a
  | Some Mz => sizeof_size_t a
  | Some Mt => sizeof_ptrdiff_t a
  | Some Mj => sizeof_intmax_t a
  | None =>
      if is_integer_conv conv || is_char conv "c" then sizeof_int a
      else spec_cost_by_conversion a conv
  end.

(** One conversion specification, read from just after its [%]: the length
    modifier, the conversion character and what follows it; [None] when the
    string ends before the conversion character. *)
Definition read_spec (t : string)
  : option (option length_modifier * ascii * string) :=
  let q := skip_while is_digit (skip_while is_flag t) in
  let q := if is_char (deref q) "." then skip_while is_digit (drop1 q) else q in
  let mq := read_length_modifier q in
  match snd mq with
  | EmptyString => None
  | String conv rest =>
      if is_char conv NUL then None else Some (fst mq, conv, rest)
  end.

(** The conversion specifications of a format string, each with its length
    modifier and conversion character. *)
Function conversion_specs (p : string) {measure String.length p}
  : list (option length_modifier * ascii) :=
  match p with
  | EmptyString => []
  | String c t =>
      if is_char c NUL then []
      else if is_char c "%" then
        if is_char (deref t) "%" then conversion_specs (drop1 t)
        else
          match read_spec t with
          | None => []
          | Some (m, conv, rest) => (m, conv) :: conversion_specs rest
          end
      else conversion_specs t
  end.
Proof.
  - intros. subst. destruct t as [| c0 t0]; simpl; lia.
  - intros. subst.
    assert (Hskip : forall f q,
               (String.length (skip_while f q) <= String.length q)%nat)
      by (intros f q; induction q as [| c0 q IH]; simpl; [lia |];
          destruct (negb (is_char c0 NUL) && f c0); simpl; lia).
    assert (Hd : forall r, (String.length (drop1 r) <= String.length r)%nat)
      by (intros [| c0 r]; simpl; lia).
    assert (Hm : forall q,
               (String.length (snd (read_length_modifier q)) <= String.length q)%nat).
    { intros q. unfold read_length_modifier.
      pose proof (Hd q) as Hd1. pose proof (Hd (drop1 q)) as Hd2.
      repeat match goal with
             | |- context [if ?b then _ else _] => destruct b
             end; simpl; lia. }
    match goal with
    | H : read_spec t = Some _ |- _ => unfold read_spec in H; revert H
    end.
    pose proof (Hskip is_flag t) as H1.
    pose proof (Hskip is_digit (skip_while is_flag t)) as H2.
    pose proof (Hd (skip_while is_digit (skip_while is_flag t))) as H3.
    pose proof (Hskip is_digit
                  (drop1 (skip_while is_digit (skip_while is_flag t)))) as H4.
    destruct (is_char (deref (skip_while is_digit (skip_while is_flag t))) ".");
      match goal with
      | |- context [read_length_modifier ?q] =>
          pose proof (Hm q) as Hq;
          destruct (snd (read_length_modifier q)) as [| conv0 rest0];
          [ discriminate | ]
      end;
      destruct (is_char conv0 NUL); intros H; inversion H; subst;
      simpl in *; lia.
  - intros. subst. simpl. lia.
Defined.

Definition spec_size_of (a : abi) (fmt : string) : Z :=
  fold_right (fun mc acc => spec_cost a (fst mc) (snd mc) + acc) 0
    (conversion_specs fmt).

(** A conversion specification that a row of the table names together with
    its modifier: [hh], [h] and [l] stand with an integer conversion. *)
Definition table_covers (mc : option length_modifier * ascii) : bool :=
  match fst mc with
  | Some Mhh | Some Mh | Some Ml => is_integer_conv (snd mc)
  | _ => true
  end.

(** The "Captured type" column of the same table: the type of the argument
    a conversion specification stands for, none for a conversion character
    the table does not list. *)
Definition spec_type_by_conversion (conv : ascii) : option ctype :=
  if is_float_conv conv then Some CDouble
  else if is_char conv "s" then Some CCharPtr
  else if is_char conv "p" then Some CVoidPtr
  else if is_char conv "n" then Some CIntPtr
  else None.

Definition spec_type (m : option length_modifier) (conv : ascii) : option ctype :=
  match m with
  | Some Mhh | Some Mh =>
      if is_integer_conv conv then Some CInt else spec_type_by_conversion conv
  | Some Ml =>
      if is_integer_conv conv then Some CLong else spec_type_by_conversion conv
  | Some Mll => Some CLongLong
  | Some Mz => Some CSizeT
  | Some Mt => Some CPtrdiffT
  | Some Mj => Some CIntmaxT
  | None =>
      if is_integer_conv conv || is_char conv "c" then Some CInt
      else spec_type_by_conversion conv
  end.

(** The argument types that match a format string: those of its conversion
    specifications, in order. *)
Definition spec_arg_types (fmt : string) : list ctype :=
  fold_right (fun mc acc => cons_some (spec_type (fst mc) (snd mc)) acc) []
    (conversion_specs fmt).

(** A format string in which no conversion specification is cut off by the
    end of the string: every [%] is followed by [%] or by a specification
    that has its conversion character. *)
Function specs_complete (p : string) {measure String.length p} : bool :=
  match p with
  | EmptyString => true
  | String c t =>
      if is_char c NUL then true
      else if is_char c "%" then
        if is_char (deref t) "%" then specs_complete (drop1 t)
        else
          match read_spec t with
          | None => false
          | Some (m, conv, rest) => specs_complete rest
          end
      else specs_complete t
  end.
Proof.
  - intros. subst. destruct t as [| c0 t0]; simpl; lia.
  - intros. subst.
    assert (Hskip : forall f q,
               (String.length (skip_while f q) <= String.length q)%nat)
      by (intros f q; induction q as [| c0 q IH]; simpl; [lia |];
          destruct (negb (is_char c0 NUL) && f c0); simpl; lia).
    assert (Hd : forall r, (String.length (drop1 r) <= String.length r)%nat)
      by (intros [| c0 r]; simpl; lia).
    assert (Hm : forall q,
               (String.length (snd (read_length_modifier q)) <= String.length q)%nat).
    { intros q. unfold read_length_modifier.
      pose proof (Hd q) as Hd1. pose proof (Hd (drop1 q)) as Hd2.
      repeat match goal with
             | |- context [if ?b then _ else _] => destruct b
             end; simpl; lia. }
    match goal with
    | H : read_spec t = Some _ |- _ => unfold read_spec in H; revert H
    end.
    pose proof (Hskip is_flag t) as H1.
    pose proof (Hskip is_digit (skip_while is_flag t)) as H2.
    pose proof (Hd (skip_while is_digit (skip_while is_flag t))) as H3.
    pose proof (Hskip is_digit
                  (drop1 (skip_while is_digit (skip_while is_flag t)))) as H4.
    destruct (is_char (deref (skip_while is_digit (skip_while is_flag t))) ".");
      match goal with
      | |- context [read_length_modifier ?q] =>
          pose proof (Hm q) as Hq;
          destruct (snd (read_length_modifier q)) as [| conv0 rest0];
          [ discriminate | ]
      end;
      destruct (is_char conv0 NUL); intros H; inversion H; subst;
      simpl in *; lia.
  - intros. subst. simpl. lia.
Defined.

(** ** Sample data for the examples *)

(** Three back ends at the addresses 100, 200 and 300; the second has no
    [process_msg], and the [next] fields hold what their owners left there. *)
Definition sample_backends : Z -> log_backend_t :=
  fun x =>
    if x =? 100 then {| process_msg := Some 7001; next := Some 300 |}
    else if x =? 200 then {| process_msg := None; next := Some 200 |}
    else if x =? 300 then {| process_msg := Some 7003; next := None |}
    else {| process_msg := None; next := None |}.

(** The program of [linked ilp32 false] with a capture that reports no
    byte written. *)
Definition capture_reports_nothing : callees := {|
  format_calculate_buffer_size := log_format_calculate_buffer_size ilp32;
  format_copy_args_to_buffer := fun buffer _ _ _ => Done (0, buffer);
  pool_alloc := log_pool_alloc ilp32 false;
  pool_free := log_pool_free ilp32 false;
  queue_send := log_queue_send false |}.

(** The system after a successful [log_init]. *)
Definition system_ready : system := snd (log_init true true system_at_start).

(** The initialised pool holding one message with 8 bytes of arguments. *)
Definition sample_pool : pool :=
  match log_pool_alloc ilp32 false 8 (snd (log_pool_init true pool_at_start)) with
  | Done (_, s) => s
  | _ => pool_at_start
  end.

(** ** log_queue.c: the worker task *)

(** Modelled from the spec: the FreeRTOS call [xQueueReceive] with
    [portMAX_DELAY]: it takes the oldest message of the queue, and on an
    empty queue the caller stays blocked ([None]). *)
Definition xQueueReceive (items : list Z) : option (Z * list Z) :=
  match items with
  | [] => None
  | msg :: rest => Some (msg, rest)
  end.

(** [static void prv_log_thread_task(void *args)]: the first [passes] passes
    through [while (true)], with no other task or interrupt running in
    between, so that a pass that finds the queue empty stays blocked.  The
    task runs outside interrupts; a [NULL] queue handle is not one
    [xQueueReceive] may be called with. *)
Fixpoint prv_log_thread_task (passes : nat) (a : abi) (fuel : nat)
  (r : registry) (s : system) : outcome (list event * system) :=
  match passes with
  | O => Done ([], s)
  | S passes =>
      match sys_queue s with
      | None => Undefined
      | Some items =>
          match xQueueReceive items with
          | None => Done ([], s)
          | Some (msg, rest) =>
              '(evs, p) <-
                log_queue_process_immediate a false fuel (Some msg) r (sys_pool s) ;;
              '(evs', s') <-
                prv_log_thread_task passes a fuel r
                  {| sys_pool := p; sys_queue := Some rest |} ;;
              Done (evs ++ evs', s')
          end
      end
  end.

(** ** log_core.h and log.h: the format strings of the logging macros *)

(** The escape character the sources write as a backslash and [e], carriage
    return and line feed. *)
Definition ESC : ascii := ascii_of_nat 27.
Definition CR : ascii := ascii_of_nat 13.
Definition LF : ascii := ascii_of_nat 10.

Definition LOG_LEVEL_ERROR_COLOR : string := String ESC "[31m".
Definition LOG_LEVEL_WARNING_COLOR : string := String ESC "[33m".
Definition LOG_LEVEL_INFO_COLOR : string := String ESC "[37m".
Definition LOG_LEVEL_DEBUG_COLOR : string := String ESC "[34m".
Definition LOG_RESET_COLOR : string := String ESC "[0m".

(** [#define LOG_AUGMENT_FMT_STR(fmt_str)]: adjacent string literals are one
    string. *)
Definition LOG_AUGMENT_FMT_STR (fmt_str : string) : string :=
  "%s[%u] <%s> %s::%s: " ++ fmt_str ++ LOG_RESET_COLOR ++ String CR (String LF "").

(** The format string that [LOG_DBG(fmt_str, ...)], [LOG_INF], [LOG_WRN] and
    [LOG_ERR] pass through [LOG_IMPL] to [log_queue_deferred_message]. *)
Definition LOG_DBG (fmt_str : string) : string :=
  LOG_AUGMENT_FMT_STR (LOG_LEVEL_DEBUG_COLOR ++ fmt_str ++ LOG_RESET_COLOR).

Definition LOG_INF (fmt_str : string) : string :=
  LOG_AUGMENT_FMT_STR (LOG_LEVEL_INFO_COLOR ++ fmt_str ++ LOG_RESET_COLOR).

Definition LOG_WRN (fmt_str : string) : string :=
  LOG_AUGMENT_FMT_STR (LOG_LEVEL_WARNING_COLOR ++ fmt_str ++ LOG_RESET_COLOR).

Definition LOG_ERR (fmt_str : string) : string :=
  LOG_AUGMENT_FMT_STR (LOG_LEVEL_ERROR_COLOR ++ fmt_str ++ LOG_RESET_COLOR).

(** The types of the arguments [LOG_IMPL] passes before the caller's own:
    [color_mod], [ticks] (for [%u]), [level_str], [prv_log_module_name] and
    [__FUNCTION__]. *)
Definition LOG_IMPL_types : list ctype :=
  [CCharPtr; CInt; CCharPtr; CCharPtr; CCharPtr].

(** ** Further runs and vocabulary *)

(** A string literal in which no character is the terminator: the string the
    scanning loops see is all of it. *)
Fixpoint no_nul (p : string) : bool :=
  match p with
  | EmptyString => true
  | String c t => negb (is_char c NUL) && no_nul t
  end.

(** A string without the character [%]. *)
Fixpoint no_percent (p : string) : bool :=
  match p with
  | EmptyString => true
  | String c t => negb (is_char c "%") && no_percent t
  end.

(** The object representations of the arguments, one after the other. *)
Definition packed (a : abi) (args : va_list) : list Z :=
  flat_map (fun x => encode_le (Z.to_nat (sizeof a (va_type x))) (va_bits x)) args.

(** The calls of [log_queue_send] with the messages in [calls], one after the
    other, each from a task ([false]) or an interrupt ([true]); the result
    lists the statuses returned. *)
Fixpoint send_all (calls : list (bool * Z)) (q : option (list Z))
  : list Z * option (list Z) :=
  match calls with
  | [] => ([], q)
  | (isr, msg) :: rest =>
      let '(ret, q) := log_queue_send isr (Some msg) q in
      let '(rets, q) := send_all rest q in
      (ret :: rets, q)
  end.

(** The calls of [log_pool_free] from a task with the messages in [msgs], one
    after the other. *)
Fixpoint free_all (a : abi) (msgs : list Z) (s : pool) : outcome pool :=
  match msgs with
  | [] => Done s
  | msg :: rest =>
      s <- log_pool_free a false (Some msg) s ;;
      free_all a rest s
  end.

(** The first pointer of [calls] that is not [NULL]. *)
Fixpoint first_registered (calls : list (option Z)) : option Z :=
  match calls with
  | [] => None
  | Some b :: _ => Some b
  | None :: rest => first_registered rest
  end.

(** log_msg.h: the [log_msg_t] at [msg] in the arena [b] has the given
    [module_name], [function_name], [log_level], [fmt_str] and
    [args_buffer_size], and its [args_buffer] starts with the bytes [data]. *)
Definition msg_holds (a : abi) (b : list Z) (msg : Z)
  (module_name function_name level fmt_str args_buffer_size : Z)
  (data : list Z) : Prop :=
  let ptr := Z.to_nat (sizeof_pointer a) in
  load b (msg + offsetof_module_name a) ptr = Done (encode_le ptr module_name) /\
  load b (msg + offsetof_function_name a) ptr = Done (encode_le ptr function_name) /\
  load b (msg + offsetof_log_level a) 1 = Done (encode_le 1 level) /\
  load b (msg + offsetof_fmt_str a) ptr = Done (encode_le ptr fmt_str) /\
  load b (msg + offsetof_args_buffer_size a) (Z.to_nat (sizeof_size_t a))
  = Done (encode_le (Z.to_nat (sizeof_size_t a)) args_buffer_size) /\
  load b (msg + offsetof_args_buffer a) (List.length data) = Done data.

(** * Proofs *)

(** ** Arithmetic on [size_t] and bytes in memory *)

Lemma size_modulus_pos (a : abi) : abi_wf a -> 0 < size_modulus a.
Proof.
  intros [Hs _]. unfold size_modulus. apply Z.pow_pos_nonneg; lia.
Qed.

Lemma size_wrap_range (a : abi) (z : Z) :
  abi_wf a -> 0 <= size_wrap a z < size_modulus a.
Proof.
  intros Hwf. unfold size_wrap. apply Z.mod_pos_bound.
  now apply size_modulus_pos.
Qed.

Lemma size_wrap_small (a : abi) (z : Z) :
  0 <= z <= SIZE_MAX a -> size_wrap a z = z.
Proof.
  intros H. unfold size_wrap, SIZE_MAX in *. apply Z.mod_small. lia.
Qed.

Lemma sizeof_pos (a : abi) (t : ctype) : abi_wf a -> 0 < sizeof a t <= SIZE_MAX a.
Proof. intros (_ & H & _). apply H. Qed.

Lemma abi_layout (a : abi) :
  abi_wf a ->
  0 < sizeof_pointer a /\ 0 < sizeof_size_t a /\
  0 <= offsetof_args_buffer_size a /\
  offsetof_args_buffer_size a + sizeof_size_t a <= offsetof_args_buffer a /\
  offsetof_args_buffer a <= sizeof_log_msg_t a /\
  0 < sizeof_log_msg_t a /\
  sizeof_log_msg_t a + LOG_BUFFER_SIZE_BYTES < size_modulus a.
Proof.
  intros Hwf. pose proof (sizeof_pos a CVoidPtr Hwf) as Hp. simpl in Hp.
  unfold abi_wf, SIZE_MAX in *. lia.
Qed.

Lemma length_encode_le (n : nat) (v : Z) : List.length (encode_le n v) = n.
Proof.
  revert v. induction n as [| n IH]; intros v; simpl; [reflexivity |].
  now rewrite IH.
Qed.

Lemma decode_encode_le (n : nat) (v : Z) :
  decode_le (encode_le n v) = v mod 256 ^ Z.of_nat n.
Proof.
  revert v. induction n as [| n IH]; intros v.
  - simpl. now rewrite Z.mod_1_r.
  - cbn [encode_le decode_le]. rewrite IH.
    rewrite Nat2Z.inj_succ, Z.pow_succ_r by lia.
    rewrite Z.rem_mul_r by lia. lia.
Qed.

Lemma decode_encode_size (a : abi) (v : Z) :
  abi_wf a -> 0 <= v <= SIZE_MAX a ->
  decode_le (encode_le (Z.to_nat (sizeof_size_t a)) v) = v.
Proof.
  intros Hwf Hv. rewrite decode_encode_le.
  destruct Hwf as [Hs _].
  rewrite Z2Nat.id by lia.
  unfold SIZE_MAX, size_modulus in Hv.
  replace (256 ^ sizeof_size_t a) with (2 ^ (8 * sizeof_size_t a)).
  - apply Z.mod_small. lia.
  - change 256 with (2 ^ 8). rewrite <- Z.pow_mul_r by lia. reflexivity.
Qed.

Lemma in_bounds_spec (mem : list Z) (off : Z) (n : nat) :
  in_bounds mem off n = true <->
  0 <= off /\ off + Z.of_nat n <= Z.of_nat (List.length mem).
Proof.
  unfold in_bounds. rewrite andb_true_iff, !Z.leb_le. tauto.
Qed.

Lemma store_done (mem : list Z) (off : Z) (bytes : list Z) :
  0 <= off -> off + Z.of_nat (List.length bytes) <= Z.of_nat (List.length mem) ->
  store mem off bytes =
  Done (firstn (Z.to_nat off) mem ++ bytes
          ++ skipn (Z.to_nat off + List.length bytes) mem).
Proof.
  intros H1 H2. unfold store.
  now rewrite (proj2 (in_bounds_spec _ _ _) (conj H1 H2)).
Qed.

Lemma store_inv (mem : list Z) (off : Z) (bytes mem' : list Z) :
  store mem off bytes = Done mem' ->
  0 <= off /\ off + Z.of_nat (List.length bytes) <= Z.of_nat (List.length mem) /\
  mem' = firstn (Z.to_nat off) mem ++ bytes
           ++ skipn (Z.to_nat off + List.length bytes) mem.
Proof.
  unfold store. destruct (in_bounds mem off (List.length bytes)) eqn:E;
    [| discriminate].
  apply in_bounds_spec in E. intros H. inversion H. tauto.
Qed.

Lemma store_length (mem : list Z) (off : Z) (bytes mem' : list Z) :
  store mem off bytes = Done mem' -> List.length mem' = List.length mem.
Proof.
  intros H. apply store_inv in H. destruct H as (H1 & H2 & ->).
  rewrite !length_app, length_firstn, length_skipn. lia.
Qed.

Lemma store_firstn (mem : list Z) (off : Z) (bytes mem' : list Z) (k : nat) :
  store mem off bytes = Done mem' -> (k <= Z.to_nat off)%nat ->
  firstn k mem' = firstn k mem.
Proof.
  intros H Hk. apply store_inv in H. destruct H as (H1 & H2 & ->).
  rewrite firstn_app.
  rewrite length_firstn.
  replace (k - Nat.min (Z.to_nat off) (List.length mem))%nat with 0%nat by lia.
  rewrite firstn_firstn. simpl. rewrite app_nil_r.
  f_equal. lia.
Qed.

Lemma store_skipn (mem : list Z) (off : Z) (bytes mem' : list Z) (k : nat) :
  store mem off bytes = Done mem' ->
  (Z.to_nat off + List.length bytes <= k)%nat ->
  skipn k mem' = skipn k mem.
Proof.
  intros H Hk. apply store_inv in H. destruct H as (H1 & H2 & ->).
  assert (Hl : List.length (firstn (Z.to_nat off) mem) = Z.to_nat off)
    by (rewrite length_firstn; lia).
  rewrite !skipn_app, Hl.
  rewrite (skipn_all2 (firstn _ _)) by lia.
  rewrite (skipn_all2 bytes) by lia.
  simpl. rewrite skipn_skipn. f_equal. lia.
Qed.

Lemma load_store_same (mem : list Z) (off : Z) (bytes mem' : list Z) :
  store mem off bytes = Done mem' ->
  load mem' off (List.length bytes) = Done bytes.
Proof.
  intros H. pose proof (store_length _ _ _ _ H) as Hlen.
  apply store_inv in H. destruct H as (H1 & H2 & ->).
  unfold load. rewrite (proj2 (in_bounds_spec _ _ _)) by (rewrite Hlen; lia).
  f_equal.
  assert (Hl : List.length (firstn (Z.to_nat off) mem) = Z.to_nat off)
    by (rewrite length_firstn; lia).
  rewrite skipn_app, Hl, Nat.sub_diag.
  rewrite (skipn_all2 (firstn _ _)) by lia.
  simpl. rewrite firstn_app, Nat.sub_diag, firstn_all. simpl.
  now rewrite app_nil_r.
Qed.

Lemma load_agree (m1 m2 : list Z) (off : Z) (n k : nat) :
  List.length m1 = List.length m2 ->
  firstn k m1 = firstn k m2 ->
  (Z.to_nat off + n <= k)%nat ->
  load m1 off n = load m2 off n.
Proof.
  intros Hlen Hk Hle. unfold load, in_bounds. rewrite Hlen.
  destruct ((0 <=? off) && (off + Z.of_nat n <=? Z.of_nat (List.length m2)));
    [| reflexivity].
  f_equal.
  assert (H : forall m : list Z,
             firstn n (skipn (Z.to_nat off) m)
             = firstn n (skipn (Z.to_nat off) (firstn k m))).
  { intros m. rewrite skipn_firstn_comm, firstn_firstn. f_equal. lia. }
  rewrite (H m1), (H m2), Hk. reflexivity.
Qed.

Lemma ilp32_wf : abi_wf ilp32.
Proof.
  unfold abi_wf.
  split; [reflexivity |].
  split; [intros t; destruct t; vm_compute; split; congruence |].
  repeat split; vm_compute; congruence.
Qed.

Lemma lp64_wf : abi_wf lp64.
Proof.
  unfold abi_wf.
  split; [reflexivity |].
  split; [intros t; destruct t; vm_compute; split; congruence |].
  repeat split; vm_compute; congruence.
Qed.

(** ** log_pool.c *)

Lemma set_mutex_same (s : pool) (m : option bool) :
  prv_log_pool_mutex s = m -> set_mutex s m = s.
Proof. intros <-. destruct s. reflexivity. Qed.

(** A refused allocation: the branches of [log_pool_alloc] that return
    [NULL] give the mutex back, if they took it, and touch nothing else. *)
Lemma log_pool_alloc_refused (a : abi) (isr : bool) (args_size : Z) (s : pool) :
  prv_log_pool_mutex s <> Some false
  \/ (LOG_BUFFER_SIZE_BYTES
        <? size_add a (prv_log_buffer_used s) (LOG_MSG_SIZE a args_size)) = true ->
  log_pool_alloc a isr args_size s = Done (None, s).
Proof.
  intros Hwhy. unfold log_pool_alloc.
  destruct (prv_log_pool_mutex s) as [held |] eqn:Hm; [| reflexivity].
  destruct held.
  - destruct isr; cbn; now rewrite set_mutex_same.
  - destruct Hwhy as [Hheld | Hfull]; [congruence |].
    destruct isr; cbn -[Z.ltb size_add LOG_MSG_SIZE];
      rewrite Hfull; now rewrite set_mutex_same.
Qed.

(** When the bound check of [log_pool_alloc], made in [size_t] arithmetic,
    finds the pool exhausted, the call returns [NULL] and leaves the
    watermark, the arena and the mutex as they were. *)
Theorem log_pool_alloc_no_space (a : abi) (isr : bool) (args_size : Z) (s : pool) :
  LOG_BUFFER_SIZE_BYTES
    < size_add a (prv_log_buffer_used s) (LOG_MSG_SIZE a args_size) ->
  log_pool_alloc a isr args_size s = Done (None, s)
  /\ forall msg s',
       log_pool_alloc a isr args_size s = Done (msg, s') ->
       msg = None /\
       prv_log_buffer_used s' = prv_log_buffer_used s /\
       prv_log_buffer_pool s' = prv_log_buffer_pool s.
Proof.
  intros Hfull. apply Z.ltb_lt in Hfull.
  assert (Hret : log_pool_alloc a isr args_size s = Done (None, s))
    by (apply log_pool_alloc_refused; now right).
  split; [exact Hret |].
  intros msg s' Hrun. rewrite Hret in Hrun. inversion Hrun; subst. auto.
Qed.

Lemma log_pool_alloc_no_space_witness :
  log_pool_alloc ilp32 false 8
    {| prv_log_buffer_pool := repeat 0 1024%nat;
       prv_log_buffer_used := 1000;
       prv_log_pool_mutex := Some false |}
  = Done (None, {| prv_log_buffer_pool := repeat 0 1024%nat;
                   prv_log_buffer_used := 1000;
                   prv_log_pool_mutex := Some false |}).
Proof.
  apply (log_pool_alloc_no_space ilp32 false 8). vm_compute. reflexivity.
Defined.

(** Without wrap-around the check is the comparison of the exact sum. *)
Lemma exhausted_exact (a : abi) (args_size : Z) (s : pool) :
  abi_wf a -> fits a args_size ->
  0 <= prv_log_buffer_used s <= LOG_BUFFER_SIZE_BYTES ->
  size_add a (prv_log_buffer_used s) (LOG_MSG_SIZE a args_size)
  = prv_log_buffer_used s + sizeof_log_msg_t a + args_size.
Proof.
  intros Hwf [Hn Hfit] Hu.
  pose proof (abi_layout a Hwf) as Hlay. unfold fits, SIZE_MAX in *.
  unfold size_add, LOG_MSG_SIZE, size_add.
  rewrite (size_wrap_small a (sizeof_log_msg_t a + args_size))
    by (unfold SIZE_MAX; lia).
  rewrite size_wrap_small; unfold SIZE_MAX; lia.
Qed.

Lemma log_pool_init_bounded (created : bool) (s : pool) :
  in_arena (prv_log_buffer_used s) ->
  in_arena (prv_log_buffer_used (snd (log_pool_init created s))).
Proof.
  intros H. unfold log_pool_init. destruct created; simpl; [| exact H].
  unfold in_arena, LOG_BUFFER_SIZE_BYTES. lia.
Qed.

Lemma log_pool_alloc_bounded (a : abi) (isr : bool) (n : Z) (s s' : pool)
  (msg : option Z) :
  abi_wf a ->
  in_arena (prv_log_buffer_used s) ->
  log_pool_alloc a isr n s = Done (msg, s') ->
  in_arena (prv_log_buffer_used s') /\
  (forall h, msg = Some h -> in_arena h).
Proof.
  intros Hwf Hu. unfold log_pool_alloc.
  destruct (prv_log_pool_mutex s) as [held |].
  2:{ intros H; inversion H; subst. split; [exact Hu | discriminate]. }
  destruct (if isr then xSemaphoreTakeFromISR held else xSemaphoreTake held)
    as [ret m].
  destruct ret; cbn [negb].
  2:{ intros H; inversion H; subst. split; [exact Hu | discriminate]. }
  destruct (LOG_BUFFER_SIZE_BYTES
              <? size_add a (prv_log_buffer_used s) (LOG_MSG_SIZE a n)) eqn:Hc.
  { intros H; inversion H; subst. split; [exact Hu | discriminate]. }
  apply Z.ltb_ge in Hc.
  cbn [set_used prv_log_buffer_pool prv_log_buffer_used].
  destruct (store _ _ _) as [b | |]; simpl; try discriminate.
  intros H; inversion H; subst; clear H. simpl. split.
  - split; [| exact Hc]. apply size_wrap_range. exact Hwf.
  - intros h Hh. inversion Hh; subst. exact Hu.
Qed.

Lemma log_pool_free_bounded (a : abi) (isr : bool) (msg : option Z) (s s' : pool) :
  abi_wf a ->
  in_arena (prv_log_buffer_used s) ->
  (forall h, msg = Some h -> in_arena h) ->
  log_pool_free a isr msg s = Done s' ->
  in_arena (prv_log_buffer_used s').
Proof.
  intros Hwf Hu Hmsg. unfold log_pool_free.
  destruct msg as [h |]; [| intros H; inversion H; subst; exact Hu].
  specialize (Hmsg h eq_refl).
  destruct (prv_log_pool_mutex s) as [held |];
    [| intros H; inversion H; subst; exact Hu].
  destruct (if isr then xSemaphoreTakeFromISR held else xSemaphoreTake held)
    as [ret m].
  destruct ret; cbn [negb]; [| intros H; inversion H; subst; exact Hu].
  destruct (load _ _ _) as [bytes | |]; simpl; try discriminate.
  set (T := LOG_MSG_SIZE a (decode_le bytes)).
  destruct (size_wrap a (h + T) =? size_wrap a (prv_log_buffer_used s)) eqn:Hc;
    intros H; inversion H; subst; clear H; simpl; [| exact Hu].
  apply Z.eqb_eq in Hc.
  pose proof (abi_layout a Hwf) as Hlay.
  unfold in_arena in *.
  assert (Hused : size_wrap a (prv_log_buffer_used s) = prv_log_buffer_used s)
    by (apply size_wrap_small; unfold SIZE_MAX; lia).
  rewrite Hused in Hc.
  assert (Hback : size_sub a (prv_log_buffer_used s) T = h).
  { unfold size_sub. rewrite <- Hc. unfold size_wrap.
    rewrite Zminus_mod_idemp_l.
    replace (h + T - T) with h by lia.
    apply Z.mod_small. lia. }
  rewrite Hback. exact Hmsg.
Qed.

Lemma run_calls_bounded (a : abi) (calls : list pool_call) :
  abi_wf a ->
  forall s returned s' returned',
    in_arena (prv_log_buffer_used s) ->
    (forall h, In (Some h) returned -> in_arena h) ->
    run_calls a calls s returned = Done (s', returned') ->
    in_arena (prv_log_buffer_used s').
Proof.
  intros Hwf. induction calls as [| c calls IH]; intros s returned s' returned' Hu Hr.
  - simpl. intros H; inversion H; subst. exact Hu.
  - destruct c as [created | isr n | isr which]; simpl.
    + apply IH; [now apply log_pool_init_bounded | exact Hr].
    + destruct (log_pool_alloc a isr (size_wrap a n) s) as [[msg s1] | |] eqn:Ha;
        simpl; try discriminate.
      destruct (log_pool_alloc_bounded _ _ _ _ _ _ Hwf Hu Ha) as [Hu1 Hm].
      apply IH; [exact Hu1 |].
      intros h Hin. apply in_app_or in Hin. destruct Hin as [Hin | [Hin | []]].
      * now apply Hr.
      * now apply Hm.
    + destruct (log_pool_free a isr (returned_pointer returned which) s)
        as [s1 | |] eqn:Hf; simpl; try discriminate.
      apply IH; [| exact Hr].
      apply (log_pool_free_bounded _ _ _ _ _ Hwf Hu) in Hf; [exact Hf |].
      intros h Hh. apply Hr. rewrite <- Hh.
      unfold returned_pointer in *. destruct which as [k |]; [| discriminate].
      destruct (nth_in_or_default k returned None) as [Hin | Hd]; [exact Hin |].
      rewrite Hd in Hh. discriminate.
Qed.

(** C10. In every state that a sequence of [log_pool_init], [log_pool_alloc]
    and [log_pool_free] calls reaches from the start of the program, with
    [log_pool_free] given [NULL] or pointers that [log_pool_alloc] returned,
    the watermark satisfies [0 <= prv_log_buffer_used <= LOG_BUFFER_SIZE_BYTES]. *)
Theorem pool_used_bounded (a : abi) (calls : list pool_call)
  (s : pool) (returned : list (option Z)) :
  abi_wf a ->
  run_calls a calls pool_at_start [] = Done (s, returned) ->
  0 <= prv_log_buffer_used s <= LOG_BUFFER_SIZE_BYTES.
Proof.
  intros Hwf Hrun.
  apply (run_calls_bounded a calls Hwf pool_at_start [] s returned).
  - unfold in_arena, pool_at_start, LOG_BUFFER_SIZE_BYTES. simpl. lia.
  - intros h [].
  - exact Hrun.
Qed.

Lemma pool_used_bounded_witness :
  exists s returned,
    run_calls ilp32
      [Init true; Alloc false 8; Alloc true 16; Free false (Some 1%nat);
       Alloc false 4000; Free true (Some 0%nat); Free false (Some 1%nat)]
      pool_at_start [] = Done (s, returned)
    /\ 0 <= prv_log_buffer_used s <= LOG_BUFFER_SIZE_BYTES.
Proof.
  eexists. eexists. split.
  - vm_compute. reflexivity.
  - eapply (pool_used_bounded ilp32
              [Init true; Alloc false 8; Alloc true 16; Free false (Some 1%nat);
               Alloc false 4000; Free true (Some 0%nat); Free false (Some 1%nat)]).
    + exact ilp32_wf.
    + vm_compute. reflexivity.
Defined.

(** *** Conservation *)

Lemma log_pool_alloc_fits (a : abi) (isr : bool) (n : Z) (s : pool) :
  abi_wf a -> fits a n -> pool_ready s ->
  let u := prv_log_buffer_used s in
  (LOG_BUFFER_SIZE_BYTES < u + sizeof_log_msg_t a + n /\
   log_pool_alloc a isr n s = Done (None, s))
  \/
  (u + sizeof_log_msg_t a + n <= LOG_BUFFER_SIZE_BYTES /\
   exists b,
     store (prv_log_buffer_pool s) (u + offsetof_args_buffer_size a)
       (encode_le (Z.to_nat (sizeof_size_t a)) n) = Done b /\
     log_pool_alloc a isr n s
     = Done (Some u, {| prv_log_buffer_pool := b;
                        prv_log_buffer_used := u + sizeof_log_msg_t a + n;
                        prv_log_pool_mutex := Some false |})).
Proof.
  intros Hwf Hfit (Hm & Hlen & Hu) u.
  pose proof (exhausted_exact a n s Hwf Hfit Hu) as Hsum. fold u in Hsum.
  destruct (Z.ltb_spec LOG_BUFFER_SIZE_BYTES (u + sizeof_log_msg_t a + n))
    as [Hfull | Hroom].
  - left. split; [exact Hfull |].
    apply log_pool_alloc_refused. right. apply Z.ltb_lt. fold u. lia.
  - right. split; [exact Hroom |].
    pose proof (abi_layout a Hwf) as Hlay.
    destruct Hfit as [Hn _]. unfold in_arena in Hu. fold u in Hu.
    eexists. split.
    + apply store_done; [lia |].
      rewrite length_encode_le, Hlen, !Z2Nat.id; lia.
    + unfold log_pool_alloc. rewrite Hm.
      assert (Hc : (LOG_BUFFER_SIZE_BYTES
                    <? size_add a (prv_log_buffer_used s) (LOG_MSG_SIZE a n))
                   = false)
        by (apply Z.ltb_ge; fold u; lia).
      destruct isr; cbn -[Z.ltb size_add LOG_MSG_SIZE store];
        rewrite Hc; cbn -[size_add LOG_MSG_SIZE store]; fold u;
        rewrite store_done
          by (try lia; rewrite length_encode_le, Hlen, !Z2Nat.id; lia);
        cbn; unfold set_mutex; cbn; rewrite Hsum; reflexivity.
Qed.

Lemma log_pool_free_top (a : abi) (isr : bool) (n h : Z) (s : pool) :
  abi_wf a -> fits a n -> pool_ready s -> 0 <= h ->
  prv_log_buffer_used s = h + sizeof_log_msg_t a + n ->
  load (prv_log_buffer_pool s) (h + offsetof_args_buffer_size a)
    (Z.to_nat (sizeof_size_t a))
  = Done (encode_le (Z.to_nat (sizeof_size_t a)) n) ->
  log_pool_free a isr (Some h) s
  = Done {| prv_log_buffer_pool := prv_log_buffer_pool s;
            prv_log_buffer_used := h;
            prv_log_pool_mutex := Some false |}.
Proof.
  intros Hwf Hfit (Hm & Hlen & Hu) Hh Hused Hload.
  pose proof (abi_layout a Hwf) as Hlay.
  destruct Hfit as [Hn Hfit]. unfold in_arena, SIZE_MAX in *.
  unfold log_pool_free. rewrite Hm.
  assert (Hdec : decode_le (encode_le (Z.to_nat (sizeof_size_t a)) n) = n)
    by (apply decode_encode_size; [exact Hwf | unfold SIZE_MAX; lia]).
  assert (HT : LOG_MSG_SIZE a n = sizeof_log_msg_t a + n)
    by (unfold LOG_MSG_SIZE, size_add; apply size_wrap_small;
        unfold SIZE_MAX; lia).
  destruct isr; cbn -[Z.eqb load LOG_MSG_SIZE size_wrap size_sub];
    rewrite Hload; cbn -[Z.eqb LOG_MSG_SIZE size_wrap size_sub];
    rewrite Hdec, HT, Hused;
    replace (h + (sizeof_log_msg_t a + n)) with (h + sizeof_log_msg_t a + n)
      by lia;
    rewrite Z.eqb_refl; unfold set_mutex, set_used, size_sub; cbn;
    replace (h + sizeof_log_msg_t a + n - (sizeof_log_msg_t a + n)) with h
      by lia;
    rewrite size_wrap_small by (unfold SIZE_MAX; lia); reflexivity.
Qed.




(** ** log_format.c *)

Lemma is_char_eq (c k : ascii) : is_char c k = true -> c = k.
Proof. apply Ascii.eqb_eq. Qed.

Ltac on_char c k :=
  let E := fresh "E" in
  destruct (is_char c k) eqn:E;
  [ apply is_char_eq in E; subst c; cbn | ].

Lemma calculate_switch_class (a : abi) (p : string) (size : Z) :
  calculate_switch a p size
  = Done (snd (switch_class p), add_cost a size (fst (switch_class p))).
Proof.
  unfold calculate_switch, switch_class.
  destruct p as [| c t]; [reflexivity |].
  cbn [deref deref1 incr drop1].
  on_char c "h"%char.
  { destruct t as [| c' t']; [reflexivity |]. cbn.
    on_char c' "h"%char; reflexivity. }
  on_char c "l"%char.
  { destruct t as [| c' t']; [reflexivity |]. cbn.
    on_char c' "l"%char; reflexivity. }
  on_char c "z"%char; [reflexivity |].
  on_char c "t"%char; [reflexivity |].
  on_char c "j"%char; [reflexivity |].
  destruct (is_int_conv c); [reflexivity |].
  destruct (is_float_conv c); [reflexivity |].
  destruct (is_char c "s"); [reflexivity |].
  destruct (is_char c "p"); [reflexivity |].
  destruct (is_char c "n"); reflexivity.
Qed.

Ltac by_capture :=
  cbn [capture_opt fst snd];
  try match goal with
      | |- context [capture ?a ?t ?b ?w ?g] => destruct (capture a t b w g)
      end;
  reflexivity.

Lemma copy_switch_class (a : abi) (p : string) (b : list Z) (w : Z) (g : va_list) :
  copy_switch a p b w g
  = (st <- capture_opt a (fst (switch_class p)) b w g ;;
     Done (snd (switch_class p), st)).
Proof.
  unfold copy_switch, switch_class.
  destruct p as [| c t]; [reflexivity |].
  cbn [deref deref1 incr drop1].
  on_char c "h"%char.
  { destruct t as [| c' t']; [cbn; by_capture |].
    cbn. on_char c' "h"%char; by_capture. }
  on_char c "l"%char.
  { destruct t as [| c' t']; [cbn; by_capture |].
    cbn. on_char c' "l"%char; by_capture. }
  on_char c "z"%char; [by_capture |].
  on_char c "t"%char; [by_capture |].
  on_char c "j"%char; [by_capture |].
  destruct (is_int_conv c); [reflexivity |].
  destruct (is_float_conv c); [reflexivity |].
  destruct (is_char c "s"); [reflexivity |].
  destruct (is_char c "p"); [reflexivity |].
  destruct (is_char c "n"); reflexivity.
Qed.

Lemma calculate_body_scan (a : abi) (p : string) (size : Z) :
  calculate_body a p size
  = ('(t, p') <- scan_body p ;; Done (p', add_cost a size t)).
Proof.
  unfold calculate_body, scan_body.
  destruct (is_char (deref p) "%" && negb (is_char (deref1 p) "%")).
  - destruct (incr p) as [q | |]; [| reflexivity | reflexivity]. cbn [bind].
    destruct (skip_flags_width_precision q) as [q' | |];
      [| reflexivity | reflexivity].
    cbn [bind]. rewrite calculate_switch_class.
    destruct (switch_class q') as [t q'']. cbn.
    destruct (incr q''); reflexivity.
  - destruct (is_char (deref p) "%" && is_char (deref1 p) "%").
    + destruct (incr p) as [q | |]; [| reflexivity | reflexivity]. cbn.
      destruct (incr q); reflexivity.
    + cbn. destruct (incr p); reflexivity.
Qed.

Lemma capture_defined (a : abi) (t : option ctype) (b : list Z) (w : Z)
  (g : va_list) : capture_opt a t b w g <> OutOfFuel.
Proof.
  destruct t as [ty |]; [| discriminate]. unfold capture_opt, capture, va_arg.
  destruct g as [| x g]; [discriminate |].
  destruct (ctype_eqb (va_type x) ty); [| discriminate]. cbn.
  unfold store. destruct (in_bounds _ _ _); discriminate.
Qed.

Lemma incr_defined (p : string) : incr p <> OutOfFuel.
Proof.
  destruct p as [| c t]; [discriminate |]. simpl.
  destruct (c =? NUL)%char; discriminate.
Qed.

Lemma copy_body_scan (a : abi) (p : string) (b : list Z) (w : Z) (g : va_list) :
  copy_body a p b w g
  = ('(t, p') <- scan_body p ;;
     st <- capture_opt a t b w g ;;
     Done (p', st)).
Proof.
  unfold copy_body, scan_body.
  destruct (is_char (deref p) "%" && negb (is_char (deref1 p) "%")).
  - destruct (incr p) as [q | |]; [| reflexivity | reflexivity]. cbn [bind].
    destruct (skip_flags_width_precision q) as [q' | |];
      [| reflexivity | reflexivity].
    cbn [bind]. rewrite copy_switch_class.
    destruct (switch_class q') as [t q'']. cbn [fst snd bind].
    pose proof (capture_defined a t b w g) as Hc.
    pose proof (incr_defined q'') as Hi.
    destruct (incr q'') as [q3 | |] eqn:Ei; cbn;
      destruct (capture_opt a t b w g) as [st | |] eqn:Ec; cbn;
      rewrite ?Ei, ?Ec; cbn; congruence.
  - destruct (is_char (deref p) "%" && is_char (deref1 p) "%").
    + destruct (incr p) as [q | |]; [| reflexivity | reflexivity]. cbn.
      destruct (incr q); reflexivity.
    + cbn. destruct (incr p); reflexivity.
Qed.

Lemma scan_body_shorter (p p' : string) (t : option ctype) :
  scan_body p = Done (t, p') -> (String.length p' < String.length p)%nat.
Proof.
  intros Hbody.
  scan_length_facts.
  assert (Hsw : forall q0 t0 q1, switch_class q0 = (t0, q1) ->
                                 (String.length q1 <= String.length q0)%nat).
  { intros q0 t0 q1. unfold switch_class.
    assert (Hd : forall r, (String.length (drop1 r) <= String.length r)%nat)
      by (intros [| c0 r]; simpl; lia).
    pose proof (Hd q0) as Hd1. pose proof (Hd (drop1 q0)) as Hd2.
    scan_split; intros H; inversion H; subst; lia. }
  unfold scan_body in Hbody.
  destruct (is_char (deref p) "%" && negb (is_char (deref1 p) "%")).
  - use_incr Hbody. use_prefix Hbody.
    match type of Hbody with
    | context [switch_class ?q] =>
        destruct (switch_class q) as [t1 q1] eqn:E3; simpl in Hbody;
        apply Hsw in E3
    end.
    use_incr Hbody. inversion Hbody; subst. lia.
  - destruct (is_char (deref p) "%" && is_char (deref1 p) "%").
    + use_incr Hbody. simpl in Hbody. use_incr Hbody.
      inversion Hbody; subst. lia.
    + simpl in Hbody. use_incr Hbody. inversion Hbody; subst. lia.
Qed.

Lemma scan_body_defined (p : string) : scan_body p <> OutOfFuel.
Proof.
  unfold scan_body.
  assert (Hp : forall q, skip_flags_width_precision q <> OutOfFuel).
  { intros q. unfold skip_flags_width_precision.
    destruct (is_char _ "."); [| discriminate].
    pose proof (incr_defined (skip_while is_digit (skip_while is_flag q))).
    destruct (incr _); cbn; congruence. }
  destruct (is_char (deref p) "%" && negb (is_char (deref1 p) "%")).
  - pose proof (incr_defined p). destruct (incr p) as [q | |]; cbn; try congruence.
    pose proof (Hp q). destruct (skip_flags_width_precision q) as [q' | |];
      cbn; try congruence.
    destruct (switch_class q') as [t q'']. cbn.
    pose proof (incr_defined q''). destruct (incr q''); cbn; congruence.
  - destruct (is_char (deref p) "%" && is_char (deref1 p) "%").
    + pose proof (incr_defined p). destruct (incr p) as [q | |]; cbn; try congruence.
      pose proof (incr_defined q). destruct (incr q); cbn; congruence.
    + cbn. pose proof (incr_defined p). destruct (incr p); cbn; congruence.
Qed.

(** Induction on the length of the rest of the string. *)
Lemma string_length_ind (P : string -> Prop) :
  (forall p, (forall q, (String.length q < String.length p)%nat -> P q) -> P p) ->
  forall p, P p.
Proof.
  intros H p.
  remember (String.length p) as n eqn:Hn. revert p Hn.
  induction n as [n IH] using lt_wf_ind. intros p Hn.
  apply H. intros q Hq. apply (IH (String.length q)); [lia | reflexivity].
Qed.

(** The size computation is the scan with the sizes added up. *)
Lemma calculate_loop_scan (a : abi) (p : string) :
  forall size,
    calculate_loop a p size
    = (ts <- capture_types p ;;
       Done (fold_left (fun acc t => size_add a acc (sizeof a t)) ts size)).
Proof.
  induction p as [p IH] using string_length_ind. intros size.
  rewrite calculate_loop_equation, capture_types_equation.
  destruct (is_char (deref p) NUL); [reflexivity |].
  rewrite calculate_body_scan.
  pose proof (scan_body_defined p) as Hd.
  destruct (scan_body p) as [[t p'] | |] eqn:Hs; cbn; try congruence.
  rewrite (IH p' (scan_body_shorter _ _ _ Hs)).
  destruct (capture_types p') as [ts | |]; cbn; try reflexivity.
  destruct t; reflexivity.
Qed.

Lemma total_size_nonneg (a : abi) (ts : list ctype) :
  abi_wf a -> 0 <= total_size a ts.
Proof.
  intros Hwf. induction ts as [| t ts IH]; simpl; [lia |].
  pose proof (sizeof_pos a t Hwf). lia.
Qed.

Lemma fold_sizes_exact (a : abi) (ts : list ctype) :
  abi_wf a ->
  forall size,
    0 <= size -> size + total_size a ts <= SIZE_MAX a ->
    fold_left (fun acc t => size_add a acc (sizeof a t)) ts size
    = size + total_size a ts.
Proof.
  intros Hwf. induction ts as [| t ts IH]; intros size H0 Hmax; simpl in *.
  - lia.
  - pose proof (sizeof_pos a t Hwf). pose proof (total_size_nonneg a ts Hwf).
    unfold size_add at 2. rewrite size_wrap_small by lia.
    rewrite IH by lia. lia.
Qed.

Lemma capture_types_defined (p : string) : capture_types p <> OutOfFuel.
Proof.
  induction p as [p IH] using string_length_ind.
  rewrite capture_types_equation.
  destruct (is_char (deref p) NUL); [discriminate |].
  pose proof (scan_body_defined p) as Hd.
  destruct (scan_body p) as [[t p'] | |] eqn:Hs; try congruence.
  pose proof (IH p' (scan_body_shorter _ _ _ Hs)).
  destruct (capture_types p'); congruence.
Qed.

(** The size computation returns exactly when the scan stays inside the
    string, and then returns the total of the sizes. *)
Lemma calculate_buffer_size_total (a : abi) (fmt : string) (ts : list ctype) :
  abi_wf a ->
  capture_types fmt = Done ts ->
  total_size a ts <= SIZE_MAX a ->
  log_format_calculate_buffer_size a (Some fmt) = Done (total_size a ts).
Proof.
  intros Hwf Hts Hmax. unfold log_format_calculate_buffer_size.
  rewrite calculate_loop_scan, Hts. cbn.
  rewrite fold_sizes_exact; auto; lia.
Qed.

Lemma calculate_buffer_size_overrun (a : abi) (fmt : string) :
  capture_types fmt = Undefined ->
  log_format_calculate_buffer_size a (Some fmt) = Undefined.
Proof.
  intros Hts. unfold log_format_calculate_buffer_size.
  now rewrite calculate_loop_scan, Hts.
Qed.

Lemma capture_some (a : abi) (ty : ctype) (b : list Z) (w : Z) (x : va_item)
  (g : va_list) :
  abi_wf a ->
  va_type x = ty -> 0 <= w ->
  w + sizeof a ty <= Z.of_nat (List.length b) ->
  w + sizeof a ty <= SIZE_MAX a ->
  exists b',
    capture a ty b w (x :: g) = Done (b', w + sizeof a ty, g) /\
    List.length b' = List.length b /\
    store b w (encode_le (Z.to_nat (sizeof a ty)) (va_bits x)) = Done b'.
Proof.
  intros Hwf Hty Hw Hlen Hmax. unfold capture, va_arg. rewrite Hty.
  replace (ctype_eqb ty ty) with true by (destruct ty; reflexivity).
  cbn [bind].
  pose proof (sizeof_pos a ty Hwf) as Hs.
  rewrite store_done by (try lia; rewrite length_encode_le, Z2Nat.id; lia).
  cbn [bind]. eexists. split; [| split].
  - unfold size_add. rewrite size_wrap_small by lia. reflexivity.
  - rewrite !length_app, length_firstn, length_skipn, length_encode_le. lia.
  - reflexivity.
Qed.

Lemma copy_loop_agrees (a : abi) (cap : Z) :
  abi_wf a -> cap <= SIZE_MAX a ->
  forall p b w g ts,
    capture_types p = Done ts ->
    map va_type g = ts ->
    0 <= w -> w + total_size a ts = cap ->
    cap <= Z.of_nat (List.length b) ->
    exists b',
      copy_loop a cap p b w g = Done (cap, b') /\
      List.length b' = List.length b /\
      skipn (Z.to_nat cap) b' = skipn (Z.to_nat cap) b.
Proof.
  intros Hwf Hcap.
  induction p as [p IH] using string_length_ind.
  intros b w g ts Hts Hg Hw Hsum Hlen.
  rewrite copy_loop_equation. rewrite capture_types_equation in Hts.
  destruct (is_char (deref p) NUL).
  { inversion Hts as [Hnil]. rewrite <- Hnil in Hsum. simpl in Hsum. exists b.
    replace w with cap by lia. auto. }
  pose proof (total_size_nonneg a ts Hwf) as Hnn.
  destruct (w <? cap) eqn:Hlt; cbn [negb].
  2:{ apply Z.ltb_ge in Hlt. exists b. replace w with cap by lia. auto. }
  apply Z.ltb_lt in Hlt.
  rewrite copy_body_scan.
  destruct (scan_body p) as [[t p'] | |] eqn:Hs; try discriminate.
  pose proof (scan_body_shorter _ _ _ Hs) as Hshort.
  destruct (capture_types p') as [ts' | |] eqn:Hts'; try discriminate.
  inversion Hts as [Hcons]; clear Hts. rewrite <- Hcons in *. cbn [bind].
  destruct t as [ty |]; cbn [cons_some capture_opt] in *.
  - destruct g as [| x g]; [discriminate |].
    simpl in Hg. injection Hg as Hx Hg'. simpl in Hsum, Hnn.
    pose proof (total_size_nonneg a ts' Hwf) as Hnn'.
    destruct (capture_some a ty b w x g Hwf Hx Hw) as (b1 & Hc & Hl1 & Hst);
      try lia.
    rewrite Hc. cbn [bind].
    pose proof (sizeof_pos a ty Hwf) as Hsz.
    destruct (IH p' Hshort b1 (w + sizeof a ty) g ts')
      as (b' & Hrun & Hl' & Hsk); auto; try lia.
    exists b'. split; [exact Hrun |]. split; [congruence |].
    rewrite Hsk. apply (store_skipn _ _ _ _ _ Hst).
    rewrite length_encode_le. lia.
  - cbn [bind]. apply (IH p' Hshort b w g ts'); auto.
Qed.

(** *** When the copy returns 0 *)

Lemma capture_opt_grows (a : abi) (t : option ctype) (b b' : list Z)
  (w w' : Z) (g g' : va_list) :
  abi_wf a -> 0 <= w ->
  Z.of_nat (List.length b) <= SIZE_MAX a ->
  capture_opt a t b w g = Done (b', w', g') ->
  List.length b' = List.length b /\
  match t with
  | None => w' = w
  | Some ty => w' = w + sizeof a ty
  end.
Proof.
  intros Hwf Hw Hlen. destruct t as [ty |]; cbn [capture_opt].
  2:{ intros H; inversion H; subst. auto. }
  unfold capture. destruct (va_arg g ty) as [[v g1] | |]; cbn [bind];
    try discriminate.
  destruct (store b w _) as [b1 | |] eqn:Hst; cbn [bind]; try discriminate.
  intros H; inversion H; subst; clear H.
  pose proof (store_length _ _ _ _ Hst) as Hl.
  apply store_inv in Hst. destruct Hst as (_ & Hin & _).
  rewrite length_encode_le in Hin.
  pose proof (sizeof_pos a ty Hwf) as Hsz.
  rewrite Z2Nat.id in Hin by lia.
  split; [exact Hl |].
  unfold size_add. apply size_wrap_small. lia.
Qed.

Lemma copy_loop_monotone (a : abi) (cap : Z) :
  abi_wf a ->
  forall p b w g w' b',
    0 <= w ->
    Z.of_nat (List.length b) <= SIZE_MAX a ->
    copy_loop a cap p b w g = Done (w', b') ->
    w <= w'.
Proof.
  intros Hwf.
  induction p as [p IH] using string_length_ind.
  intros b w g w' b' Hw Hlen. rewrite copy_loop_equation.
  destruct (is_char (deref p) NUL);
    [intros H; inversion H; subst; lia |].
  destruct (negb (w <? cap));
    [intros H; inversion H; subst; lia |].
  rewrite copy_body_scan.
  destruct (scan_body p) as [[t p'] | |] eqn:Hs; cbn [bind]; try discriminate.
  destruct (capture_opt a t b w g) as [[[b1 w1] g1] | |] eqn:Hc; cbn [bind];
    try discriminate.
  destruct (capture_opt_grows a t b b1 w w1 g g1 Hwf Hw Hlen Hc) as [Hl Hw1].
  intros Hrun.
  assert (Hle : w <= w1).
  { destruct t as [ty |]; [| lia].
    pose proof (sizeof_pos a ty Hwf). lia. }
  apply (IH p' (scan_body_shorter _ _ _ Hs)) in Hrun; [lia | lia |].
  now rewrite Hl.
Qed.

Lemma copy_loop_nothing_to_capture (a : abi) (cap : Z) :
  forall p b w g,
    capture_types p = Done [] ->
    copy_loop a cap p b w g = Done (w, b).
Proof.
  induction p as [p IH] using string_length_ind.
  intros b w g Hts. rewrite copy_loop_equation.
  rewrite capture_types_equation in Hts.
  destruct (is_char (deref p) NUL); [reflexivity |].
  destruct (negb (w <? cap)); [reflexivity |].
  rewrite copy_body_scan.
  destruct (scan_body p) as [[t p'] | |] eqn:Hs; try discriminate.
  destruct (capture_types p') as [ts | |] eqn:Hts'; try discriminate.
  destruct t as [ty |]; [discriminate |]. cbn in Hts. inversion Hts; subst ts.
  cbn. apply (IH p' (scan_body_shorter _ _ _ Hs)). exact Hts'.
Qed.

Lemma copy_loop_zero (a : abi) (cap : Z) :
  abi_wf a -> 0 < cap ->
  forall p b g b',
    Z.of_nat (List.length b) <= SIZE_MAX a ->
    copy_loop a cap p b 0 g = Done (0, b') ->
    capture_types p = Done [].
Proof.
  intros Hwf Hcap.
  induction p as [p IH] using string_length_ind.
  intros b g b' Hlen. rewrite copy_loop_equation, capture_types_equation.
  destruct (is_char (deref p) NUL); [reflexivity |].
  replace (0 <? cap) with true by (symmetry; apply Z.ltb_lt; exact Hcap).
  cbn [negb]. rewrite copy_body_scan.
  destruct (scan_body p) as [[t p'] | |] eqn:Hs; cbn [bind]; try discriminate.
  destruct (capture_opt a t b 0 g) as [[[b1 w1] g1] | |] eqn:Hc; cbn [bind];
    try discriminate.
  destruct (capture_opt_grows a t b b1 0 w1 g g1 Hwf (Z.le_refl 0) Hlen Hc)
    as [Hl Hw1].
  intros Hrun.
  destruct t as [ty |].
  - pose proof (sizeof_pos a ty Hwf) as Hsz.
    apply copy_loop_monotone in Hrun; [lia | exact Hwf | lia |].
    now rewrite Hl.
  - subst w1. cbn [capture_opt] in Hc. inversion Hc; subst b1 g1.
    rewrite (IH p' (scan_body_shorter _ _ _ Hs) b g b' Hlen Hrun).
    reflexivity.
Qed.

(** With the size the size computation returned, and that size positive, the
    copy never reports 0 bytes: the [-EIO] path of [log_core.c] is not taken
    by the program as built. *)
Lemma copy_of_computed_size_not_zero (a : abi) (fmt : string) (n : Z)
  (b : list Z) (args : va_list) (w : Z) (buffer' : option (list Z)) :
  abi_wf a ->
  Z.of_nat (List.length b) <= SIZE_MAX a ->
  log_format_calculate_buffer_size a (Some fmt) = Done n ->
  0 < n ->
  log_format_copy_args_to_buffer a (Some b) n (Some fmt) args = Done (w, buffer') ->
  w <> 0.
Proof.
  intros Hwf Hlen Hcalc Hn Hcopy Hw. subst w.
  unfold log_format_copy_args_to_buffer in Hcopy.
  replace (n =? 0) with false in Hcopy by (symmetry; apply Z.eqb_neq; lia).
  destruct (copy_loop a n fmt b 0 args) as [[w1 b1] | |] eqn:Hrun;
    cbn [bind] in Hcopy; try discriminate.
  inversion Hcopy; subst w1 buffer'; clear Hcopy.
  apply (copy_loop_zero a n Hwf Hn) in Hrun; [| exact Hlen].
  unfold log_format_calculate_buffer_size in Hcalc.
  rewrite calculate_loop_scan, Hrun in Hcalc. cbn in Hcalc.
  inversion Hcalc. lia.
Qed.

(** C5, as amended. [log_format_copy_args_to_buffer] returns 0 exactly when
    the buffer or the format string is null, the capacity is 0, or the format
    string names no argument to capture; with a non-null buffer, a non-zero
    capacity and a format that names an argument it returns a non-zero
    count. *)
Theorem copy_returns_zero_iff (a : abi) (buffer : option (list Z)) (cap : Z)
  (fmt : option string) (args : va_list) (w : Z) (buffer' : option (list Z)) :
  abi_wf a ->
  0 <= cap ->
  (forall b, buffer = Some b -> Z.of_nat (List.length b) <= SIZE_MAX a) ->
  log_format_copy_args_to_buffer a buffer cap fmt args = Done (w, buffer') ->
  (w = 0 <->
   buffer = None \/ fmt = None \/ cap = 0 \/
   exists p, fmt = Some p /\ capture_types p = Done []).
Proof.
  intros Hwf Hcap Hobj. unfold log_format_copy_args_to_buffer.
  destruct buffer as [b |]; [| intros H; inversion H; tauto].
  destruct fmt as [p |]; [| intros H; inversion H; tauto].
  destruct (cap =? 0) eqn:Hz.
  { apply Z.eqb_eq in Hz. intros H; inversion H; tauto. }
  apply Z.eqb_neq in Hz.
  destruct (copy_loop a cap p b 0 args) as [[w1 b1] | |] eqn:Hrun; cbn [bind];
    try discriminate.
  intros H; inversion H; subst w1 buffer'; clear H.
  specialize (Hobj b eq_refl).
  split.
  - intros ->. right. right. right. exists p. split; [reflexivity |].
    apply (copy_loop_zero a cap Hwf) with (b := b) (g := args) (b' := b1);
      [lia | exact Hobj | exact Hrun].
  - intros [H | [H | [H | (q & Hq & Hts)]]]; try discriminate; try lia.
    inversion Hq; subst q.
    rewrite (copy_loop_nothing_to_capture a cap p b 0 args Hts) in Hrun.
    now inversion Hrun.
Qed.

Lemma copy_returns_zero_iff_witness :
  4 = 0 <->
  Some [0; 0; 0; 0] = None \/ Some "n=%d"%string = None \/ 4 = 0 \/
  exists p, Some "n=%d"%string = Some p /\ capture_types p = Done [].
Proof.
  apply (copy_returns_zero_iff ilp32 (Some [0; 0; 0; 0]) 4 (Some "n=%d"%string)
           [{| va_type := CInt; va_bits := 7 |}] 4 (Some [7; 0; 0; 0])).
  - exact ilp32_wf.
  - lia.
  - intros b Hb. inversion Hb; subst. vm_compute. congruence.
  - vm_compute. reflexivity.
Defined.

(** C5 as stated fails: with a non-null buffer, a non-null format string and
    capacity 4 the copy of the format ["hello"] returns 0. *)
Lemma copy_returns_zero_counterexample :
  ~ (forall (a : abi) (buffer : option (list Z)) (cap : Z) (fmt : option string)
            (args : va_list) (w : Z) (buffer' : option (list Z)),
        log_format_copy_args_to_buffer a buffer cap fmt args = Done (w, buffer') ->
        (w = 0 <-> buffer = None \/ fmt = None \/ cap = 0)).
Proof.
  intros H.
  assert (Hrun : log_format_copy_args_to_buffer ilp32 (Some [0; 0; 0; 0]) 4
                   (Some "hello"%string) []
                 = Done (0, Some [0; 0; 0; 0]))
    by (vm_compute; reflexivity).
  apply H in Hrun. destruct Hrun as [Hzero _].
  destruct (Hzero eq_refl) as [Hb | [Hf | Hc]]; discriminate.
Qed.

(** C4 at the failing input: with capacity 1 the copy stores all four bytes
    of the [int], so the bytes at offsets 1, 2 and 3 are overwritten, and it
    returns 4. *)
Lemma copy_writes_past_capacity :
  log_format_copy_args_to_buffer ilp32 (Some [9; 9; 9; 9; 9; 9; 9; 9]) 1
    (Some "%d"%string) [{| va_type := CInt; va_bits := 42 |}]
  = Done (4, Some [42; 0; 0; 0; 9; 9; 9; 9]).
Proof. vm_compute. reflexivity. Qed.

(** The same when the capacity is the end of the object: the store is out
    of bounds. *)
Lemma copy_writes_past_object :
  log_format_copy_args_to_buffer ilp32 (Some [9; 9; 9; 9; 9; 9]) 6
    (Some "%d%d"%string)
    [{| va_type := CInt; va_bits := 1 |}; {| va_type := CInt; va_bits := 2 |}]
  = Undefined.
Proof. vm_compute. reflexivity. Qed.

(** C2 at the failing input: ["%lf"] passes a [double], 8 bytes on the 32-bit
    target, and the size computation counts [sizeof(long)], 4 bytes. *)
Lemma calculate_size_of_lf :
  log_format_calculate_buffer_size ilp32 (Some "%lf"%string) = Done 4
  /\ spec_size_of ilp32 "%lf"%string = 8.
Proof. split; vm_compute; reflexivity. Qed.

(** ** The size computation against the table of the specification *)

Lemma total_size_cons_some (a : abi) (t : option ctype) (ts : list ctype) :
  total_size a (cons_some t ts) = cost a t + total_size a ts.
Proof. destruct t; reflexivity. Qed.

Lemma incr_inv (p p' : string) :
  incr p = Done p' -> exists c, p = String c p' /\ is_char c NUL = false.
Proof.
  destruct p as [| c t]; simpl; [discriminate |].
  unfold is_char. destruct (c =? NUL)%char eqn:E; [discriminate |].
  intros H; inversion H; subst. exists c. auto.
Qed.

Lemma incr_done (c : ascii) (t : string) :
  is_char c NUL = false -> incr (String c t) = Done t.
Proof. unfold is_char. simpl. now intros ->. Qed.

Lemma skip_flags_width_precision_done (t : string) :
  skip_flags_width_precision t
  = Done (let q := skip_while is_digit (skip_while is_flag t) in
          if is_char (deref q) "." then skip_while is_digit (drop1 q) else q).
Proof.
  unfold skip_flags_width_precision. cbv zeta.
  destruct (skip_while is_digit (skip_while is_flag t)) as [| c q] eqn:E;
    [reflexivity |].
  cbn [deref]. on_char c "."%char; reflexivity.
Qed.

(** The switch and the table on one conversion specification. *)
Lemma switch_class_table (a : abi) (q : string) :
  snd (switch_class q) = snd (read_length_modifier q) /\
  (table_covers (fst (read_length_modifier q),
                 deref (snd (read_length_modifier q))) = true ->
   cost a (fst (switch_class q))
   = spec_cost a (fst (read_length_modifier q))
       (deref (snd (read_length_modifier q)))).
Proof.
  unfold switch_class, read_length_modifier.
  destruct (is_char (deref q) "h") eqn:Eh.
  { destruct (is_char (deref1 q) "h"); (split; [reflexivity |]);
      unfold table_covers; cbn; intros ->; reflexivity. }
  destruct (is_char (deref q) "l") eqn:El.
  { destruct (is_char (deref1 q) "l"); (split; [reflexivity |]);
      unfold table_covers; cbn; try (intros ->); reflexivity. }
  destruct (is_char (deref q) "z"); [split; reflexivity |].
  destruct (is_char (deref q) "t"); [split; reflexivity |].
  destruct (is_char (deref q) "j"); [split; reflexivity |].
  cbn [fst snd spec_cost].
  unfold is_int_conv, is_integer_conv, spec_cost_by_conversion.
  destruct (is_char (deref q) "d" || is_char (deref q) "i"
            || is_char (deref q) "o" || is_char (deref q) "u"
            || is_char (deref q) "x" || is_char (deref q) "X"
            || is_char (deref q) "c"); [split; reflexivity |].
  destruct (is_float_conv (deref q)); [split; reflexivity |].
  destruct (is_char (deref q) "s"); [split; reflexivity |].
  destruct (is_char (deref q) "p"); [split; reflexivity |].
  destruct (is_char (deref q) "n"); split; reflexivity.
Qed.

Lemma capture_types_table (a : abi) :
  forall p ts,
    capture_types p = Done ts ->
    forallb table_covers (conversion_specs p) = true ->
    total_size a ts = spec_size_of a p.
Proof.
  induction p as [p IH] using string_length_ind. intros ts Hts Hcov.
  rewrite capture_types_equation in Hts.
  unfold spec_size_of in *. rewrite conversion_specs_equation in *.
  destruct p as [| c t]; [inversion Hts; reflexivity |].
  cbn [deref] in Hts.
  destruct (is_char c NUL) eqn:Hnul; [inversion Hts; reflexivity |].
  destruct (scan_body (String c t)) as [[ty p'] | |] eqn:Hs; try discriminate.
  pose proof (scan_body_shorter _ _ _ Hs) as Hshort.
  destruct (capture_types p') as [ts' | |] eqn:Hts'; try discriminate.
  inversion Hts; subst ts; clear Hts.
  rewrite total_size_cons_some.
  specialize (IH p' Hshort ts' Hts').
  unfold scan_body in Hs. cbn [deref deref1] in Hs.
  rewrite (incr_done c t Hnul) in Hs.
  destruct (is_char c "%") eqn:Hpct; cbn [andb] in Hs.
  - destruct (is_char (deref t) "%") eqn:Hpp; cbn [negb bind] in Hs.
    + (* the literal %% *)
      destruct (incr t) as [t' | |] eqn:Ht; cbn [bind] in Hs; try discriminate.
      inversion Hs; subst ty p'; clear Hs.
      apply incr_inv in Ht. destruct Ht as (c' & -> & _).
      cbn [drop1 cost] in *. rewrite (IH Hcov). lia.
    + (* a conversion specification *)
      rewrite skip_flags_width_precision_done in Hs. cbn [bind] in Hs.
      unfold read_spec in *. cbv zeta in *.
      set (q := if is_char (deref (skip_while is_digit (skip_while is_flag t))) "."
                then skip_while is_digit
                       (drop1 (skip_while is_digit (skip_while is_flag t)))
                else skip_while is_digit (skip_while is_flag t)) in *.
      destruct (switch_class_table a q) as [Hsnd Hcost].
      destruct (switch_class q) as [ty' q2] eqn:Hsw. cbn [fst snd bind] in *.
      destruct (incr q2) as [q3 | |] eqn:Hq2; cbn [bind] in Hs; try discriminate.
      inversion Hs; subst ty' q3; clear Hs.
      apply incr_inv in Hq2. destruct Hq2 as (conv & -> & Hconv).
      rewrite <- Hsnd in *. cbn [deref] in Hcost. rewrite Hconv in *.
      cbn [forallb fold_right fst snd] in *.
      apply andb_true_iff in Hcov. destruct Hcov as [Hc1 Hc2].
      rewrite (Hcost Hc1), (IH Hc2). reflexivity.
  - (* an ordinary character *)
    cbn [bind] in Hs. rewrite (incr_done c t Hnul) in Hs. cbn [bind] in Hs.
    inversion Hs; subst ty p'; clear Hs.
    cbn [cost]. rewrite (IH Hcov). lia.
Qed.

(** For a format string in which [hh], [h] and [l] stand with integer
    conversions and no conversion specification is cut off by the end of the
    string, [log_format_calculate_buffer_size] returns the sum of the costs
    of the specification's table. *)
Lemma calculate_matches_table (a : abi) (fmt : string) (ts : list ctype) :
  abi_wf a ->
  capture_types fmt = Done ts ->
  forallb table_covers (conversion_specs fmt) = true ->
  spec_size_of a fmt <= SIZE_MAX a ->
  log_format_calculate_buffer_size a (Some fmt) = Done (spec_size_of a fmt).
Proof.
  intros Hwf Hts Hcov Hmax.
  rewrite <- (capture_types_table a fmt ts Hts Hcov) in *.
  now apply calculate_buffer_size_total.
Qed.

(** ** log_core.c *)

Lemma system_eta (s : system) :
  {| sys_pool := sys_pool s; sys_queue := sys_queue s |} = s.
Proof. destruct s. reflexivity. Qed.

(** C3. [log_queue_deferred_message] follows the submit algorithm, whatever
    the callees do: a null format string gives [-EINVAL] and leaves pool and
    queue alone; a failed allocation gives [-ENOSPC]; with a positive size
    [n], a capture that reports 0 bytes makes it free the message and give
    [-EIO]; in every other case it hands the message to [log_queue_send] and
    returns that call's status. *)
Theorem submit_algorithm (c : callees) (a : abi)
  (module_name function_name level : Z) (fmt_str : option c_string)
  (args : va_list) (s : system) :
  let r := log_queue_deferred_message c a module_name function_name level
             fmt_str args s in
  (fmt_str = None -> r = Done (- EINVAL, s)) /\
  (forall f n,
      fmt_str = Some f ->
      format_calculate_buffer_size c (Some (str_chars f)) = Done n ->
      (forall p,
          pool_alloc c n (sys_pool s) = Done (None, p) ->
          r = Done (- ENOSPC, {| sys_pool := p; sys_queue := sys_queue s |})) /\
      (forall m p b,
          pool_alloc c n (sys_pool s) = Done (Some m, p) ->
          fill_header a m module_name function_name level (str_addr f)
            (prv_log_buffer_pool p) = Done b ->
          let sent (p' : pool) :=
            Done (fst (queue_send c (Some m) (sys_queue s)),
                  {| sys_pool := p';
                     sys_queue := snd (queue_send c (Some m) (sys_queue s)) |}) in
          (n <= 0 -> r = sent (set_buffer p b)) /\
          (forall w buf,
              0 < n ->
              format_copy_args_to_buffer c (Some (args_buffer a m b)) n
                (Some (str_chars f)) args = Done (w, buf) ->
              let p' := set_buffer p (with_args_buffer a m b buf) in
              (w = 0 ->
               r = (p'' <- pool_free c (Some m) p' ;;
                    Done (- EIO, {| sys_pool := p''; sys_queue := sys_queue s |})))
              /\
              (w <> 0 -> r = sent p')))).
Proof.
  cbv zeta. split.
  - intros ->. reflexivity.
  - intros f n -> Hn. unfold log_queue_deferred_message. rewrite Hn. cbn [bind].
    split.
    + intros p Ha. rewrite Ha. reflexivity.
    + intros m p b Ha Hb. rewrite Ha. cbn [bind]. rewrite Hb. cbn [bind].
      split.
      * intros Hle. replace (0 <? n) with false by (symmetry; apply Z.ltb_ge; lia).
        destruct (queue_send c (Some m) (sys_queue s)). reflexivity.
      * intros w buf Hpos Hcopy.
        replace (0 <? n) with true by (symmetry; apply Z.ltb_lt; lia).
        rewrite Hcopy. cbn [bind]. split.
        -- intros ->. reflexivity.
        -- intros Hw. apply Z.eqb_neq in Hw. rewrite Hw.
           destruct (queue_send c (Some m) (sys_queue s)). reflexivity.
Qed.

(** C6, as amended. Before the pool is initialised a submission with a
    non-null format string returns [-ENOSPC], the status of an exhausted
    pool, and a submission with a null format string returns [-EINVAL];
    neither changes the pool or the queue. *)
Theorem submit_before_init (a : abi) (isr : bool)
  (module_name function_name level : Z) (fmt_str : option c_string)
  (args : va_list) (s : system) :
  prv_log_pool_mutex (sys_pool s) = None ->
  let r := log_queue_deferred_message (linked a isr) a module_name function_name
             level fmt_str args s in
  (fmt_str = None -> r = Done (- EINVAL, s)) /\
  (forall f n,
      fmt_str = Some f ->
      log_format_calculate_buffer_size a (Some (str_chars f)) = Done n ->
      r = Done (- ENOSPC, s)) /\
  status_of (- ENOSPC) = Some NO_SPACE /\
  status_of (- EINVAL) = Some INVALID_ARGUMENT.
Proof.
  intros Hm. cbv zeta. split; [| split; [| split; reflexivity]].
  - intros ->. reflexivity.
  - intros f n -> Hn. unfold log_queue_deferred_message. cbn [linked
      format_calculate_buffer_size pool_alloc]. rewrite Hn. cbn [bind].
    unfold log_pool_alloc. rewrite Hm. cbn [bind]. now rewrite system_eta.
Qed.

Lemma submit_before_init_witness :
  let r := log_queue_deferred_message (linked ilp32 false) ilp32 4096 4104 3
             (Some {| str_addr := 4112; str_chars := "x=%d y=%s"%string |})
             [{| va_type := CInt; va_bits := 42 |};
              {| va_type := CCharPtr; va_bits := 4128 |}]
             system_at_start in
  r = Done (- ENOSPC, system_at_start).
Proof.
  intros r.
  destruct (submit_before_init ilp32 false 4096 4104 3
              (Some {| str_addr := 4112; str_chars := "x=%d y=%s"%string |})
              [{| va_type := CInt; va_bits := 42 |};
               {| va_type := CCharPtr; va_bits := 4128 |}]
              system_at_start eq_refl) as (_ & H & _).
  apply (H _ 8 eq_refl). vm_compute. reflexivity.
Defined.

(** C6 as stated fails: before [log_init] the submission of ["hello"]
    returns [-ENOSPC], not a status that reports the missing
    initialisation. *)
Lemma submit_before_init_counterexample :
  ~ (forall (a : abi) (isr : bool) (module_name function_name level : Z)
            (fmt_str : option c_string) (args : va_list) (ret : Z) (s' : system),
        log_queue_deferred_message (linked a isr) a module_name function_name
          level fmt_str args system_at_start = Done (ret, s') ->
        status_of ret = Some NOT_INITIALIZED).
Proof.
  intros H.
  assert (Hrun : log_queue_deferred_message (linked ilp32 false) ilp32 0 0 3
                   (Some {| str_addr := 4112; str_chars := "hello"%string |}) []
                   system_at_start
                 = Done (- ENOSPC, system_at_start))
    by (vm_compute; reflexivity).
  apply H in Hrun. discriminate.
Qed.

Lemma submit_algorithm_witness :
  (exists s',
      log_queue_deferred_message (linked ilp32 false) ilp32 4096 4104 3
        (Some {| str_addr := 4112; str_chars := "x=%d y=%s"%string |})
        [{| va_type := CInt; va_bits := 42 |};
         {| va_type := CCharPtr; va_bits := 4128 |}]
        system_ready
      = Done (0, s')
      /\ sys_queue s' = Some [0])
  /\
  (exists s',
      log_queue_deferred_message capture_reports_nothing ilp32 4096 4104 3
        (Some {| str_addr := 4112; str_chars := "x=%d y=%s"%string |})
        [{| va_type := CInt; va_bits := 42 |};
         {| va_type := CCharPtr; va_bits := 4128 |}]
        system_ready
      = Done (- EIO, s')
      /\ prv_log_buffer_used (sys_pool s') = 0
      /\ sys_queue s' = Some []).
Proof.
  split.
  - destruct (submit_algorithm (linked ilp32 false) ilp32 4096 4104 3
                (Some {| str_addr := 4112; str_chars := "x=%d y=%s"%string |})
                [{| va_type := CInt; va_bits := 42 |};
                 {| va_type := CCharPtr; va_bits := 4128 |}]
                system_ready) as [_ H].
    destruct (H _ 8 eq_refl ltac:(vm_compute; reflexivity)) as [_ H2].
    edestruct H2 as [_ H3].
    + vm_compute. reflexivity.
    + vm_compute. reflexivity.
    + edestruct H3 as [_ H4].
      * lia.
      * vm_compute. reflexivity.
      * eexists. split.
        -- rewrite H4 by discriminate. vm_compute. reflexivity.
        -- reflexivity.
  - destruct (submit_algorithm capture_reports_nothing ilp32 4096 4104 3
                (Some {| str_addr := 4112; str_chars := "x=%d y=%s"%string |})
                [{| va_type := CInt; va_bits := 42 |};
                 {| va_type := CCharPtr; va_bits := 4128 |}]
                system_ready) as [_ H].
    destruct (H _ 8 eq_refl ltac:(vm_compute; reflexivity)) as [_ H2].
    edestruct H2 as [_ H3].
    + vm_compute. reflexivity.
    + vm_compute. reflexivity.
    + edestruct H3 as [H4 _].
      * lia.
      * reflexivity.
      * eexists. split.
        -- rewrite H4 by reflexivity. vm_compute. reflexivity.
        -- split; reflexivity.
Defined.

(** ** log_backend.c and the fan-out *)

Lemma set_next_same (mem : Z -> log_backend_t) (n : Z) (v : option Z) :
  next (set_next mem n v n) = v.
Proof. unfold set_next. now rewrite Z.eqb_refl. Qed.

Lemma set_next_other (mem : Z -> log_backend_t) (n x : Z) (v : option Z) :
  x <> n -> set_next mem n v x = mem x.
Proof. intros H. unfold set_next. apply Z.eqb_neq in H. now rewrite H. Qed.

Lemma set_next_process_msg (mem : Z -> log_backend_t) (n x : Z) (v : option Z) :
  process_msg (set_next mem n v x) = process_msg (mem x).
Proof. unfold set_next. destruct (x =? n); reflexivity. Qed.

Lemma emits_frame (mem mem' : Z -> log_backend_t) (msg : Z) (l : list Z) :
  (forall x, process_msg (mem' x) = process_msg (mem x)) ->
  emits mem' msg l = emits mem msg l.
Proof.
  intros H. unfold emits. induction l as [| b l IH]; simpl; [reflexivity |].
  now rewrite H, IH.
Qed.

Lemma last_cons (l : list Z) (x d : Z) : last (x :: l) d = last l x.
Proof.
  revert x d. induction l as [| y l IH]; intros x d; [reflexivity |].
  change (last (x :: y :: l) d) with (last (y :: l) d).
  now rewrite (IH y d), (IH y x).
Qed.

Lemma last_in (l : list Z) (x : Z) : In (last l x) (x :: l).
Proof.
  revert x. induction l as [| y l IH]; intros x; [now left |].
  rewrite last_cons. right. apply IH.
Qed.

(** Appending [b] behind the last node of a list it is not on. *)
Lemma chain_append (mem : Z -> log_backend_t) (b : Z) :
  forall l n,
    chain mem (Some n) (n :: l) ->
    NoDup (n :: l) -> ~ In b (n :: l) ->
    chain (set_next (set_next mem (last l n) (Some b)) b None)
          (Some n) (n :: l ++ [b]).
Proof.
  induction l as [| n' l IH]; intros n Hc Hnd Hb.
  - simpl. constructor.
    rewrite set_next_other by (intros ->; apply Hb; now left).
    rewrite set_next_same.
    constructor. rewrite set_next_same. constructor.
  - inversion Hc as [| ? ? Hc']; subst.
    inversion Hc' as [| ? ? Hc'' Hnext]; subst.
    inversion Hnd as [| ? ? Hnotin Hnd']; subst.
    pose proof (last_in l n') as Hlast.
    rewrite last_cons.
    constructor.
    rewrite set_next_other by (intros ->; apply Hb; now left).
    rewrite set_next_other by (intros ->; contradiction).
    rewrite <- Hnext.
    apply IH.
    + rewrite Hnext. exact Hc'.
    + exact Hnd'.
    + intros Hin. apply Hb. now right.
Qed.

Lemma register_loop_chain (mem : Z -> log_backend_t) (b : Z) :
  forall l n fuel,
    chain mem (Some n) (n :: l) ->
    (List.length l < fuel)%nat ->
    register_loop fuel mem (Some n) b
    = Done (set_next (set_next mem (last l n) (Some b)) b None).
Proof.
  induction l as [| n' l IH]; intros n fuel Hc Hfuel.
  - destruct fuel as [| fuel]; [simpl in Hfuel; lia |].
    inversion Hc as [| ? ? Hc']; subst. inversion Hc'; subst.
    simpl. match goal with H : None = next (mem n) |- _ => rewrite <- H end.
    reflexivity.
  - destruct fuel as [| fuel]; [simpl in Hfuel; lia |].
    inversion Hc as [| ? ? Hc']; subst.
    inversion Hc' as [| ? ? Hc'' Hnext]; subst.
    cbn [register_loop]. rewrite <- Hnext.
    rewrite last_cons.
    apply IH.
    + rewrite Hnext. exact Hc'.
    + simpl in Hfuel. lia.
Qed.

Lemma register_backend_chain (fuel : nat) (b : Z) (r : registry) (l : list Z) :
  chain (backends r) (prv_inst_head r) l ->
  NoDup l -> ~ In b l -> (List.length l < fuel)%nat ->
  exists r',
    log_backend_register_backend fuel (Some b) r = Done (0, r') /\
    chain (backends r') (prv_inst_head r') (l ++ [b]) /\
    (forall x, process_msg (backends r' x) = process_msg (backends r x)).
Proof.
  intros Hc Hnd Hb Hfuel. unfold log_backend_register_backend.
  destruct l as [| n l].
  - inversion Hc as [Hhead |]. cbn [prv_inst_head backends].
    destruct fuel as [| fuel]; [lia |].
    cbn [register_loop]. rewrite set_next_same. cbn [bind].
    eexists. split; [reflexivity |]. cbn [prv_inst_head backends]. split.
    + constructor. rewrite set_next_same. constructor.
    + intros x. now rewrite !set_next_process_msg.
  - inversion Hc as [| ? ? Hc' Hhead]; subst. rewrite <- Hhead in *.
    rewrite (register_loop_chain (backends r) b l n fuel Hc)
      by (simpl in Hfuel; lia).
    cbn [bind]. eexists. split; [reflexivity |].
    cbn [prv_inst_head backends]. split.
    + apply (chain_append (backends r) b l n); auto.
    + intros x. now rewrite !set_next_process_msg.
Qed.

Lemma chain_functional (mem : Z -> log_backend_t) (node : option Z)
  (l1 l2 : list Z) :
  chain mem node l1 -> chain mem node l2 -> l1 = l2.
Proof.
  intros H1. revert l2. induction H1 as [| b l H1 IH]; intros l2 H2.
  - inversion H2. reflexivity.
  - inversion H2 as [| ? l' H2']; subst. f_equal. now apply IH.
Qed.

Lemma chain_suffix (mem : Z -> log_backend_t) (b : Z) (l2 : list Z) :
  forall l1 node,
    chain mem node (l1 ++ b :: l2) -> chain mem (Some b) (b :: l2).
Proof.
  induction l1 as [| x l1 IH]; intros node H.
  - simpl in H. inversion H; subst. exact H.
  - simpl in H. inversion H; subst. eapply IH. eassumption.
Qed.

(** A list that ends is free of repetitions: each back end on it is on it
    once. *)
Lemma chain_NoDup (mem : Z -> log_backend_t) (node : option Z) (l : list Z) :
  chain mem node l -> NoDup l.
Proof.
  intros H. induction H as [| b l H IH]; constructor; [| exact IH].
  intros Hin. apply in_split in Hin. destruct Hin as (l1 & l2 & Hl).
  assert (Hb : chain mem (Some b) (b :: l)) by now constructor.
  rewrite Hl in H. apply chain_suffix in H.
  pose proof (chain_functional _ _ _ _ Hb H) as Heq.
  inversion Heq as [Hlen]. rewrite Hl in Hlen.
  apply (f_equal (@List.length Z)) in Hlen.
  rewrite length_app in Hlen. simpl in Hlen. lia.
Qed.

(** Registering a back end that is on the list makes it the last element. *)
Lemma chain_cut (mem : Z -> log_backend_t) (b : Z) :
  forall l n,
    chain mem (Some n) (n :: l) ->
    NoDup (n :: l) -> In b (n :: l) ->
    chain (set_next (set_next mem (last l n) (Some b)) b None)
          (Some n) (upto b (n :: l)).
Proof.
  induction l as [| n' l IH]; intros n Hc Hnd Hb.
  - destruct Hb as [-> | []]. simpl. rewrite Z.eqb_refl.
    constructor. rewrite set_next_same. constructor.
  - cbn [upto]. destruct (n =? b) eqn:Hnb.
    + apply Z.eqb_eq in Hnb. subst n.
      constructor. rewrite set_next_same. constructor.
    + apply Z.eqb_neq in Hnb.
      destruct Hb as [Hb | Hb]; [congruence |].
      inversion Hc as [| ? ? Hc']; subst.
      inversion Hc' as [| ? ? Hc'' Hnext]; subst.
      inversion Hnd as [| ? ? Hnotin Hnd']; subst.
      pose proof (last_in l n') as Hlast.
      rewrite last_cons.
      constructor.
      rewrite set_next_other by congruence.
      rewrite set_next_other by (intros ->; contradiction).
      rewrite <- Hnext.
      apply IH; [rewrite Hnext; exact Hc' | exact Hnd' | exact Hb].
Qed.

Lemma existsb_eqb_in (b : Z) (l : list Z) :
  existsb (Z.eqb b) l = true <-> In b l.
Proof.
  rewrite existsb_exists. split.
  - intros (x & Hx & Heq). apply Z.eqb_eq in Heq. now subst.
  - intros H. exists b. split; [exact H | apply Z.eqb_refl].
Qed.

Lemma length_upto (b : Z) (l : list Z) :
  (List.length (upto b l) <= List.length l)%nat.
Proof.
  induction l as [| x l IH]; simpl; [lia |].
  destruct (x =? b); simpl; lia.
Qed.

Lemma length_listed_after (l : list Z) (backend : option Z) :
  (List.length (listed_after l backend) <= S (List.length l))%nat.
Proof.
  destruct backend as [b |]; simpl; [| lia].
  destruct (existsb (Z.eqb b) l).
  - pose proof (length_upto b l). lia.
  - rewrite length_app. simpl. lia.
Qed.

(** One call of [log_backend_register_backend], whatever its argument. *)
Lemma register_backend_listed (fuel : nat) (backend : option Z) (r : registry)
  (l : list Z) :
  chain (backends r) (prv_inst_head r) l ->
  (List.length l < fuel)%nat ->
  exists ret r',
    log_backend_register_backend fuel backend r = Done (ret, r') /\
    chain (backends r') (prv_inst_head r') (listed_after l backend) /\
    (forall x, process_msg (backends r' x) = process_msg (backends r x)).
Proof.
  intros Hc Hfuel. pose proof (chain_NoDup _ _ _ Hc) as Hnd.
  destruct backend as [b |]; cbn [listed_after].
  2:{ exists (- EINVAL), r. auto. }
  destruct (existsb (Z.eqb b) l) eqn:Hin.
  - apply existsb_eqb_in in Hin.
    destruct l as [| n l]; [destruct Hin |].
    unfold log_backend_register_backend.
    inversion Hc as [| ? ? Hc' Hhead]; subst. rewrite <- Hhead in *.
    rewrite (register_loop_chain (backends r) b l n fuel Hc)
      by (simpl in Hfuel; lia).
    cbn [bind]. eexists. eexists. split; [reflexivity |].
    cbn [prv_inst_head backends]. split.
    + apply (chain_cut (backends r) b l n); auto.
    + intros x. now rewrite !set_next_process_msg.
  - assert (Hnot : ~ In b l)
      by (intros H; apply existsb_eqb_in in H; congruence).
    destruct (register_backend_chain fuel b r l Hc Hnd Hnot Hfuel)
      as (r' & Hreg & Hc' & Hp).
    exists 0, r'. auto.
Qed.

(** Every sequence of registrations leaves a list that ends, and [listed]
    tells which. *)
Lemma register_all_listed (fuel : nat) :
  forall calls r l,
    chain (backends r) (prv_inst_head r) l ->
    (List.length l + List.length calls < fuel)%nat ->
    exists r',
      register_all fuel calls r = Done r' /\
      chain (backends r') (prv_inst_head r') (fold_left listed_after calls l) /\
      (forall x, process_msg (backends r' x) = process_msg (backends r x)).
Proof.
  induction calls as [| backend calls IH]; intros r l Hc Hfuel.
  - exists r. simpl. auto.
  - simpl in Hfuel.
    destruct (register_backend_listed fuel backend r l Hc)
      as (ret & r1 & Hreg & Hc1 & Hp1); [lia |].
    cbn [register_all fold_left]. rewrite Hreg. cbn [bind].
    pose proof (length_listed_after l backend) as Hlen.
    destruct (IH r1 (listed_after l backend) Hc1) as (r' & Hall & Hc' & Hp');
      [lia |].
    exists r'. split; [exact Hall |]. split; [exact Hc' |].
    intros x. now rewrite Hp', Hp1.
Qed.

Lemma listed_distinct (bs : list Z) :
  forall l, NoDup (l ++ bs) ->
            fold_left listed_after (map Some bs) l = l ++ bs.
Proof.
  induction bs as [| b bs IH]; intros l Hnd; simpl.
  - now rewrite app_nil_r.
  - assert (Hnot : existsb (Z.eqb b) l = false).
    { destruct (existsb (Z.eqb b) l) eqn:E; [| reflexivity].
      apply existsb_eqb_in in E. apply NoDup_remove_2 in Hnd.
      exfalso. apply Hnd. apply in_or_app. now left. }
    rewrite Hnot.
    replace (l ++ b :: bs) with ((l ++ [b]) ++ bs) in *
      by (rewrite <- app_assoc; reflexivity).
    now apply IH.
Qed.

Lemma process_loop_chain (mem : Z -> log_backend_t) (msg : Z) :
  forall node l,
    chain mem node l ->
    forall fuel, (List.length l < fuel)%nat ->
    process_loop fuel mem node msg = Done (emits mem msg l).
Proof.
  intros node l Hc. induction Hc as [| b l Hc IH]; intros fuel Hfuel.
  - destruct fuel; [lia |]. reflexivity.
  - destruct fuel as [| fuel]; [lia |].
    simpl in Hfuel. cbn [process_loop].
    rewrite (IH fuel) by lia.
    unfold emits. simpl. destruct (process_msg (mem b)); reflexivity.
Qed.

(** [log_queue_process_immediate] calls [process_msg] of every back end
    on the registry's list that has one, from the head to the tail and once
    each (the list holds no back end twice), passing over those without, and
    calls [log_pool_free] after the last of them.  Every sequence of
    registrations on the empty registry leaves such a list, and when the
    registered back ends are pairwise distinct the list is those back ends
    in the order of registration. *)
Theorem fan_out_completeness (a : abi) (isr : bool) (fuel : nat) (msg : Z)
  (s : pool) :
  (forall r l,
      chain (backends r) (prv_inst_head r) l ->
      (List.length l < fuel)%nat ->
      NoDup l /\
      log_queue_process_immediate a isr fuel (Some msg) r s
      = (s' <- log_pool_free a isr (Some msg) s ;;
         Done (emits (backends r) msg l ++ [CallPoolFree msg], s')))
  /\
  (forall calls mem,
      (List.length calls < fuel)%nat ->
      exists r,
        register_all fuel calls {| backends := mem; prv_inst_head := None |}
        = Done r /\
        log_queue_process_immediate a isr fuel (Some msg) r s
        = (s' <- log_pool_free a isr (Some msg) s ;;
           Done (emits mem msg (listed calls) ++ [CallPoolFree msg], s')))
  /\
  (forall bs, NoDup bs -> listed (map Some bs) = bs).
Proof.
  assert (Hwalk : forall r l,
             chain (backends r) (prv_inst_head r) l ->
             (List.length l < fuel)%nat ->
             log_queue_process_immediate a isr fuel (Some msg) r s
             = (s' <- log_pool_free a isr (Some msg) s ;;
                Done (emits (backends r) msg l ++ [CallPoolFree msg], s'))).
  { intros r l Hc Hfuel. unfold log_queue_process_immediate, log_backend_get_head.
    rewrite (process_loop_chain _ msg _ l Hc fuel Hfuel). reflexivity. }
  split; [| split].
  - intros r l Hc Hfuel. split; [now apply chain_NoDup in Hc | now apply Hwalk].
  - intros calls mem Hfuel.
    destruct (register_all_listed fuel calls
                {| backends := mem; prv_inst_head := None |} [])
      as (r & Hall & Hc & Hp).
    + constructor.
    + simpl. exact Hfuel.
    + exists r. split; [exact Hall |].
      fold (listed calls) in Hc.
      assert (Hlen : (List.length (listed calls) < fuel)%nat).
      { assert (Hgen : forall cs l,
                   (List.length (fold_left listed_after cs l)
                    <= List.length l + List.length cs)%nat).
        { induction cs as [| c cs IHcs]; intros l; simpl; [lia |].
          pose proof (IHcs (listed_after l c)).
          pose proof (length_listed_after l c). lia. }
        pose proof (Hgen calls []) as Hle. unfold listed. simpl in Hle. lia. }
      rewrite (Hwalk r (listed calls) Hc Hlen).
      rewrite (emits_frame mem (backends r) msg (listed calls) Hp). reflexivity.
  - intros bs Hnd. unfold listed. now rewrite listed_distinct.
Qed.

Lemma fan_out_completeness_witness :
  exists r s',
    register_all 8 (map Some [100; 200; 300])
      {| backends := sample_backends; prv_inst_head := None |} = Done r
    /\ log_queue_process_immediate ilp32 false 8 (Some 0) r sample_pool
       = Done ([CallProcessMsg 7001 100 0; CallProcessMsg 7003 300 0;
                CallPoolFree 0], s')
    /\ prv_log_buffer_used s' = 0.
Proof.
  destruct (fan_out_completeness ilp32 false 8 0 sample_pool) as (_ & H & Hd).
  destruct (H (map Some [100; 200; 300]) sample_backends) as (r & Hall & Hrun).
  - simpl. lia.
  - exists r. eexists. split; [exact Hall |].
    rewrite Hrun, Hd.
    + split; vm_compute; reflexivity.
    + repeat constructor; simpl; intuition discriminate.
Defined.

(** Registered a second time, the back end at 200 becomes the tail and the
    one at 300 is no longer on the list. *)
Example register_again_cuts_list :
  listed (map Some [100; 200; 300; 200]) = [100; 200]
  /\ exists r,
       register_all 8 (map Some [100; 200; 300; 200])
         {| backends := sample_backends; prv_inst_head := None |} = Done r
       /\ process_loop 8 (backends r) (prv_inst_head r) 0
          = Done [CallProcessMsg 7001 100 0].
Proof.
  split; [reflexivity |]. eexists. split; reflexivity.
Qed.

Example size_of_int_and_string :
  log_format_calculate_buffer_size ilp32 (Some "x=%d y=%s"%string)
  = Done (sizeof_int ilp32 + sizeof_pointer ilp32)
  /\ log_format_calculate_buffer_size lp64 (Some "x=%d y=%s"%string)
     = Done (sizeof_int lp64 + sizeof_pointer lp64).
Proof. split; vm_compute; reflexivity. Qed.

Example size_of_long_long :
  log_format_calculate_buffer_size ilp32 (Some "%lld"%string) = Done 8
  /\ log_format_calculate_buffer_size lp64 (Some "%lld"%string) = Done 8.
Proof. split; vm_compute; reflexivity. Qed.

(** A conversion specification cut off by the end of the string makes the
    scan step over the terminator. *)
Example calculate_overruns_trailing_percent :
  log_format_calculate_buffer_size ilp32 (Some "100%"%string) = Undefined
  /\ log_format_calculate_buffer_size ilp32 (Some "%l"%string) = Undefined.
Proof. split; vm_compute; reflexivity. Qed.

(** * Further properties of the code *)

(** ** log_pool.c: the blocks handed out *)

Lemma room_fits (a : abi) (n : Z) :
  abi_wf a -> 0 <= n -> sizeof_log_msg_t a + n <= LOG_BUFFER_SIZE_BYTES ->
  fits a n.
Proof.
  intros Hwf Hn Hroom. split; [exact Hn |].
  pose proof (abi_layout a Hwf) as (_ & Hsz & _ & _ & _ & Hhdr & Hmod).
  unfold SIZE_MAX. unfold size_modulus, LOG_BUFFER_SIZE_BYTES in *.
  assert (H2 : 2 <= sizeof_size_t a).
  { destruct (Z.eq_dec (sizeof_size_t a) 1) as [E | E]; [| lia].
    rewrite E in Hmod. simpl in Hmod. lia. }
  assert (Hpow : 2 ^ 16 <= 2 ^ (8 * sizeof_size_t a))
    by (apply Z.pow_le_mono_r; lia).
  change (2 ^ 16) with 65536 in Hpow. lia.
Qed.

(** X1. A call of [log_pool_alloc] for which the arena has room returns the
    old watermark as the message, moves the watermark up by the header and
    the argument bytes, and records the argument size in the header, where
    it reads back as the same number; no byte of the arena outside that
    field changes. *)
Theorem log_pool_alloc_block (a : abi) (isr : bool) (n : Z) (s : pool) :
  abi_wf a -> fits a n -> pool_ready s ->
  prv_log_buffer_used s + sizeof_log_msg_t a + n <= LOG_BUFFER_SIZE_BYTES ->
  exists s',
    log_pool_alloc a isr n s = Done (Some (prv_log_buffer_used s), s') /\
    pool_ready s' /\
    prv_log_buffer_used s' = prv_log_buffer_used s + sizeof_log_msg_t a + n /\
    (bytes <- load (prv_log_buffer_pool s')
                (prv_log_buffer_used s + offsetof_args_buffer_size a)
                (Z.to_nat (sizeof_size_t a)) ;;
     Done (decode_le bytes)) = Done n /\
    firstn (Z.to_nat (prv_log_buffer_used s + offsetof_args_buffer_size a))
      (prv_log_buffer_pool s')
    = firstn (Z.to_nat (prv_log_buffer_used s + offsetof_args_buffer_size a))
        (prv_log_buffer_pool s) /\
    skipn (Z.to_nat (prv_log_buffer_used s + offsetof_args_buffer_size a
                     + sizeof_size_t a))
      (prv_log_buffer_pool s')
    = skipn (Z.to_nat (prv_log_buffer_used s + offsetof_args_buffer_size a
                       + sizeof_size_t a))
        (prv_log_buffer_pool s).
Proof.
  intros Hwf Hfit Hs Hroom.
  pose proof (abi_layout a Hwf) as Hlay.
  destruct (log_pool_alloc_fits a isr n s Hwf Hfit Hs)
    as [[Hfull _] | [_ (b & Hst & Ha)]]; [lia |].
  destruct Hs as (Hm & Hlen & Hu). unfold in_arena in Hu.
  destruct Hfit as [Hn Hmax].
  eexists. split; [exact Ha |]. cbn [prv_log_buffer_pool prv_log_buffer_used].
  split; [| split; [reflexivity | split; [| split]]].
  - repeat split; cbn; try lia.
    rewrite (store_length _ _ _ _ Hst). exact Hlen.
  - pose proof (load_store_same _ _ _ _ Hst) as Hl.
    rewrite length_encode_le in Hl. rewrite Hl. cbn [bind].
    rewrite decode_encode_size; [reflexivity | exact Hwf | lia].
  - apply (store_firstn _ _ _ _ _ Hst). lia.
  - apply (store_skipn _ _ _ _ _ Hst). rewrite length_encode_le. lia.
Qed.

Lemma log_pool_alloc_block_witness :
  exists s',
    log_pool_alloc ilp32 true 8 sample_pool
    = Done (Some (prv_log_buffer_used sample_pool), s') /\
    pool_ready s' /\
    prv_log_buffer_used s'
    = prv_log_buffer_used sample_pool + sizeof_log_msg_t ilp32 + 8 /\
    (bytes <- load (prv_log_buffer_pool s')
                (prv_log_buffer_used sample_pool + offsetof_args_buffer_size ilp32)
                (Z.to_nat (sizeof_size_t ilp32)) ;;
     Done (decode_le bytes)) = Done 8 /\
    firstn (Z.to_nat (prv_log_buffer_used sample_pool
                      + offsetof_args_buffer_size ilp32))
      (prv_log_buffer_pool s')
    = firstn (Z.to_nat (prv_log_buffer_used sample_pool
                        + offsetof_args_buffer_size ilp32))
        (prv_log_buffer_pool sample_pool) /\
    skipn (Z.to_nat (prv_log_buffer_used sample_pool
                     + offsetof_args_buffer_size ilp32 + sizeof_size_t ilp32))
      (prv_log_buffer_pool s')
    = skipn (Z.to_nat (prv_log_buffer_used sample_pool
                       + offsetof_args_buffer_size ilp32 + sizeof_size_t ilp32))
        (prv_log_buffer_pool sample_pool).
Proof.
  apply log_pool_alloc_block.
  - exact ilp32_wf.
  - split; vm_compute; congruence.
  - repeat split; vm_compute; congruence.
  - vm_compute. congruence.
Defined.

(** X2. Every path through [log_pool_alloc] and [log_pool_free] that takes
    the mutex gives it back: when either function returns, the mutex is in
    the state the call found it in. *)
Theorem pool_calls_release_mutex (a : abi) (isr : bool) (n : Z)
  (msg : option Z) (s : pool) :
  (forall r s',
      log_pool_alloc a isr n s = Done (r, s') ->
      prv_log_pool_mutex s' = prv_log_pool_mutex s) /\
  (forall s',
      log_pool_free a isr msg s = Done s' ->
      prv_log_pool_mutex s' = prv_log_pool_mutex s).
Proof.
  split.
  - intros r s'. unfold log_pool_alloc.
    destruct (prv_log_pool_mutex s) as [[|] |] eqn:Hm.
    + destruct isr; cbn; intros H; inversion H; reflexivity.
    + destruct isr; cbn -[Z.ltb size_add LOG_MSG_SIZE store];
        (destruct (LOG_BUFFER_SIZE_BYTES
                   <? size_add a (prv_log_buffer_used s) (LOG_MSG_SIZE a n));
         [ intros H; inversion H; reflexivity
         | match goal with
           | |- context [store ?m ?o ?v] => destruct (store m o v)
           end; cbn; intros H; inversion H; reflexivity ]).
    + intros H. inversion H. subst. exact Hm.
  - intros s'. unfold log_pool_free.
    destruct msg as [m |]; [| intros H; inversion H; reflexivity].
    destruct (prv_log_pool_mutex s) as [[|] |] eqn:Hm.
    + destruct isr; cbn; intros H; inversion H; reflexivity.
    + destruct isr; cbn -[Z.eqb load LOG_MSG_SIZE size_wrap size_sub];
        match goal with
        | |- context [load ?m ?o ?k] => destruct (load m o k)
        end; cbn -[Z.eqb LOG_MSG_SIZE size_wrap size_sub];
        intros H; inversion H; reflexivity.
    + intros H. inversion H. subst. exact Hm.
Qed.

Lemma pool_calls_release_mutex_witness :
  prv_log_pool_mutex
    {| prv_log_buffer_pool := prv_log_buffer_pool sample_pool;
       prv_log_buffer_used := 0;
       prv_log_pool_mutex := Some false |}
  = prv_log_pool_mutex sample_pool.
Proof.
  apply (proj2 (pool_calls_release_mutex ilp32 false 0 (Some 0) sample_pool)).
  vm_compute. reflexivity.
Defined.

Lemma pool_ready_intro (b : list Z) (u : Z) :
  List.length b = Z.to_nat LOG_BUFFER_SIZE_BYTES ->
  0 <= u <= LOG_BUFFER_SIZE_BYTES ->
  pool_ready {| prv_log_buffer_pool := b;
                prv_log_buffer_used := u;
                prv_log_pool_mutex := Some false |}.
Proof. intros Hlen Hu. split; [reflexivity | split; [exact Hlen | exact Hu]]. Qed.

Lemma log_pool_free_below_top (a : abi) (isr : bool) (n h : Z) (s : pool) :
  abi_wf a -> fits a n -> pool_ready s -> 0 <= h ->
  h + sizeof_log_msg_t a + n <> prv_log_buffer_used s ->
  h + sizeof_log_msg_t a + n <= LOG_BUFFER_SIZE_BYTES ->
  load (prv_log_buffer_pool s) (h + offsetof_args_buffer_size a)
    (Z.to_nat (sizeof_size_t a))
  = Done (encode_le (Z.to_nat (sizeof_size_t a)) n) ->
  log_pool_free a isr (Some h) s = Done s.
Proof.
  intros Hwf Hfit (Hm & Hlen & Hu) Hh Hne Hle Hload.
  pose proof (abi_layout a Hwf) as Hlay.
  destruct Hfit as [Hn Hfit]. unfold in_arena, SIZE_MAX in *.
  unfold log_pool_free. rewrite Hm.
  assert (Hdec : decode_le (encode_le (Z.to_nat (sizeof_size_t a)) n) = n)
    by (apply decode_encode_size; [exact Hwf | unfold SIZE_MAX; lia]).
  assert (HT : LOG_MSG_SIZE a n = sizeof_log_msg_t a + n)
    by (unfold LOG_MSG_SIZE, size_add; apply size_wrap_small;
        unfold SIZE_MAX; lia).
  assert (Hcmp : (size_wrap a (h + (sizeof_log_msg_t a + n))
                  =? size_wrap a (prv_log_buffer_used s)) = false).
  { rewrite !size_wrap_small by (unfold SIZE_MAX; lia). apply Z.eqb_neq. lia. }
  destruct isr; cbn -[Z.eqb load LOG_MSG_SIZE size_wrap size_sub];
    rewrite Hload; cbn -[Z.eqb LOG_MSG_SIZE size_wrap size_sub];
    rewrite Hdec, HT, Hcmp; f_equal; apply set_mutex_same; exact Hm.
Qed.

(** X3. [log_pool_free] gives space back only for the block that ends at the
    watermark.  When two blocks are allocated and then freed oldest first,
    the order in which the worker task frees what it takes from the queue,
    the free of the older block changes nothing and the free of the newer
    one moves the watermark back to its start only: the bytes of the older
    block stay in use. *)
Theorem pool_fifo_keeps_first_block (a : abi) (i1 i2 i3 i4 : bool) (n1 n2 : Z)
  (s : pool) :
  abi_wf a -> fits a n1 -> fits a n2 -> pool_ready s ->
  prv_log_buffer_used s + (sizeof_log_msg_t a + n1) + (sizeof_log_msg_t a + n2)
  <= LOG_BUFFER_SIZE_BYTES ->
  exists s',
    run_calls a [Alloc i1 n1; Alloc i2 n2;
                 Free i3 (Some 0%nat); Free i4 (Some 1%nat)] s []
    = Done (s', [Some (prv_log_buffer_used s);
                 Some (prv_log_buffer_used s + sizeof_log_msg_t a + n1)]) /\
    prv_log_buffer_used s' = prv_log_buffer_used s + sizeof_log_msg_t a + n1.
Proof.
  intros Hwf Hf1 Hf2 Hs Hroom.
  pose proof (abi_layout a Hwf) as Hlay.
  remember (prv_log_buffer_used s) as u eqn:Hequ.
  assert (Hu : 0 <= u) by (destruct Hs as (_ & _ & Hu); rewrite Hequ; apply Hu).
  assert (Hw1 : size_wrap a n1 = n1)
    by (apply size_wrap_small; destruct Hf1; unfold LOG_BUFFER_SIZE_BYTES in *; lia).
  assert (Hw2 : size_wrap a n2 = n2)
    by (apply size_wrap_small; destruct Hf2; unfold LOG_BUFFER_SIZE_BYTES in *; lia).
  destruct (log_pool_alloc_fits a i1 n1 s Hwf Hf1 Hs)
    as [[Hfull _] | [_ (b1 & Hst1 & Ha1)]];
    [rewrite <- Hequ in Hfull; destruct Hf2; lia |].
  rewrite <- Hequ in Hst1, Ha1.
  set (s1 := {| prv_log_buffer_pool := b1;
                prv_log_buffer_used := u + sizeof_log_msg_t a + n1;
                prv_log_pool_mutex := Some false |}) in *.
  assert (Hs1 : pool_ready s1).
  { destruct Hs as (Hm & Hlen & _). destruct Hf1, Hf2.
    apply pool_ready_intro; [| lia].
    rewrite (store_length _ _ _ _ Hst1). exact Hlen. }
  destruct (log_pool_alloc_fits a i2 n2 s1 Hwf Hf2 Hs1)
    as [[Hfull _] | [_ (b2 & Hst2 & Ha2)]];
    cbn [s1 prv_log_buffer_used prv_log_buffer_pool] in *; [lia |].
  set (s2 := {| prv_log_buffer_pool := b2;
                prv_log_buffer_used :=
                  u + sizeof_log_msg_t a + n1 + sizeof_log_msg_t a + n2;
                prv_log_pool_mutex := Some false |}) in *.
  assert (Hs2 : pool_ready s2).
  { destruct Hs1 as (_ & Hlen & _). destruct Hf1, Hf2.
    apply pool_ready_intro; [| lia].
    rewrite (store_length _ _ _ _ Hst2). exact Hlen. }
  assert (Hl1 : load b2 (u + offsetof_args_buffer_size a)
                  (Z.to_nat (sizeof_size_t a))
                = Done (encode_le (Z.to_nat (sizeof_size_t a)) n1)).
  { rewrite (load_agree b2 b1 (u + offsetof_args_buffer_size a)
               (Z.to_nat (sizeof_size_t a))
               (Z.to_nat (u + sizeof_log_msg_t a + n1))).
    - pose proof (load_store_same _ _ _ _ Hst1) as Hl.
      rewrite length_encode_le in Hl. exact Hl.
    - apply (store_length _ _ _ _ Hst2).
    - apply (store_firstn _ _ _ _ _ Hst2). lia.
    - destruct Hf1. lia. }
  assert (Hl2 : load b2 (u + sizeof_log_msg_t a + n1 + offsetof_args_buffer_size a)
                  (Z.to_nat (sizeof_size_t a))
                = Done (encode_le (Z.to_nat (sizeof_size_t a)) n2)).
  { pose proof (load_store_same _ _ _ _ Hst2) as Hl.
    rewrite length_encode_le in Hl. exact Hl. }
  cbn [run_calls]. rewrite Hw1, Hw2, Ha1. cbn [bind]. rewrite Ha2.
  cbn [bind app returned_pointer nth].
  rewrite (log_pool_free_below_top a i3 n1 u s2 Hwf Hf1 Hs2)
    by (cbn [s2 prv_log_buffer_used prv_log_buffer_pool];
        destruct Hf1, Hf2; try lia; exact Hl1).
  cbn [bind].
  rewrite (log_pool_free_top a i4 n2 (u + sizeof_log_msg_t a + n1) s2 Hwf Hf2 Hs2)
    by (cbn [s2 prv_log_buffer_used prv_log_buffer_pool];
        destruct Hf1; try lia; exact Hl2).
  cbn [bind]. eexists. split; reflexivity.
Qed.

Lemma pool_fifo_keeps_first_block_witness :
  exists s',
    run_calls ilp32 [Alloc false 8; Alloc true 16;
                     Free false (Some 0%nat); Free false (Some 1%nat)]
      (snd (log_pool_init true pool_at_start)) []
    = Done (s', [Some (prv_log_buffer_used (snd (log_pool_init true pool_at_start)));
                 Some (prv_log_buffer_used (snd (log_pool_init true pool_at_start))
                       + sizeof_log_msg_t ilp32 + 8)]) /\
    prv_log_buffer_used s'
    = prv_log_buffer_used (snd (log_pool_init true pool_at_start))
      + sizeof_log_msg_t ilp32 + 8.
Proof.
  apply pool_fifo_keeps_first_block.
  - exact ilp32_wf.
  - split; vm_compute; congruence.
  - split; vm_compute; congruence.
  - repeat split; vm_compute; congruence.
  - vm_compute. congruence.
Defined.




(** ** log_format.c: what the capture leaves in the buffer *)

Lemma total_size_zero (a : abi) (ts : list ctype) :
  abi_wf a -> total_size a ts <= 0 -> ts = [].
Proof.
  intros Hwf H. destruct ts as [| t ts]; [reflexivity |].
  simpl in H. pose proof (sizeof_pos a t Hwf).
  pose proof (total_size_nonneg a ts Hwf). lia.
Qed.

Lemma store_prefix (b : list Z) (w : Z) (bytes b1 : list Z) :
  store b w bytes = Done b1 ->
  firstn (Z.to_nat w + List.length bytes) b1 = firstn (Z.to_nat w) b ++ bytes.
Proof.
  intros H. apply store_inv in H. destruct H as (Hw & Hlen & ->).
  assert (Hl : List.length (firstn (Z.to_nat w) b) = Z.to_nat w)
    by (rewrite length_firstn; lia).
  rewrite app_assoc.
  replace (Z.to_nat w + List.length bytes)%nat
    with (List.length (firstn (Z.to_nat w) b ++ bytes) + 0)%nat
    by (rewrite length_app, Hl; lia).
  rewrite firstn_app_2. simpl. now rewrite app_nil_r.
Qed.

Lemma copy_loop_layout (a : abi) (cap : Z) :
  abi_wf a ->
  forall p b w g ts,
    capture_types p = Done ts ->
    map va_type g = ts ->
    0 <= w -> w + total_size a ts <= cap ->
    w + total_size a ts <= SIZE_MAX a ->
    w + total_size a ts <= Z.of_nat (List.length b) ->
    copy_loop a cap p b w g
    = Done (w + total_size a ts,
            firstn (Z.to_nat w) b ++ packed a g
              ++ skipn (Z.to_nat (w + total_size a ts)) b).
Proof.
  intros Hwf.
  assert (Hstop : forall b w g ts,
             map va_type g = ts -> total_size a ts <= 0 ->
             Done (w, b)
             = Done (w + total_size a ts,
                     firstn (Z.to_nat w) b ++ packed a g
                       ++ skipn (Z.to_nat (w + total_size a ts)) b)).
  { intros b w g ts Hg Hz. apply (total_size_zero a ts Hwf) in Hz. subst ts.
    destruct g; [| discriminate]. cbn [total_size fold_right packed flat_map app].
    now rewrite Z.add_0_r, firstn_skipn. }
  induction p as [p IH] using string_length_ind.
  intros b w g ts Hts Hg Hw Hcap Hmax Hlen.
  rewrite copy_loop_equation. rewrite capture_types_equation in Hts.
  destruct (is_char (deref p) NUL).
  { inversion Hts as [Hnil]. apply Hstop; [now rewrite <- Hnil in Hg |].
    simpl. lia. }
  destruct (w <? cap) eqn:Hlt; cbn [negb].
  2:{ apply Z.ltb_ge in Hlt. apply Hstop; [exact Hg | lia]. }
  rewrite copy_body_scan.
  destruct (scan_body p) as [[t p'] | |] eqn:Hs; try discriminate.
  pose proof (scan_body_shorter _ _ _ Hs) as Hshort.
  destruct (capture_types p') as [ts' | |] eqn:Hts'; try discriminate.
  inversion Hts as [Hcons]; clear Hts. rewrite <- Hcons in *. cbn [bind].
  destruct t as [ty |]; cbn [cons_some capture_opt] in *.
  - destruct g as [| x g]; [discriminate |].
    simpl in Hg. injection Hg as Hx Hg'. simpl in Hcap, Hmax, Hlen.
    pose proof (total_size_nonneg a ts' Hwf) as Hnn'.
    pose proof (sizeof_pos a ty Hwf) as Hsz.
    destruct (capture_some a ty b w x g Hwf Hx Hw) as (b1 & Hc & Hl1 & Hst);
      try lia.
    rewrite Hc. cbn [bind].
    rewrite (IH p' Hshort b1 (w + sizeof a ty) g ts') by (auto; lia).
    f_equal. f_equal; [simpl; lia |].
    cbn [packed flat_map]. fold (packed a g). rewrite Hx.
    replace (Z.to_nat (w + sizeof a ty))
      with (Z.to_nat w
            + List.length (encode_le (Z.to_nat (sizeof a ty)) (va_bits x)))%nat
      by (rewrite length_encode_le; lia).
    rewrite (store_prefix _ _ _ _ Hst), <- !app_assoc. f_equal. f_equal. f_equal.
    replace (w + total_size a (ty :: ts')) with (w + sizeof a ty + total_size a ts')
      by (simpl; lia).
    apply (store_skipn _ _ _ _ _ Hst). rewrite length_encode_le. lia.
  - apply (IH p' Hshort b w g ts'); auto.
Qed.

(** X5. For a format string whose scan stays inside the string, arguments of
    the types it names and a capacity of at least their total size,
    [log_format_copy_args_to_buffer] returns that total and leaves at the
    start of the buffer the object representations of the arguments, each
    in its own size, in the order of the argument list and without gaps;
    the bytes behind them are untouched. *)
Theorem copy_layout (a : abi) (fmt : string) (args : va_list)
  (buffer : list Z) (cap : Z) :
  abi_wf a ->
  capture_types fmt = Done (map va_type args) ->
  total_size a (map va_type args) <= cap ->
  total_size a (map va_type args) <= SIZE_MAX a ->
  total_size a (map va_type args) <= Z.of_nat (List.length buffer) ->
  log_format_copy_args_to_buffer a (Some buffer) cap (Some fmt) args
  = Done (total_size a (map va_type args),
          Some (packed a args
                  ++ skipn (Z.to_nat (total_size a (map va_type args))) buffer)).
Proof.
  intros Hwf Hts Hcap Hmax Hlen.
  pose proof (total_size_nonneg a (map va_type args) Hwf) as Hnn.
  unfold log_format_copy_args_to_buffer.
  destruct (cap =? 0) eqn:Hz.
  - apply Z.eqb_eq in Hz.
    assert (Hnil : map va_type args = [])
      by (apply (total_size_zero a); [exact Hwf | lia]).
    rewrite Hnil. destruct args; [| discriminate]. reflexivity.
  - rewrite (copy_loop_layout a cap Hwf fmt buffer 0 args (map va_type args))
      by (auto; lia).
    reflexivity.
Qed.

Lemma copy_layout_witness :
  log_format_copy_args_to_buffer ilp32 (Some (repeat 255 20%nat)) 64
    (Some "x=%d y=%s z=%-8.3lld"%string)
    [ {| va_type := CInt; va_bits := 42 |};
      {| va_type := CCharPtr; va_bits := 134217984 |};
      {| va_type := CLongLong; va_bits := 1099511627776 |} ]
  = Done (16, Some ([42; 0; 0; 0] ++ [0; 1; 0; 8] ++ [0; 0; 0; 0; 0; 1; 0; 0]
                      ++ [255; 255; 255; 255])).
Proof.
  apply (copy_layout ilp32 "x=%d y=%s z=%-8.3lld"%string
           [ {| va_type := CInt; va_bits := 42 |};
             {| va_type := CCharPtr; va_bits := 134217984 |};
             {| va_type := CLongLong; va_bits := 1099511627776 |} ]
           (repeat 255 20%nat) 64).
  - exact ilp32_wf.
  - vm_compute. reflexivity.
  - vm_compute. congruence.
  - vm_compute. congruence.
  - vm_compute. congruence.
Defined.

Lemma capture_types_plain (p : string) :
  no_percent p = true -> capture_types p = Done [].
Proof.
  induction p as [| c t IH]; intros Hp; rewrite capture_types_equation.
  - reflexivity.
  - cbn [deref]. destruct (is_char c NUL) eqn:Hnul; [reflexivity |].
    cbn [no_percent] in Hp. apply andb_prop in Hp. destruct Hp as [Hc Ht].
    apply negb_true_iff in Hc.
    unfold scan_body. cbn [deref]. rewrite Hc. cbn [andb bind].
    rewrite (incr_done c t Hnul). cbn [bind]. rewrite (IH Ht). reflexivity.
Qed.

(** X6. A format string without the character [%] needs no argument bytes:
    on every target [log_format_calculate_buffer_size] returns 0 for it,
    and [log_format_copy_args_to_buffer] returns 0 and leaves the buffer as
    it was, whatever the capacity and the arguments are. *)
Theorem plain_text_captures_nothing (a : abi) (fmt : string) :
  no_percent fmt = true ->
  log_format_calculate_buffer_size a (Some fmt) = Done 0 /\
  forall buffer cap args,
    log_format_copy_args_to_buffer a (Some buffer) cap (Some fmt) args
    = Done (0, Some buffer).
Proof.
  intros Hp. pose proof (capture_types_plain fmt Hp) as Hts. split.
  - unfold log_format_calculate_buffer_size.
    rewrite calculate_loop_scan, Hts. reflexivity.
  - intros buffer cap args. unfold log_format_copy_args_to_buffer.
    destruct (cap =? 0); [reflexivity |].
    rewrite (copy_loop_nothing_to_capture a cap fmt buffer 0 args Hts).
    reflexivity.
Qed.

Lemma plain_text_captures_nothing_witness :
  log_format_calculate_buffer_size lp64 (Some "sensor task started"%string)
  = Done 0 /\
  forall buffer cap args,
    log_format_copy_args_to_buffer lp64 (Some buffer) cap
      (Some "sensor task started"%string) args
    = Done (0, Some buffer).
Proof.
  apply plain_text_captures_nothing. vm_compute. reflexivity.
Defined.

(** ** log_format.c: format strings put together from pieces *)

Lemma string_append_assoc (p q r : string) :
  ((p ++ q) ++ r = p ++ (q ++ r))%string.
Proof. induction p as [| c p IH]; simpl; [reflexivity | now rewrite IH]. Qed.

Lemma incr_app (p p' q : string) :
  incr p = Done p' -> incr (p ++ q) = Done (p' ++ q)%string.
Proof.
  destruct p as [| c t]; simpl; [discriminate |].
  destruct (c =? NUL)%char; [discriminate |].
  intros H. inversion H. reflexivity.
Qed.

Lemma skip_while_app (f : ascii -> bool) (p q : string) (c : ascii) (r : string) :
  skip_while f p = String c r ->
  skip_while f (p ++ q) = (String c r ++ q)%string.
Proof.
  induction p as [| c0 t IH]; cbn [skip_while append]; [discriminate |].
  destruct (negb (is_char c0 NUL) && f c0); [exact IH |].
  intros H. inversion H. subst. reflexivity.
Qed.

Lemma skip_flags_width_precision_app (p q : string) (c : ascii) (r : string) :
  skip_flags_width_precision p = Done (String c r) ->
  skip_flags_width_precision (p ++ q) = Done (String c r ++ q)%string.
Proof.
  unfold skip_flags_width_precision.
  destruct (skip_while is_flag p) as [| c1 r1] eqn:H1; [cbn; discriminate |].
  destruct (skip_while is_digit (String c1 r1)) as [| c2 r2] eqn:H2;
    [cbn; discriminate |].
  rewrite (skip_while_app _ _ q _ _ H1), (skip_while_app _ _ q _ _ H2).
  cbn [append deref]. destruct (is_char c2 ".") eqn:Hdot.
  - apply is_char_eq in Hdot. subst c2. cbn [incr bind].
    change ("." =? NUL)%char with false. cbn [bind].
    intros H. inversion H as [H3].
    now rewrite (skip_while_app _ _ q _ _ H3).
  - intros H. inversion H. reflexivity.
Qed.

Lemma switch_class_app (p q : string) (t : option ctype) (c : ascii) (r : string) :
  switch_class p = (t, String c r) ->
  switch_class (p ++ q) = (t, (String c r ++ q)%string).
Proof.
  destruct p as [| c0 p1]; [cbn; intros H; inversion H |].
  destruct p1 as [| c1 p2]; unfold switch_class;
    cbn [append deref deref1 drop1];
    repeat match goal with
           | |- context [if ?b then _ else _] => destruct b
           end;
    intros H; inversion H; subst; reflexivity.
Qed.

Lemma switch_class_empty : switch_class EmptyString = (None, EmptyString).
Proof. reflexivity. Qed.

Lemma scan_body_app (p q : string) (t : option ctype) (p' : string) :
  scan_body p = Done (t, p') ->
  scan_body (p ++ q) = Done (t, (p' ++ q)%string).
Proof.
  destruct p as [| c0 p1]; [cbn; discriminate |].
  unfold scan_body. cbn [append deref deref1].
  destruct (is_char c0 "%") eqn:Hc; cbn [andb].
  - apply is_char_eq in Hc. subst c0.
    destruct p1 as [| c1 p2]; [cbn; discriminate |].
    cbn [append deref]. destruct (is_char c1 "%") eqn:Hc1; cbn [negb].
    + apply is_char_eq in Hc1. subst c1. cbn. intros H. inversion H. reflexivity.
    + cbn [incr]. change ("%" =? NUL)%char with false. cbn [bind].
      destruct (skip_flags_width_precision (String c1 p2)) as [s | |] eqn:Hs;
        cbn [bind]; try discriminate.
      destruct (switch_class s) as [t1 s'] eqn:Hsw. cbn [bind].
      destruct (incr s') as [s'' | |] eqn:Hi; cbn [bind]; try discriminate.
      intros H. inversion H. subst t1 s''. clear H.
      pose proof (incr_inv _ _ Hi) as (c' & Hs' & _). subst s'.
      destruct s as [| cs rs];
        [rewrite switch_class_empty in Hsw; discriminate |].
      change (String c1 (p2 ++ q)) with (String c1 p2 ++ q)%string.
      rewrite (skip_flags_width_precision_app (String c1 p2) q cs rs Hs).
      cbn [bind]. rewrite (switch_class_app _ q _ _ _ Hsw). cbn [bind].
      rewrite (incr_app _ _ q Hi). reflexivity.
  - cbn [bind incr]. destruct (c0 =? NUL)%char; [discriminate |].
    cbn [bind]. intros H. inversion H. reflexivity.
Qed.

Lemma no_nul_incr (p p' : string) :
  incr p = Done p' -> no_nul p = true -> no_nul p' = true.
Proof.
  intros H Hn. apply incr_inv in H. destruct H as (c & -> & _).
  cbn [no_nul] in Hn. apply andb_prop in Hn. tauto.
Qed.

Lemma no_nul_skip_while (f : ascii -> bool) (p : string) :
  no_nul p = true -> no_nul (skip_while f p) = true.
Proof.
  induction p as [| c t IH]; intros Hn; cbn [skip_while]; [reflexivity |].
  destruct (negb (is_char c NUL) && f c); [| exact Hn].
  apply IH. cbn [no_nul] in Hn. apply andb_prop in Hn. tauto.
Qed.

Lemma no_nul_drop1 (p : string) : no_nul p = true -> no_nul (drop1 p) = true.
Proof.
  destruct p as [| c t]; intros Hn; [reflexivity |].
  cbn [no_nul] in Hn. apply andb_prop in Hn. cbn [drop1]. tauto.
Qed.

Lemma no_nul_switch_class (p : string) :
  no_nul p = true -> no_nul (snd (switch_class p)) = true.
Proof.
  intros Hn. pose proof (no_nul_drop1 p Hn) as H1.
  pose proof (no_nul_drop1 _ H1) as H2.
  unfold switch_class.
  repeat match goal with
         | |- context [if ?b then _ else _] => destruct b
         end; cbn [snd]; assumption.
Qed.

Lemma no_nul_scan_body (p p' : string) (t : option ctype) :
  scan_body p = Done (t, p') -> no_nul p = true -> no_nul p' = true.
Proof.
  unfold scan_body. intros H Hn.
  destruct (is_char (deref p) "%" && negb (is_char (deref1 p) "%")).
  - destruct (incr p) as [p1 | |] eqn:Hi; cbn [bind] in H; try discriminate.
    rewrite skip_flags_width_precision_done in H. cbn [bind] in H.
    match type of H with
    | context [switch_class ?s] =>
        assert (Hs : no_nul s = true);
        [| pose proof (no_nul_switch_class s Hs) as Hsw;
           destruct (switch_class s) as [t1 s1] ]
    end.
    { pose proof (no_nul_incr _ _ Hi Hn) as Hn1. cbv zeta.
      pose proof (no_nul_skip_while is_digit _
                    (no_nul_skip_while is_flag _ Hn1)) as Hn2.
      destruct (is_char _ "."); [| exact Hn2].
      apply no_nul_skip_while, no_nul_drop1, Hn2. }
    cbn [bind snd] in H, Hsw.
    destruct (incr s1) as [s2 | |] eqn:Hi2; cbn [bind] in H; try discriminate.
    inversion H. subst. apply (no_nul_incr _ _ Hi2 Hsw).
  - destruct (is_char (deref p) "%" && is_char (deref1 p) "%").
    + destruct (incr p) as [p1 | |] eqn:Hi; cbn [bind] in H; try discriminate.
      destruct (incr p1) as [p2 | |] eqn:Hi2; cbn [bind] in H; try discriminate.
      inversion H. subst.
      apply (no_nul_incr _ _ Hi2), (no_nul_incr _ _ Hi), Hn.
    + cbn [bind] in H.
      destruct (incr p) as [p1 | |] eqn:Hi; cbn [bind] in H; try discriminate.
      inversion H. subst. apply (no_nul_incr _ _ Hi Hn).
Qed.

Lemma capture_types_app (q : string) :
  forall p ts,
    no_nul p = true ->
    capture_types p = Done ts ->
    capture_types (p ++ q)
    = (ts' <- capture_types q ;; Done (ts ++ ts')).
Proof.
  induction p as [p IH] using string_length_ind.
  intros ts Hn Hts. rewrite capture_types_equation in Hts.
  destruct p as [| c0 p1].
  - inversion Hts. cbn [append]. destruct (capture_types q); reflexivity.
  - cbn [no_nul] in Hn. apply andb_prop in Hn. destruct Hn as [Hc Hn1].
    apply negb_true_iff in Hc. cbn [deref] in Hts. rewrite Hc in Hts.
    destruct (scan_body (String c0 p1)) as [[t p'] | |] eqn:Hs; try discriminate.
    destruct (capture_types p') as [ts0 | |] eqn:Hts0; try discriminate.
    inversion Hts as [Hcons]. clear Hts.
    rewrite (capture_types_equation (String c0 p1 ++ q)).
    cbn [append deref]. rewrite Hc.
    change (String c0 (p1 ++ q)) with (String c0 p1 ++ q)%string.
    rewrite (scan_body_app _ q _ _ Hs).
    rewrite (IH p' (scan_body_shorter _ _ _ Hs) ts0); auto.
    + destruct (capture_types q) as [ts' | |]; cbn [bind]; try reflexivity.
      destruct t; reflexivity.
    + apply (no_nul_scan_body _ _ _ Hs). cbn [no_nul]. now rewrite Hc, Hn1.
Qed.

Lemma total_size_app (a : abi) (ts ts' : list ctype) :
  total_size a (ts ++ ts') = total_size a ts + total_size a ts'.
Proof. induction ts as [| t ts IH]; simpl; [reflexivity | rewrite IH; lia]. Qed.

(** X7. The size computed for two format strings written one after the
    other is the sum of the sizes computed for each: when the first piece
    holds no terminator and the scan of either piece stays inside it, the
    scan of the whole finds the conversions of the first followed by those
    of the second. *)
Theorem calculate_of_concatenation (a : abi) (p q : string) (ts ts' : list ctype) :
  abi_wf a ->
  no_nul p = true ->
  capture_types p = Done ts ->
  capture_types q = Done ts' ->
  total_size a ts + total_size a ts' <= SIZE_MAX a ->
  log_format_calculate_buffer_size a (Some p) = Done (total_size a ts) /\
  log_format_calculate_buffer_size a (Some q) = Done (total_size a ts') /\
  log_format_calculate_buffer_size a (Some (p ++ q)%string)
  = Done (total_size a ts + total_size a ts').
Proof.
  intros Hwf Hn Hp Hq Hmax.
  pose proof (total_size_nonneg a ts Hwf).
  pose proof (total_size_nonneg a ts' Hwf).
  split; [| split].
  - apply calculate_buffer_size_total; [exact Hwf | exact Hp | lia].
  - apply calculate_buffer_size_total; [exact Hwf | exact Hq | lia].
  - rewrite <- total_size_app.
    apply calculate_buffer_size_total; [exact Hwf | | rewrite total_size_app; lia].
    rewrite (capture_types_app q p ts Hn Hp), Hq. reflexivity.
Qed.

Lemma calculate_of_concatenation_witness :
  log_format_calculate_buffer_size ilp32 (Some "id=%u "%string)
  = Done (total_size ilp32 [CInt]) /\
  log_format_calculate_buffer_size ilp32 (Some "%s: %5.2f"%string)
  = Done (total_size ilp32 [CCharPtr; CDouble]) /\
  log_format_calculate_buffer_size ilp32 (Some ("id=%u " ++ "%s: %5.2f")%string)
  = Done (total_size ilp32 [CInt] + total_size ilp32 [CCharPtr; CDouble]).
Proof.
  apply calculate_of_concatenation.
  - exact ilp32_wf.
  - reflexivity.
  - vm_compute. reflexivity.
  - vm_compute. reflexivity.
  - vm_compute. congruence.
Defined.

Lemma augmented_types (color fmt : string) (ts : list ctype) :
  no_nul color = true -> capture_types color = Done [] ->
  no_nul fmt = true -> capture_types fmt = Done ts ->
  capture_types (LOG_AUGMENT_FMT_STR (color ++ fmt ++ LOG_RESET_COLOR))
  = Done (LOG_IMPL_types ++ ts).
Proof.
  intros Hnc Hc Hnf Hf. unfold LOG_AUGMENT_FMT_STR.
  rewrite !string_append_assoc.
  rewrite (capture_types_app _ "%s[%u] <%s> %s::%s: "%string LOG_IMPL_types)
    by (vm_compute; reflexivity).
  rewrite (capture_types_app _ color [] Hnc Hc).
  rewrite (capture_types_app _ fmt ts Hnf Hf).
  replace (capture_types
             (LOG_RESET_COLOR ++ LOG_RESET_COLOR ++ String CR (String LF "")))
    with (Done (@nil ctype)) by (vm_compute; reflexivity).
  cbn [bind]. now rewrite app_nil_r.
Qed.

(** X8. The format strings of the logging macros: [LOG_DBG], [LOG_INF],
    [LOG_WRN] and [LOG_ERR] wrap the caller's format string in colour
    sequences and in the prefix and suffix of [LOG_AUGMENT_FMT_STR].  For a
    caller's format string without a terminator inside whose scan stays
    inside the string, the scan of the wrapped string finds the five
    arguments [LOG_IMPL] passes first, a string, an integer and three
    strings, and then the caller's own; the size computed for the message
    is four pointers and an [int] more than for the caller's format. *)
Theorem log_macros_size (a : abi) (fmt : string) (ts : list ctype) :
  abi_wf a ->
  no_nul fmt = true ->
  capture_types fmt = Done ts ->
  4 * sizeof_pointer a + sizeof_int a + total_size a ts <= SIZE_MAX a ->
  forall macro,
    In macro [LOG_DBG; LOG_INF; LOG_WRN; LOG_ERR] ->
    capture_types (macro fmt) = Done (LOG_IMPL_types ++ ts) /\
    log_format_calculate_buffer_size a (Some (macro fmt))
    = Done (4 * sizeof_pointer a + sizeof_int a + total_size a ts).
Proof.
  intros Hwf Hn Hts Hmax macro Hin.
  assert (Htypes : capture_types (macro fmt) = Done (LOG_IMPL_types ++ ts)).
  { destruct Hin as [<- | [<- | [<- | [<- | []]]]];
      apply augmented_types; auto; vm_compute; reflexivity. }
  split; [exact Htypes |].
  assert (Hpre : total_size a LOG_IMPL_types = 4 * sizeof_pointer a + sizeof_int a)
    by (unfold LOG_IMPL_types, total_size; cbn [fold_right sizeof]; lia).
  replace (4 * sizeof_pointer a + sizeof_int a + total_size a ts)
    with (total_size a (LOG_IMPL_types ++ ts))
    by (rewrite total_size_app, Hpre; reflexivity).
  apply calculate_buffer_size_total; [exact Hwf | exact Htypes |].
  rewrite total_size_app, Hpre. exact Hmax.
Qed.

Lemma log_macros_size_witness :
  capture_types (LOG_WRN "battery at %d%% (%s)")
  = Done (LOG_IMPL_types ++ [CInt; CCharPtr]) /\
  log_format_calculate_buffer_size ilp32 (Some (LOG_WRN "battery at %d%% (%s)"))
  = Done (4 * sizeof_pointer ilp32 + sizeof_int ilp32
          + total_size ilp32 [CInt; CCharPtr]).
Proof.
  apply (log_macros_size ilp32 "battery at %d%% (%s)" [CInt; CCharPtr]).
  - exact ilp32_wf.
  - reflexivity.
  - vm_compute. reflexivity.
  - vm_compute. congruence.
  - right. right. left. reflexivity.
Defined.

Lemma scan_body_some_shorter (p p' : string) (ty : ctype) :
  scan_body p = Done (Some ty, p') ->
  (String.length p' + 2 <= String.length p)%nat.
Proof.
  intros H. unfold scan_body in H.
  destruct (is_char (deref p) "%" && negb (is_char (deref1 p) "%")).
  - destruct (incr p) as [p1 | |] eqn:Hi; cbn [bind] in H; try discriminate.
    rewrite skip_flags_width_precision_done in H. cbn [bind] in H.
    pose proof (scan_body_shorter p1) as Hshort.
    apply incr_inv in Hi. destruct Hi as (c & -> & _).
    match type of H with
    | context [switch_class ?s] =>
        assert (Hs : (String.length s <= String.length p1)%nat);
        [| assert (Hsw : (String.length (snd (switch_class s))
                          <= String.length s)%nat);
           [| destruct (switch_class s) as [t1 s1] ] ]
    end.
    { assert (Hskip : forall f q,
                 (String.length (skip_while f q) <= String.length q)%nat)
        by (intros f q; induction q as [| c0 q IH]; simpl; [lia |];
            destruct (negb (is_char c0 NUL) && f c0); simpl; lia).
      assert (Hd : forall r, (String.length (drop1 r) <= String.length r)%nat)
        by (intros [| c0 r]; simpl; lia).
      cbv zeta.
      pose proof (Hskip is_flag p1) as H1.
      pose proof (Hskip is_digit (skip_while is_flag p1)) as H2.
      pose proof (Hd (skip_while is_digit (skip_while is_flag p1))) as H3.
      pose proof (Hskip is_digit
                    (drop1 (skip_while is_digit (skip_while is_flag p1)))) as H4.
      destruct (is_char _ "."); lia. }
    { assert (Hd : forall r, (String.length (drop1 r) <= String.length r)%nat)
        by (intros [| c0 r]; simpl; lia).
      match goal with
      | |- context [switch_class ?s] =>
          pose proof (Hd s) as Hd1; pose proof (Hd (drop1 s)) as Hd2;
          unfold switch_class
      end.
      repeat match goal with
             | |- context [if ?b then _ else _] => destruct b
             end; cbn [snd]; lia. }
    cbn [bind snd] in H, Hsw.
    destruct (incr s1) as [s2 | |] eqn:Hi2; cbn [bind] in H; try discriminate.
    apply incr_inv in Hi2. destruct Hi2 as (c2 & -> & _).
    inversion H. subst. simpl in *. lia.
  - destruct (is_char (deref p) "%" && is_char (deref1 p) "%").
    + destruct (incr p) as [p1 | |]; cbn [bind] in H; try discriminate.
      destruct (incr p1) as [p2 | |]; cbn [bind] in H; discriminate.
    + cbn [bind] in H.
      destruct (incr p) as [p1 | |]; cbn [bind] in H; discriminate.
Qed.

Lemma capture_types_count :
  forall p ts,
    capture_types p = Done ts ->
    (2 * List.length ts <= String.length p)%nat.
Proof.
  induction p as [p IH] using string_length_ind.
  intros ts Hts. rewrite capture_types_equation in Hts.
  destruct (is_char (deref p) NUL).
  { inversion Hts. simpl. lia. }
  destruct (scan_body p) as [[t p'] | |] eqn:Hs; try discriminate.
  destruct (capture_types p') as [ts' | |] eqn:Hts'; try discriminate.
  inversion Hts as [Hcons]. clear Hts.
  pose proof (scan_body_shorter _ _ _ Hs) as Hshort.
  pose proof (IH p' Hshort ts' Hts') as Hrec.
  destruct t as [ty |]; cbn [cons_some List.length].
  - pose proof (scan_body_some_shorter _ _ _ Hs). lia.
  - lia.
Qed.

Lemma total_size_le (a : abi) (m : Z) (ts : list ctype) :
  (forall t, sizeof a t <= m) ->
  total_size a ts <= m * Z.of_nat (List.length ts).
Proof.
  intros Hm. induction ts as [| t ts IH]; [simpl; lia |].
  cbn [total_size fold_right List.length]. fold (total_size a ts).
  pose proof (Hm t). rewrite Nat2Z.inj_succ, Z.mul_succ_r. lia.
Qed.

(** X9. A bound on the size computed from the length of the format string:
    every conversion that captures an argument takes at least two
    characters, so with [m] bytes as the size of the widest argument type
    the result of [log_format_calculate_buffer_size] is at most [m] bytes
    for every two characters of the format string. *)
Theorem calculate_bounded_by_length (a : abi) (fmt : string) (m n : Z) :
  abi_wf a ->
  (forall t, sizeof a t <= m) ->
  m * Z.of_nat (String.length fmt) <= 2 * SIZE_MAX a ->
  log_format_calculate_buffer_size a (Some fmt) = Done n ->
  0 <= n /\ 2 * n <= m * Z.of_nat (String.length fmt).
Proof.
  intros Hwf Hm Hmax Hn. unfold log_format_calculate_buffer_size in Hn.
  rewrite calculate_loop_scan in Hn.
  destruct (capture_types fmt) as [ts | |] eqn:Hts; cbn [bind] in Hn;
    try discriminate.
  pose proof (capture_types_count fmt ts Hts) as Hcount.
  pose proof (total_size_le a m ts Hm) as Hle.
  pose proof (total_size_nonneg a ts Hwf) as Hnn.
  pose proof (sizeof_pos a CInt Hwf) as Hpos. pose proof (Hm CInt) as Hm0.
  assert (Hhalf : 2 * (m * Z.of_nat (List.length ts))
                  <= m * Z.of_nat (String.length fmt)) by nia.
  rewrite fold_sizes_exact in Hn by (try exact Hwf; lia).
  inversion Hn. subst n. lia.
Qed.

Lemma calculate_bounded_by_length_witness :
  0 <= 16 /\ 2 * 16 <= 8 * Z.of_nat (String.length "%lld%lld").
Proof.
  apply (calculate_bounded_by_length ilp32 "%lld%lld" 8 16).
  - exact ilp32_wf.
  - intros t. destruct t; vm_compute; congruence.
  - vm_compute. congruence.
  - vm_compute. reflexivity.
Defined.

(** ** log_queue.c: the queue and the worker task *)

Lemma log_queue_send_room (isr : bool) (msg : Z) (items : list Z) :
  log_queue_send isr (Some msg) (Some items)
  = if Z.of_nat (List.length items) <? LOG_QUEUE_SIZE
    then (0, Some (items ++ [msg]))
    else (- ENOSPC, Some items).
Proof.
  unfold log_queue_send, xQueueSend, xQueueSendFromISR.
  destruct isr; destruct (Z.of_nat (List.length items) <? LOG_QUEUE_SIZE);
    reflexivity.
Qed.

Lemma send_all_fifo :
  forall calls items,
    send_all calls (Some items)
    = (map (fun i => if Z.of_nat (List.length items) + Z.of_nat i <? LOG_QUEUE_SIZE
                     then 0 else - ENOSPC)
         (seq 0 (List.length calls)),
       Some (items ++ firstn (Z.to_nat LOG_QUEUE_SIZE - List.length items)
                        (map snd calls))).
Proof.
  induction calls as [| [isr msg] rest IH]; intros items.
  - cbn. now rewrite firstn_nil, app_nil_r.
  - cbn [send_all]. rewrite log_queue_send_room.
    destruct (Z.of_nat (List.length items) <? LOG_QUEUE_SIZE) eqn:Hroom.
    + apply Z.ltb_lt in Hroom. rewrite IH.
      cbn [List.length seq map snd]. rewrite <- seq_shift, map_map.
      replace (Z.of_nat (List.length items) + Z.of_nat 0 <? LOG_QUEUE_SIZE)
        with true by (symmetry; apply Z.ltb_lt; lia).
      f_equal.
      * f_equal. apply map_ext. intros i. rewrite length_app. cbn [List.length].
        replace (Z.of_nat (List.length items + 1) + Z.of_nat i)
          with (Z.of_nat (List.length items) + Z.of_nat (S i)) by lia.
        reflexivity.
      * f_equal. rewrite <- app_assoc. f_equal. rewrite length_app.
        cbn [List.length app].
        replace (Z.to_nat LOG_QUEUE_SIZE - List.length items)%nat
          with (S (Z.to_nat LOG_QUEUE_SIZE - (List.length items + 1)))
          by lia.
        reflexivity.
    + apply Z.ltb_ge in Hroom. rewrite IH.
      cbn [List.length seq map snd]. rewrite <- seq_shift, map_map.
      replace (Z.of_nat (List.length items) + Z.of_nat 0 <? LOG_QUEUE_SIZE)
        with false by (symmetry; apply Z.ltb_ge; lia).
      f_equal.
      * f_equal. apply map_ext. intros i.
        replace (Z.of_nat (List.length items) + Z.of_nat i <? LOG_QUEUE_SIZE)
          with false by (symmetry; apply Z.ltb_ge; lia).
        replace (Z.of_nat (List.length items) + Z.of_nat (S i) <? LOG_QUEUE_SIZE)
          with false by (symmetry; apply Z.ltb_ge; lia).
        reflexivity.
      * replace (Z.to_nat LOG_QUEUE_SIZE - List.length items)%nat with 0%nat
          by lia.
        reflexivity.
Qed.

(** X10. The queue is a bounded first-in first-out buffer for the senders:
    of any messages handed to [log_queue_send] one after the other, from
    tasks or from interrupts, those for which the queue still has one of
    its [LOG_QUEUE_SIZE] places are accepted with status 0 and stand in the
    queue behind what was there, in the order they were sent; every later
    one is refused with [-ENOSPC] and dropped, and the queue never holds
    more than [LOG_QUEUE_SIZE] messages. *)
Theorem queue_sends_fifo_bounded (calls : list (bool * Z)) (items : list Z) :
  send_all calls (Some items)
  = (map (fun i => if Z.of_nat (List.length items) + Z.of_nat i <? LOG_QUEUE_SIZE
                   then 0 else - ENOSPC)
       (seq 0 (List.length calls)),
     Some (items ++ firstn (Z.to_nat LOG_QUEUE_SIZE - List.length items)
                      (map snd calls)))
  /\ (Z.of_nat (List.length items) <= LOG_QUEUE_SIZE ->
      Z.of_nat (List.length
                  (items ++ firstn (Z.to_nat LOG_QUEUE_SIZE - List.length items)
                              (map snd calls)))
      <= LOG_QUEUE_SIZE).
Proof.
  split; [apply send_all_fifo |].
  intros Hle. rewrite length_app, length_firstn. lia.
Qed.

Lemma queue_sends_fifo_bounded_witness :
  Z.of_nat (List.length
              (repeat 7 30
                 ++ firstn (Z.to_nat LOG_QUEUE_SIZE - List.length (repeat 7 30%nat))
                      (map snd [(false, 100); (true, 200); (false, 300)])))
  <= LOG_QUEUE_SIZE.
Proof.
  apply (proj2 (queue_sends_fifo_bounded
                  [(false, 100); (true, 200); (false, 300)] (repeat 7 30%nat))).
  vm_compute. congruence.
Defined.

(** X11. The worker task handles the queue first in, first out: run on a
    queue holding [items], with a registry whose links form the list [l],
    it takes the messages oldest first and, for each in turn, calls the
    back ends of [l] that have a [process_msg], head to tail, and then
    [log_pool_free]; when the queue is empty it stays blocked. *)
Theorem worker_drains_in_order (a : abi) (fuel : nat) (r : registry)
  (l : list Z) :
  chain (backends r) (prv_inst_head r) l ->
  (List.length l < fuel)%nat ->
  forall items passes p,
    (List.length items <= passes)%nat ->
    prv_log_thread_task passes a fuel r {| sys_pool := p; sys_queue := Some items |}
    = (p' <- free_all a items p ;;
       Done (flat_map (fun msg => emits (backends r) msg l ++ [CallPoolFree msg])
               items,
             {| sys_pool := p'; sys_queue := Some [] |})).
Proof.
  intros Hchain Hfuel.
  induction items as [| msg rest IH]; intros passes p Hpasses.
  - destruct passes; reflexivity.
  - destruct passes as [| passes]; [simpl in Hpasses; lia |].
    cbn [prv_log_thread_task sys_queue sys_pool xQueueReceive free_all flat_map].
    unfold log_queue_process_immediate, log_backend_get_head.
    rewrite (process_loop_chain _ msg _ l Hchain fuel Hfuel). cbn [bind].
    destruct (log_pool_free a false (Some msg) p) as [p1 | |]; cbn [bind];
      try reflexivity.
    rewrite (IH passes p1) by (simpl in Hpasses; lia).
    destruct (free_all a rest p1) as [p2 | |]; cbn [bind]; reflexivity.
Qed.

Lemma worker_drains_in_order_witness :
  prv_log_thread_task 4 ilp32 8
    {| backends := sample_backends; prv_inst_head := Some 100 |}
    {| sys_pool := sample_pool; sys_queue := Some [0] |}
  = (p' <- free_all ilp32 [0] sample_pool ;;
     Done (flat_map (fun msg => emits sample_backends msg [100; 300]
                                  ++ [CallPoolFree msg]) [0],
           {| sys_pool := p'; sys_queue := Some [] |})).
Proof.
  apply (worker_drains_in_order ilp32 8
           {| backends := sample_backends; prv_inst_head := Some 100 |}
           [100; 300]).
  - repeat constructor.
  - simpl. lia.
  - simpl. lia.
Defined.

(** ** log_core.c: a submission and what becomes of it *)

Lemma load_agree_skipn (m1 m2 : list Z) (off : Z) (n k : nat) :
  List.length m1 = List.length m2 ->
  skipn k m1 = skipn k m2 ->
  (k <= Z.to_nat off)%nat ->
  load m1 off n = load m2 off n.
Proof.
  intros Hlen Hsk Hk. unfold load, in_bounds. rewrite Hlen.
  replace (Z.to_nat off) with ((Z.to_nat off - k) + k)%nat by lia.
  rewrite <- !skipn_skipn, Hsk. reflexivity.
Qed.

Lemma load_store_other (m : list Z) (off : Z) (bytes m' : list Z) (off' : Z)
  (n : nat) :
  store m off bytes = Done m' -> 0 <= off' ->
  off' + Z.of_nat n <= off \/ off + Z.of_nat (List.length bytes) <= off' ->
  load m' off' n = load m off' n.
Proof.
  intros Hst Hoff' [Hlow | Hhigh].
  - apply (load_agree m' m off' n (Z.to_nat off)).
    + apply (store_length _ _ _ _ Hst).
    + apply (store_firstn _ _ _ _ _ Hst). lia.
    + lia.
  - pose proof (store_inv _ _ _ _ Hst) as (Hoff & _ & _).
    apply (load_agree_skipn m' m off' n (Z.to_nat off + List.length bytes)).
    + apply (store_length _ _ _ _ Hst).
    + apply (store_skipn _ _ _ _ _ Hst). lia.
    + lia.
Qed.

Lemma store_total (mem : list Z) (off : Z) (bytes : list Z) :
  0 <= off -> off + Z.of_nat (List.length bytes) <= Z.of_nat (List.length mem) ->
  exists mem', store mem off bytes = Done mem' /\ List.length mem' = List.length mem.
Proof.
  intros H0 H1. pose proof (store_done mem off bytes H0 H1) as Hs.
  eexists. split; [exact Hs | apply (store_length _ _ _ _ Hs)].
Qed.

Lemma load_stored (mem : list Z) (off : Z) (n : nat) (v : Z) (mem' : list Z) :
  store mem off (encode_le n v) = Done mem' ->
  load mem' off n = Done (encode_le n v).
Proof.
  intros H. pose proof (load_store_same _ _ _ _ H) as Hl.
  now rewrite length_encode_le in Hl.
Qed.

Lemma length_packed (a : abi) (g : va_list) :
  abi_wf a ->
  Z.of_nat (List.length (packed a g)) = total_size a (map va_type g).
Proof.
  intros Hwf. induction g as [| x g IH]; [reflexivity |].
  cbn [packed flat_map map total_size fold_right]. fold (packed a g).
  fold (total_size a (map va_type g)).
  rewrite length_app, length_encode_le, Nat2Z.inj_add, IH.
  pose proof (sizeof_pos a (va_type x) Hwf). lia.
Qed.

Lemma args_buffer_stored (a : abi) (msg : Z) (b data : list Z) :
  0 <= msg + offsetof_args_buffer a ->
  msg + offsetof_args_buffer a + Z.of_nat (List.length data)
  <= Z.of_nat (List.length b) ->
  store b (msg + offsetof_args_buffer a) data
  = Done (with_args_buffer a msg b
            (Some (data ++ skipn (List.length data) (args_buffer a msg b)))).
Proof.
  intros H0 H1. rewrite (store_done _ _ _ H0 H1).
  unfold with_args_buffer, args_buffer. rewrite skipn_skipn.
  do 4 f_equal. lia.
Qed.

Lemma submit_linked (a : abi) (isr : bool)
  (module_name function_name level : Z) (f : c_string) (args : va_list)
  (s : system) :
  abi_wf a ->
  pool_ready (sys_pool s) ->
  capture_types (str_chars f) = Done (map va_type args) ->
  prv_log_buffer_used (sys_pool s) + sizeof_log_msg_t a
  + total_size a (map va_type args) <= LOG_BUFFER_SIZE_BYTES ->
  exists b,
    log_queue_deferred_message (linked a isr) a module_name function_name level
      (Some f) args s
    = Done (fst (log_queue_send isr (Some (prv_log_buffer_used (sys_pool s)))
                   (sys_queue s)),
            {| sys_pool :=
                 {| prv_log_buffer_pool := b;
                    prv_log_buffer_used :=
                      prv_log_buffer_used (sys_pool s) + sizeof_log_msg_t a
                      + total_size a (map va_type args);
                    prv_log_pool_mutex := Some false |};
               sys_queue :=
                 snd (log_queue_send isr (Some (prv_log_buffer_used (sys_pool s)))
                        (sys_queue s)) |}) /\
    List.length b = Z.to_nat LOG_BUFFER_SIZE_BYTES /\
    firstn (Z.to_nat (prv_log_buffer_used (sys_pool s))) b
    = firstn (Z.to_nat (prv_log_buffer_used (sys_pool s)))
        (prv_log_buffer_pool (sys_pool s)) /\
    msg_holds a b (prv_log_buffer_used (sys_pool s))
      module_name function_name level (str_addr f)
      (total_size a (map va_type args)) (packed a args).
Proof.
  intros Hwf Hs Hts Hroom.
  remember (prv_log_buffer_used (sys_pool s)) as u eqn:Hequ.
  remember (total_size a (map va_type args)) as n eqn:Heqn.
  pose proof Hwf as (Hszt & Hsizes & H0mod & Hmodfn & Hfnlvl & Hlvlfmt
                     & Hfmtsz & Hszab & Habhdr & Hmax).
  pose proof (Hsizes CCharPtr) as Hptr. cbn [sizeof] in Hptr.
  assert (Hn : 0 <= n) by (rewrite Heqn; apply total_size_nonneg, Hwf).
  assert (Hu : 0 <= u <= LOG_BUFFER_SIZE_BYTES)
    by (rewrite Hequ; apply Hs).
  assert (Hfit : fits a n) by (apply room_fits; [exact Hwf | lia | lia]).
  assert (Hcalc : log_format_calculate_buffer_size a (Some (str_chars f)) = Done n).
  { rewrite Heqn. apply calculate_buffer_size_total; [exact Hwf | exact Hts |].
    rewrite <- Heqn. destruct Hfit. unfold LOG_BUFFER_SIZE_BYTES in *. lia. }
  assert (Hlenp : Z.of_nat (List.length (packed a args)) = n)
    by (rewrite Heqn; apply length_packed, Hwf).
  destruct (log_pool_alloc_fits a isr n (sys_pool s) Hwf Hfit Hs)
    as [[Hfull _] | [_ (b1 & Hst1 & Ha)]];
    rewrite <- Hequ in *; [lia |].
  destruct Hs as (_ & Hlen0 & _).
  pose proof (store_length _ _ _ _ Hst1) as Hlen1. rewrite Hlen0 in Hlen1.
  unfold LOG_BUFFER_SIZE_BYTES in *.
  destruct (store_total b1 (u + offsetof_module_name a)
              (encode_le (Z.to_nat (sizeof_pointer a)) module_name))
    as (b2 & Hst2 & Hlen2); [lia | rewrite length_encode_le; lia |].
  rewrite Hlen1 in Hlen2.
  destruct (store_total b2 (u + offsetof_function_name a)
              (encode_le (Z.to_nat (sizeof_pointer a)) function_name))
    as (b3 & Hst3 & Hlen3); [lia | rewrite length_encode_le; lia |].
  rewrite Hlen2 in Hlen3.
  destruct (store_total b3 (u + offsetof_log_level a) (encode_le 1 level))
    as (b4 & Hst4 & Hlen4); [lia | rewrite length_encode_le; lia |].
  rewrite Hlen3 in Hlen4.
  destruct (store_total b4 (u + offsetof_fmt_str a)
              (encode_le (Z.to_nat (sizeof_pointer a)) (str_addr f)))
    as (b5 & Hst5 & Hlen5); [lia | rewrite length_encode_le; lia |].
  rewrite Hlen4 in Hlen5.
  destruct (store_total b5 (u + offsetof_args_buffer a) (packed a args))
    as (b6 & Hst6 & Hlen6); [lia | lia |].
  rewrite Hlen5 in Hlen6.
  exists b6. split; [| split; [exact Hlen6 | split]].
  - unfold log_queue_deferred_message.
    cbn [linked format_calculate_buffer_size pool_alloc queue_send
           format_copy_args_to_buffer str_chars str_addr].
    rewrite Hcalc. cbn [bind]. rewrite Ha. cbn [bind prv_log_buffer_pool].
    unfold fill_header. rewrite Hst2. cbn [bind]. rewrite Hst3. cbn [bind].
    rewrite Hst4. cbn [bind]. rewrite Hst5. cbn [bind]. unfold set_buffer.
    cbn [prv_log_buffer_pool prv_log_buffer_used prv_log_pool_mutex].
    destruct (0 <? n) eqn:Hpos.
    + apply Z.ltb_lt in Hpos.
      unfold log_format_copy_args_to_buffer.
      replace (n =? 0) with false by (symmetry; apply Z.eqb_neq; lia).
      assert (Hview : Z.of_nat (List.length (args_buffer a u b5))
                      = 1024 - (u + offsetof_args_buffer a))
        by (unfold args_buffer; rewrite length_skipn, Hlen5; lia).
      rewrite (copy_loop_layout a n Hwf (str_chars f) (args_buffer a u b5) 0
                 args (map va_type args))
        by (auto; rewrite <- ?Heqn; try lia; destruct Hfit; lia).
      cbn [bind]. rewrite <- Heqn.
      replace (0 + n =? 0) with false by (symmetry; apply Z.eqb_neq; lia).
      cbn [firstn Z.to_nat app].
      replace (Z.to_nat (0 + n)) with (List.length (packed a args)) by lia.
      pose proof (args_buffer_stored a u b5 (packed a args)
                    ltac:(lia) ltac:(lia)) as Hab.
      rewrite Hst6 in Hab.
      match goal with
      | |- context [with_args_buffer a u b5 ?x] =>
          replace (with_args_buffer a u b5 x) with b6 by congruence
      end.
      destruct (log_queue_send isr (Some u) (sys_queue s)). reflexivity.
    + apply Z.ltb_ge in Hpos. assert (Hz : n = 0) by lia.
      assert (Hb6 : b6 = b5).
      { assert (Hnil : packed a args = [])
          by (destruct (packed a args); [reflexivity | simpl in Hlenp; lia]).
        rewrite Hnil in Hst6. apply store_inv in Hst6.
        destruct Hst6 as (_ & _ & ->). cbn [app List.length].
        rewrite Nat.add_0_r. apply firstn_skipn. }
      rewrite Hb6.
      destruct (log_queue_send isr (Some u) (sys_queue s)). reflexivity.
  - rewrite <- (store_firstn _ _ _ _ (Z.to_nat u) Hst1) by lia.
    rewrite <- (store_firstn _ _ _ _ (Z.to_nat u) Hst2) by lia.
    rewrite <- (store_firstn _ _ _ _ (Z.to_nat u) Hst3) by lia.
    rewrite <- (store_firstn _ _ _ _ (Z.to_nat u) Hst4) by lia.
    rewrite <- (store_firstn _ _ _ _ (Z.to_nat u) Hst5) by lia.
    apply (store_firstn _ _ _ _ _ Hst6). lia.
  - unfold msg_holds. cbv zeta.
    repeat split.
    + rewrite (load_store_other _ _ _ _ _ _ Hst6) by lia.
      rewrite (load_store_other _ _ _ _ _ _ Hst5)
        by (rewrite ?length_encode_le; lia).
      rewrite (load_store_other _ _ _ _ _ _ Hst4)
        by (rewrite ?length_encode_le; lia).
      rewrite (load_store_other _ _ _ _ _ _ Hst3)
        by (rewrite ?length_encode_le; lia).
      apply (load_stored _ _ _ _ _ Hst2).
    + rewrite (load_store_other _ _ _ _ _ _ Hst6) by lia.
      rewrite (load_store_other _ _ _ _ _ _ Hst5)
        by (rewrite ?length_encode_le; lia).
      rewrite (load_store_other _ _ _ _ _ _ Hst4)
        by (rewrite ?length_encode_le; lia).
      apply (load_stored _ _ _ _ _ Hst3).
    + rewrite (load_store_other _ _ _ _ _ _ Hst6) by lia.
      rewrite (load_store_other _ _ _ _ _ _ Hst5)
        by (rewrite ?length_encode_le; lia).
      apply (load_stored _ _ _ _ _ Hst4).
    + rewrite (load_store_other _ _ _ _ _ _ Hst6) by lia.
      apply (load_stored _ _ _ _ _ Hst5).
    + rewrite (load_store_other _ _ _ _ _ _ Hst6) by lia.
      rewrite (load_store_other _ _ _ _ _ _ Hst5)
        by (rewrite ?length_encode_le; lia).
      rewrite (load_store_other _ _ _ _ _ _ Hst4)
        by (rewrite ?length_encode_le; lia).
      rewrite (load_store_other _ _ _ _ _ _ Hst3)
        by (rewrite ?length_encode_le; lia).
      rewrite (load_store_other _ _ _ _ _ _ Hst2)
        by (rewrite ?length_encode_le; lia).
      apply (load_stored _ _ _ _ _ Hst1).
    + apply (load_store_same _ _ _ _ Hst6).
Qed.

(** X12. A submission that finds room in the pool and a free place in the
    queue, with a format string whose scan stays inside the string and
    arguments of the types it names, returns 0.  Afterwards the message lies
    at the old watermark: its header holds the module name, the function
    name, the level, the address of the format string and the size of the
    arguments, its buffer holds the object representations of the
    arguments in order, the watermark has moved up by the header and the
    arguments, the pointer to the message is the last entry of the queue,
    and the arena below the old watermark is unchanged. *)
Theorem submit_stores_message (a : abi) (isr : bool)
  (module_name function_name level : Z) (f : c_string) (args : va_list)
  (s : system) (items : list Z) :
  abi_wf a ->
  pool_ready (sys_pool s) ->
  sys_queue s = Some items ->
  Z.of_nat (List.length items) < LOG_QUEUE_SIZE ->
  capture_types (str_chars f) = Done (map va_type args) ->
  prv_log_buffer_used (sys_pool s) + sizeof_log_msg_t a
  + total_size a (map va_type args) <= LOG_BUFFER_SIZE_BYTES ->
  exists b,
    log_queue_deferred_message (linked a isr) a module_name function_name level
      (Some f) args s
    = Done (0,
            {| sys_pool :=
                 {| prv_log_buffer_pool := b;
                    prv_log_buffer_used :=
                      prv_log_buffer_used (sys_pool s) + sizeof_log_msg_t a
                      + total_size a (map va_type args);
                    prv_log_pool_mutex := Some false |};
               sys_queue := Some (items ++ [prv_log_buffer_used (sys_pool s)]) |}) /\
    firstn (Z.to_nat (prv_log_buffer_used (sys_pool s))) b
    = firstn (Z.to_nat (prv_log_buffer_used (sys_pool s)))
        (prv_log_buffer_pool (sys_pool s)) /\
    msg_holds a b (prv_log_buffer_used (sys_pool s))
      module_name function_name level (str_addr f)
      (total_size a (map va_type args)) (packed a args).
Proof.
  intros Hwf Hs Hq Hplace Hts Hroom.
  destruct (submit_linked a isr module_name function_name level f args s
              Hwf Hs Hts Hroom) as (b & Hrun & _ & Hlow & Hmsg).
  exists b. split; [| split; [exact Hlow | exact Hmsg]].
  rewrite Hrun, Hq, log_queue_send_room.
  apply Z.ltb_lt in Hplace. rewrite Hplace. reflexivity.
Qed.

Lemma submit_stores_message_witness :
  exists b,
    log_queue_deferred_message (linked ilp32 true) ilp32 4096 4104 3
      (Some {| str_addr := 4112; str_chars := "x=%d y=%s"%string |})
      [{| va_type := CInt; va_bits := 42 |};
       {| va_type := CCharPtr; va_bits := 4128 |}]
      {| sys_pool := sample_pool; sys_queue := Some [0] |}
    = Done (0,
            {| sys_pool :=
                 {| prv_log_buffer_pool := b;
                    prv_log_buffer_used := 28 + 20 + 8;
                    prv_log_pool_mutex := Some false |};
               sys_queue := Some ([0] ++ [28]) |}) /\
    firstn (Z.to_nat 28) b = firstn (Z.to_nat 28) (prv_log_buffer_pool sample_pool) /\
    msg_holds ilp32 b 28 4096 4104 3 4112 8 [42; 0; 0; 0; 32; 16; 0; 0].
Proof.
  apply (submit_stores_message ilp32 true 4096 4104 3
           {| str_addr := 4112; str_chars := "x=%d y=%s"%string |}
           [{| va_type := CInt; va_bits := 42 |};
            {| va_type := CCharPtr; va_bits := 4128 |}]
           {| sys_pool := sample_pool; sys_queue := Some [0] |} [0]).
  - exact ilp32_wf.
  - repeat split; vm_compute; congruence.
  - reflexivity.
  - vm_compute. reflexivity.
  - vm_compute. reflexivity.
  - vm_compute. congruence.
Defined.

(** X13. [log_queue_deferred_message] does not give the message back when
    [log_queue_send] refuses it: with room in the pool but no queue
    ([-EIO]) or a full queue ([-ENOSPC]) the submission returns the status
    of the send, the queue is as before, and the watermark of the pool
    stays moved up by the header and the arguments of the message that
    nobody will free. *)
Theorem submit_refused_keeps_block (a : abi) (isr : bool)
  (module_name function_name level : Z) (f : c_string) (args : va_list)
  (s : system) :
  abi_wf a ->
  pool_ready (sys_pool s) ->
  match sys_queue s with
  | None => True
  | Some items => LOG_QUEUE_SIZE <= Z.of_nat (List.length items)
  end ->
  capture_types (str_chars f) = Done (map va_type args) ->
  prv_log_buffer_used (sys_pool s) + sizeof_log_msg_t a
  + total_size a (map va_type args) <= LOG_BUFFER_SIZE_BYTES ->
  exists s',
    log_queue_deferred_message (linked a isr) a module_name function_name level
      (Some f) args s
    = Done (match sys_queue s with None => - EIO | Some _ => - ENOSPC end, s') /\
    sys_queue s' = sys_queue s /\
    prv_log_buffer_used (sys_pool s')
    = prv_log_buffer_used (sys_pool s) + sizeof_log_msg_t a
      + total_size a (map va_type args).
Proof.
  intros Hwf Hs Hq Hts Hroom.
  destruct (submit_linked a isr module_name function_name level f args s
              Hwf Hs Hts Hroom) as (b & Hrun & _).
  eexists. split; [rewrite Hrun; f_equal; f_equal | split].
  - destruct (sys_queue s) as [items |]; [| reflexivity].
    rewrite log_queue_send_room.
    apply Z.ltb_ge in Hq. rewrite Hq. reflexivity.
  - cbn [sys_queue]. destruct (sys_queue s) as [items |]; [| reflexivity].
    rewrite log_queue_send_room.
    apply Z.ltb_ge in Hq. rewrite Hq. reflexivity.
  - reflexivity.
Qed.

Lemma submit_refused_keeps_block_witness :
  exists s',
    log_queue_deferred_message (linked ilp32 false) ilp32 4096 4104 3
      (Some {| str_addr := 4112; str_chars := "x=%d y=%s"%string |})
      [{| va_type := CInt; va_bits := 42 |};
       {| va_type := CCharPtr; va_bits := 4128 |}]
      {| sys_pool := sample_pool; sys_queue := Some (repeat 0 32) |}
    = Done (- ENOSPC, s') /\
    sys_queue s' = Some (repeat 0 32) /\
    prv_log_buffer_used (sys_pool s') = 28 + 20 + 8.
Proof.
  apply (submit_refused_keeps_block ilp32 false 4096 4104 3
           {| str_addr := 4112; str_chars := "x=%d y=%s"%string |}
           [{| va_type := CInt; va_bits := 42 |};
            {| va_type := CCharPtr; va_bits := 4128 |}]
           {| sys_pool := sample_pool; sys_queue := Some (repeat 0 32) |}).
  - exact ilp32_wf.
  - repeat split; vm_compute; congruence.
  - vm_compute. congruence.
  - vm_compute. reflexivity.
  - vm_compute. congruence.
Defined.

(** X14. From submission to release: a message submitted to an empty queue
    and then taken by the worker task is passed to the back ends on the
    list that have a [process_msg], head to tail, and freed, after which
    the watermark of the pool is where it was before the submission and
    the queue is empty. *)
Theorem submit_then_worker_pass (a : abi) (isr : bool)
  (module_name function_name level : Z) (f : c_string) (args : va_list)
  (s : system) (fuel passes : nat) (r : registry) (l : list Z) :
  abi_wf a ->
  pool_ready (sys_pool s) ->
  sys_queue s = Some [] ->
  capture_types (str_chars f) = Done (map va_type args) ->
  prv_log_buffer_used (sys_pool s) + sizeof_log_msg_t a
  + total_size a (map va_type args) <= LOG_BUFFER_SIZE_BYTES ->
  chain (backends r) (prv_inst_head r) l ->
  (List.length l < fuel)%nat ->
  exists s1 s2,
    log_queue_deferred_message (linked a isr) a module_name function_name level
      (Some f) args s = Done (0, s1) /\
    prv_log_thread_task (S passes) a fuel r s1
    = Done (emits (backends r) (prv_log_buffer_used (sys_pool s)) l
              ++ [CallPoolFree (prv_log_buffer_used (sys_pool s))], s2) /\
    prv_log_buffer_used (sys_pool s2) = prv_log_buffer_used (sys_pool s) /\
    sys_queue s2 = Some [].
Proof.
  intros Hwf Hs Hq Hts Hroom Hchain Hfuel.
  destruct (submit_linked a isr module_name function_name level f args s
              Hwf Hs Hts Hroom) as (b & Hrun & Hlen & _ & Hmsg).
  destruct Hmsg as (_ & _ & _ & _ & Hsize & _).
  pose proof (total_size_nonneg a (map va_type args) Hwf) as Hn.
  assert (Hu : 0 <= prv_log_buffer_used (sys_pool s) <= LOG_BUFFER_SIZE_BYTES)
    by apply Hs.
  pose proof (abi_layout a Hwf) as Hlay.
  rewrite Hq, log_queue_send_room in Hrun. cbn [List.length app fst snd] in Hrun.
  change (Z.of_nat 0 <? LOG_QUEUE_SIZE) with true in Hrun. cbn [fst snd] in Hrun.
  eexists. eexists. split; [exact Hrun | ].
  cbn [prv_log_thread_task sys_queue sys_pool xQueueReceive].
  unfold log_queue_process_immediate, log_backend_get_head.
  rewrite (process_loop_chain _ _ _ l Hchain fuel Hfuel). cbn [bind].
  rewrite (log_pool_free_top a false (total_size a (map va_type args))
             (prv_log_buffer_used (sys_pool s))).
  - cbn [bind]. destruct passes; cbn [prv_log_thread_task sys_queue xQueueReceive bind];
      rewrite app_nil_r; split; [reflexivity | split; reflexivity
                                | reflexivity | split; reflexivity].
  - exact Hwf.
  - apply room_fits; [exact Hwf | lia | lia].
  - apply pool_ready_intro; [exact Hlen | lia].
  - lia.
  - reflexivity.
  - exact Hsize.
Qed.

Lemma submit_then_worker_pass_witness :
  exists s1 s2,
    log_queue_deferred_message (linked ilp32 false) ilp32 4096 4104 3
      (Some {| str_addr := 4112; str_chars := "x=%d y=%s"%string |})
      [{| va_type := CInt; va_bits := 42 |};
       {| va_type := CCharPtr; va_bits := 4128 |}]
      {| sys_pool := sample_pool; sys_queue := Some [] |} = Done (0, s1) /\
    prv_log_thread_task 1 ilp32 8
      {| backends := sample_backends; prv_inst_head := Some 100 |} s1
    = Done (emits sample_backends 28 [100; 300] ++ [CallPoolFree 28], s2) /\
    prv_log_buffer_used (sys_pool s2) = 28 /\
    sys_queue s2 = Some [].
Proof.
  apply (submit_then_worker_pass ilp32 false 4096 4104 3
           {| str_addr := 4112; str_chars := "x=%d y=%s"%string |}
           [{| va_type := CInt; va_bits := 42 |};
            {| va_type := CCharPtr; va_bits := 4128 |}]
           {| sys_pool := sample_pool; sys_queue := Some [] |} 8 0
           {| backends := sample_backends; prv_inst_head := Some 100 |}
           [100; 300]).
  - exact ilp32_wf.
  - repeat split; vm_compute; congruence.
  - reflexivity.
  - vm_compute. reflexivity.
  - vm_compute. congruence.
  - repeat constructor.
  - simpl. lia.
Defined.

(** ** log_pool.c: freeing twice *)

(** X15. Freeing the newest block a second time does no harm: the first
    [log_pool_free] moves the watermark back to the start of the block, and
    the second, finding that the block no longer ends at the watermark,
    leaves the pool as it is. *)
Theorem log_pool_free_twice (a : abi) (i1 i2 : bool) (n h : Z) (s : pool) :
  abi_wf a -> fits a n -> pool_ready s -> 0 <= h ->
  prv_log_buffer_used s = h + sizeof_log_msg_t a + n ->
  load (prv_log_buffer_pool s) (h + offsetof_args_buffer_size a)
    (Z.to_nat (sizeof_size_t a))
  = Done (encode_le (Z.to_nat (sizeof_size_t a)) n) ->
  exists s',
    log_pool_free a i1 (Some h) s = Done s' /\
    prv_log_buffer_used s' = h /\
    log_pool_free a i2 (Some h) s' = Done s'.
Proof.
  intros Hwf Hfit Hs Hh Hused Hload.
  pose proof (abi_layout a Hwf) as Hlay.
  assert (Hu : 0 <= prv_log_buffer_used s <= LOG_BUFFER_SIZE_BYTES) by apply Hs.
  eexists. split; [apply (log_pool_free_top a i1 n h s); assumption |].
  split; [reflexivity |].
  apply (log_pool_free_below_top a i2 n h); try assumption.
  - apply pool_ready_intro; [apply Hs | destruct Hfit; lia].
  - cbn [prv_log_buffer_used]. destruct Hfit. lia.
  - lia.
Qed.

Lemma log_pool_free_twice_witness :
  exists s',
    log_pool_free ilp32 false (Some 0) sample_pool = Done s' /\
    prv_log_buffer_used s' = 0 /\
    log_pool_free ilp32 true (Some 0) s' = Done s'.
Proof.
  apply (log_pool_free_twice ilp32 false true 8 0 sample_pool).
  - exact ilp32_wf.
  - split; vm_compute; congruence.
  - repeat split; vm_compute; congruence.
  - lia.
  - reflexivity.
  - vm_compute. reflexivity.
Defined.

(** ** log_backend.c: the head of the list and repeated registration *)

Lemma register_backend_head (fuel : nat) (backend : option Z) (r r' : registry)
  (ret : Z) :
  log_backend_register_backend fuel backend r = Done (ret, r') ->
  prv_inst_head r'
  = match prv_inst_head r with
    | Some h => Some h
    | None => backend
    end.
Proof.
  unfold log_backend_register_backend. destruct backend as [b |].
  - destruct (prv_inst_head r) as [h |] eqn:Hh;
      cbn [prv_inst_head backends];
      match goal with
      | |- context [register_loop ?f ?m ?n ?x] => destruct (register_loop f m n x)
      end; cbn [bind]; intros H; inversion H; subst;
      cbn [prv_inst_head]; rewrite ?Hh; reflexivity.
  - intros H. inversion H. subst. destruct (prv_inst_head r'); reflexivity.
Qed.

(** X16. The head of the list of back ends is the first back end that was
    registered and never changes afterwards: whatever pointers, [NULL] or
    registered before, later calls of [log_backend_register_backend] are
    given, every call returns and [log_backend_get_head] gives the same
    back end. *)
Theorem registry_head_is_first_registered (fuel : nat) (calls : list (option Z))
  (r : registry) (l : list Z) :
  chain (backends r) (prv_inst_head r) l ->
  (List.length l + List.length calls < fuel)%nat ->
  exists r',
    register_all fuel calls r = Done r' /\
    log_backend_get_head r'
    = match log_backend_get_head r with
      | Some h => Some h
      | None => first_registered calls
      end.
Proof.
  revert r l. induction calls as [| backend rest IH]; intros r l Hchain Hfuel.
  - exists r. split; [reflexivity |].
    destruct (log_backend_get_head r); reflexivity.
  - cbn [List.length] in Hfuel.
    destruct (register_backend_listed fuel backend r l Hchain)
      as (ret & r1 & Hreg & Hchain1 & _); [lia |].
    pose proof (length_listed_after l backend) as Hlen.
    destruct (IH r1 _ Hchain1) as (r' & Hrun & Hhead); [lia |].
    exists r'. cbn [register_all]. rewrite Hreg. cbn [bind].
    split; [exact Hrun |]. rewrite Hhead. unfold log_backend_get_head.
    rewrite (register_backend_head _ _ _ _ _ Hreg).
    destruct (prv_inst_head r); [reflexivity |].
    destruct backend; reflexivity.
Qed.

Lemma registry_head_is_first_registered_witness :
  exists r',
    register_all 8 [None; Some 200; Some 100; Some 200; None; Some 300]
      {| backends := sample_backends; prv_inst_head := None |} = Done r' /\
    log_backend_get_head r' = Some 200.
Proof.
  apply (registry_head_is_first_registered 8
           [None; Some 200; Some 100; Some 200; None; Some 300]
           {| backends := sample_backends; prv_inst_head := None |} []).
  - constructor.
  - simpl. lia.
Defined.

Lemma upto_app (b : Z) (l1 l2 : list Z) :
  ~ In b l1 -> upto b (l1 ++ b :: l2) = l1 ++ [b].
Proof.
  induction l1 as [| x l1 IH]; intros Hnin; cbn [app upto].
  - now rewrite Z.eqb_refl.
  - destruct (x =? b) eqn:E.
    + apply Z.eqb_eq in E. exfalso. apply Hnin. left. exact E.
    + f_equal. apply IH. intros Hin. apply Hnin. right. exact Hin.
Qed.

(** X17. Registering a back end that is on the list already makes it the
    last one: the back ends that stood behind it are cut off, and the
    fan-out of every later message calls the back ends up to it and none
    of those that were cut off, although the call returns 0. *)
Theorem register_again_drops_followers (fuel : nat) (r : registry)
  (l1 l2 : list Z) (b msg : Z) :
  chain (backends r) (prv_inst_head r) (l1 ++ b :: l2) ->
  (List.length (l1 ++ b :: l2) < fuel)%nat ->
  exists r',
    log_backend_register_backend fuel (Some b) r = Done (0, r') /\
    chain (backends r') (prv_inst_head r') (l1 ++ [b]) /\
    process_loop fuel (backends r') (log_backend_get_head r') msg
    = Done (emits (backends r) msg (l1 ++ [b])).
Proof.
  intros Hchain Hfuel.
  pose proof (chain_NoDup _ _ _ Hchain) as Hnd.
  assert (Hnin : ~ In b l1).
  { apply NoDup_remove_2 in Hnd. intros Hin. apply Hnd.
    apply in_or_app. left. exact Hin. }
  destruct (register_backend_listed fuel (Some b) r _ Hchain Hfuel)
    as (ret & r' & Hreg & Hchain' & Hproc).
  assert (Hret : ret = 0).
  { unfold log_backend_register_backend in Hreg.
    match type of Hreg with
    | context [register_loop ?f ?m ?n ?x] => destruct (register_loop f m n x)
    end; cbn [bind] in Hreg; inversion Hreg; reflexivity. }
  subst ret. cbn [listed_after] in Hchain'.
  replace (existsb (Z.eqb b) (l1 ++ b :: l2)) with true in Hchain'
    by (symmetry; apply existsb_eqb_in, in_or_app; right; left; reflexivity).
  rewrite (upto_app b l1 l2 Hnin) in Hchain'.
  exists r'. split; [exact Hreg | split; [exact Hchain' |]].
  unfold log_backend_get_head.
  rewrite (process_loop_chain _ msg _ _ Hchain' fuel).
  - f_equal. apply emits_frame. exact Hproc.
  - rewrite length_app in *. cbn [List.length] in *. lia.
Qed.

Lemma register_again_drops_followers_witness :
  exists r',
    log_backend_register_backend 8 (Some 100)
      {| backends := sample_backends; prv_inst_head := Some 100 |} = Done (0, r') /\
    chain (backends r') (prv_inst_head r') ([] ++ [100]) /\
    process_loop 8 (backends r') (log_backend_get_head r') 28
    = Done (emits sample_backends 28 ([] ++ [100])).
Proof.
  apply (register_again_drops_followers 8
           {| backends := sample_backends; prv_inst_head := Some 100 |}
           [] [300] 100 28).
  - repeat constructor.
  - simpl. lia.
Defined.

(** ** log_core.c: initialisation *)

(** X18. The statuses of [log_init]: it returns 0 exactly when the mutex
    of the pool and the queue could both be created, [-1] when the mutex
    could not, in which case the queue is not touched, and [-2] when only
    the queue could not.  Whenever the mutex is created the watermark of
    the pool is set to 0 and the mutex is free, and a created queue is
    empty, also when the system had been initialised before and messages
    were in flight; the bytes of the arena are never touched. *)
Theorem log_init_statuses (mutex_created queue_created : bool) (s : system) :
  (fst (log_init mutex_created queue_created s) = 0
   <-> mutex_created = true /\ queue_created = true) /\
  (mutex_created = false ->
   fst (log_init mutex_created queue_created s) = -1 /\
   prv_log_pool_mutex (sys_pool (snd (log_init mutex_created queue_created s)))
   = None /\
   sys_queue (snd (log_init mutex_created queue_created s)) = sys_queue s) /\
  (mutex_created = true ->
   (queue_created = false ->
    fst (log_init mutex_created queue_created s) = -2) /\
   prv_log_pool_mutex (sys_pool (snd (log_init mutex_created queue_created s)))
   = Some false /\
   prv_log_buffer_used (sys_pool (snd (log_init mutex_created queue_created s)))
   = 0 /\
   sys_queue (snd (log_init mutex_created queue_created s))
   = if queue_created then Some [] else None) /\
  prv_log_buffer_pool (sys_pool (snd (log_init mutex_created queue_created s)))
  = prv_log_buffer_pool (sys_pool s).
Proof.
  destruct mutex_created, queue_created; cbn;
    repeat split; try reflexivity; try discriminate;
    try (intros [H1 H2]; discriminate); intros; discriminate.
Qed.

Lemma log_init_statuses_witness :
  fst (log_init true false
         {| sys_pool := sample_pool; sys_queue := Some [0] |}) = -2.
Proof.
  apply (log_init_statuses true false
           {| sys_pool := sample_pool; sys_queue := Some [0] |});
    reflexivity.
Defined.

(** ** log_format.c: how far a capture can run past its capacity *)

Lemma copy_loop_overshoot (a : abi) (cap m : Z) :
  abi_wf a ->
  (forall t, sizeof a t <= m) ->
  cap + m <= SIZE_MAX a ->
  forall p b w g ts,
    capture_types p = Done ts ->
    map va_type g = ts ->
    0 <= w < cap + m ->
    cap <= w + total_size a ts ->
    cap + m <= Z.of_nat (List.length b) ->
    exists w' b',
      copy_loop a cap p b w g = Done (w', b') /\
      cap <= w' < cap + m /\
      w <= w' <= w + total_size a ts /\
      List.length b' = List.length b /\
      skipn (Z.to_nat w') b' = skipn (Z.to_nat w') b.
Proof.
  intros Hwf Hm Hmax.
  induction p as [p IH] using string_length_ind.
  intros b w g ts Hts Hg Hw Hreach Hlen.
  rewrite copy_loop_equation. rewrite capture_types_equation in Hts.
  pose proof (total_size_nonneg a ts Hwf) as Hnn.
  destruct (is_char (deref p) NUL).
  { inversion Hts as [Hnil]. rewrite <- Hnil in *. simpl in Hreach.
    exists w, b. split; [reflexivity |]. split; [lia |].
    split; [simpl; lia |]. split; reflexivity. }
  destruct (w <? cap) eqn:Hlt; cbn [negb].
  2:{ apply Z.ltb_ge in Hlt. exists w, b. split; [reflexivity |].
      split; [lia |]. split; [lia |]. split; reflexivity. }
  apply Z.ltb_lt in Hlt.
  rewrite copy_body_scan.
  destruct (scan_body p) as [[t p'] | |] eqn:Hs; try discriminate.
  pose proof (scan_body_shorter _ _ _ Hs) as Hshort.
  destruct (capture_types p') as [ts' | |] eqn:Hts'; try discriminate.
  inversion Hts as [Hcons]; clear Hts. rewrite <- Hcons in *. cbn [bind].
  destruct t as [ty |]; cbn [cons_some capture_opt] in *.
  - destruct g as [| x g]; [discriminate |].
    simpl in Hg. injection Hg as Hx Hg'. simpl in Hreach, Hnn.
    pose proof (total_size_nonneg a ts' Hwf) as Hnn'.
    pose proof (sizeof_pos a ty Hwf) as Hsz. pose proof (Hm ty) as Hty.
    destruct (capture_some a ty b w x g Hwf Hx) as (b1 & Hc & Hl1 & Hst);
      try lia.
    rewrite Hc. cbn [bind].
    destruct (IH p' Hshort b1 (w + sizeof a ty) g ts')
      as (w' & b' & Hrun & Hw' & Hle & Hl' & Hsk); auto; try lia.
    exists w', b'. split; [exact Hrun |]. split; [exact Hw' |].
    split; [simpl; lia |]. split; [congruence |].
    rewrite Hsk. apply (store_skipn _ _ _ _ _ Hst).
    rewrite length_encode_le. lia.
  - cbn [bind]. apply (IH p' Hshort b w g ts'); auto.
Qed.

(** X19. How far [log_format_copy_args_to_buffer] can run past the
    capacity it is given: the capacity is tested before an argument is
    stored and not against the size of the argument, so with a capacity
    that the arguments reach, the count returned is at least the capacity
    and exceeds it by less than the size [m] of the widest argument type.
    In a buffer that extends [m] bytes beyond the capacity the call is
    defined, and the bytes from the returned count on are untouched. *)
Theorem copy_overrun_bounded (a : abi) (fmt : string) (args : va_list)
  (buffer : list Z) (cap m : Z) :
  abi_wf a ->
  (forall t, sizeof a t <= m) ->
  capture_types fmt = Done (map va_type args) ->
  0 < cap <= total_size a (map va_type args) ->
  cap + m <= SIZE_MAX a ->
  cap + m <= Z.of_nat (List.length buffer) ->
  exists w buffer',
    log_format_copy_args_to_buffer a (Some buffer) cap (Some fmt) args
    = Done (w, Some buffer') /\
    cap <= w < cap + m /\
    w <= total_size a (map va_type args) /\
    List.length buffer' = List.length buffer /\
    skipn (Z.to_nat w) buffer' = skipn (Z.to_nat w) buffer.
Proof.
  intros Hwf Hm Hts Hcap Hmax Hlen.
  pose proof (sizeof_pos a CInt Hwf) as Hpos. pose proof (Hm CInt) as Hm0.
  unfold log_format_copy_args_to_buffer.
  replace (cap =? 0) with false by (symmetry; apply Z.eqb_neq; lia).
  destruct (copy_loop_overshoot a cap m Hwf Hm Hmax fmt buffer 0 args
              (map va_type args))
    as (w & b' & Hrun & Hw & Hle & Hl & Hsk); auto; try lia.
  exists w, b'. rewrite Hrun. cbn [bind].
  split; [reflexivity |]. split; [exact Hw |]. split; [lia |]. auto.
Qed.

Lemma copy_overrun_bounded_witness :
  exists w buffer',
    log_format_copy_args_to_buffer ilp32 (Some (repeat 9 16%nat)) 5
      (Some "%d %lld %d"%string)
      [{| va_type := CInt; va_bits := 1 |};
       {| va_type := CLongLong; va_bits := 2 |};
       {| va_type := CInt; va_bits := 3 |}]
    = Done (w, Some buffer') /\
    5 <= w < 5 + 8 /\
    w <= total_size ilp32 [CInt; CLongLong; CInt] /\
    List.length buffer' = List.length (repeat 9 16%nat) /\
    skipn (Z.to_nat w) buffer' = skipn (Z.to_nat w) (repeat 9 16%nat).
Proof.
  apply (copy_overrun_bounded ilp32 "%d %lld %d"
           [{| va_type := CInt; va_bits := 1 |};
            {| va_type := CLongLong; va_bits := 2 |};
            {| va_type := CInt; va_bits := 3 |}]
           (repeat 9 16%nat) 5 8).
  - exact ilp32_wf.
  - intros t. destruct t; vm_compute; congruence.
  - vm_compute. reflexivity.
  - vm_compute. split; congruence.
  - vm_compute. congruence.
  - vm_compute. congruence.
Defined.

(** ** log_core.c: submissions keep the system ready *)

(** X20. A submission to an initialised system always returns, with status
    0 or [-ENOSPC], and leaves the system fit for the next call: the mutex
    of the pool is free, the watermark is inside the arena and not lower
    than before, and the queue holds at most [LOG_QUEUE_SIZE] messages.
    The status is 0 only if the pool had room for the header and the
    arguments and the queue had a free place.  The format string is one
    whose scan stays inside the string, with arguments of the types it
    names and of a total size that [size_t] arithmetic handles without
    wrap-around. *)
Theorem submit_keeps_system_ready (a : abi) (isr : bool)
  (module_name function_name level : Z) (f : c_string) (args : va_list)
  (s : system) (items : list Z) :
  abi_wf a ->
  pool_ready (sys_pool s) ->
  sys_queue s = Some items ->
  Z.of_nat (List.length items) <= LOG_QUEUE_SIZE ->
  capture_types (str_chars f) = Done (map va_type args) ->
  fits a (total_size a (map va_type args)) ->
  exists ret s' items',
    log_queue_deferred_message (linked a isr) a module_name function_name level
      (Some f) args s = Done (ret, s') /\
    (ret = 0 \/ ret = - ENOSPC) /\
    (ret = 0 ->
     prv_log_buffer_used (sys_pool s) + sizeof_log_msg_t a
     + total_size a (map va_type args) <= LOG_BUFFER_SIZE_BYTES /\
     Z.of_nat (List.length items) < LOG_QUEUE_SIZE) /\
    pool_ready (sys_pool s') /\
    prv_log_buffer_used (sys_pool s) <= prv_log_buffer_used (sys_pool s') /\
    sys_queue s' = Some items' /\
    Z.of_nat (List.length items') <= LOG_QUEUE_SIZE.
Proof.
  intros Hwf Hs Hq Hlen Hts Hfit.
  pose proof (abi_layout a Hwf) as Hlay.
  assert (Hu : 0 <= prv_log_buffer_used (sys_pool s) <= LOG_BUFFER_SIZE_BYTES)
    by apply Hs.
  destruct (Z.le_gt_cases
              (prv_log_buffer_used (sys_pool s) + sizeof_log_msg_t a
               + total_size a (map va_type args)) LOG_BUFFER_SIZE_BYTES)
    as [Hroom | Hfull].
  - destruct (submit_linked a isr module_name function_name level f args s
                Hwf Hs Hts Hroom) as (b & Hrun & Hlenb & _).
    rewrite Hq, log_queue_send_room in Hrun.
    destruct Hfit as [Hn _].
    destruct (Z.of_nat (List.length items) <? LOG_QUEUE_SIZE) eqn:Hplace;
      cbn [fst snd] in Hrun.
    + apply Z.ltb_lt in Hplace.
      eexists. eexists. eexists. split; [exact Hrun |].
      cbn [sys_pool sys_queue prv_log_buffer_used].
      split; [left; reflexivity |]. split; [intros _; split; assumption |].
      split; [apply pool_ready_intro; [exact Hlenb | lia] |].
      split; [lia |]. split; [reflexivity |].
      rewrite length_app. cbn [List.length]. lia.
    + eexists. eexists. eexists. split; [exact Hrun |].
      cbn [sys_pool sys_queue prv_log_buffer_used].
      split; [right; reflexivity |]. split; [discriminate |].
      split; [apply pool_ready_intro; [exact Hlenb | lia] |].
      split; [lia |]. split; [reflexivity | exact Hlen].
  - assert (Hcalc : log_format_calculate_buffer_size a (Some (str_chars f))
                    = Done (total_size a (map va_type args))).
    { apply calculate_buffer_size_total; [exact Hwf | exact Hts |].
      destruct Hfit. unfold LOG_BUFFER_SIZE_BYTES in *. lia. }
    destruct (log_pool_alloc_fits a isr _ (sys_pool s) Hwf Hfit Hs)
      as [[_ Ha] | [Hroom _]]; [| lia].
    exists (- ENOSPC), s, items.
    split.
    + unfold log_queue_deferred_message.
      cbn [linked format_calculate_buffer_size pool_alloc].
      rewrite Hcalc. cbn [bind]. rewrite Ha. cbn [bind].
      now rewrite system_eta.
    + split; [right; reflexivity |]. split; [discriminate |].
      split; [exact Hs |]. split; [lia |]. split; [exact Hq | exact Hlen].
Qed.

Lemma submit_keeps_system_ready_witness :
  exists ret s' items',
    log_queue_deferred_message (linked ilp32 false) ilp32 4096 4104 3
      (Some {| str_addr := 4112; str_chars := "%lld %lld"%string |})
      [{| va_type := CLongLong; va_bits := 1 |};
       {| va_type := CLongLong; va_bits := 2 |}]
      {| sys_pool := set_used sample_pool 1000; sys_queue := Some [0] |}
    = Done (ret, s') /\
    (ret = 0 \/ ret = - ENOSPC) /\
    (ret = 0 ->
     prv_log_buffer_used (set_used sample_pool 1000) + sizeof_log_msg_t ilp32
     + total_size ilp32 [CLongLong; CLongLong] <= LOG_BUFFER_SIZE_BYTES /\
     Z.of_nat (List.length [0]) < LOG_QUEUE_SIZE) /\
    pool_ready (sys_pool s') /\
    prv_log_buffer_used (set_used sample_pool 1000)
    <= prv_log_buffer_used (sys_pool s') /\
    sys_queue s' = Some items' /\
    Z.of_nat (List.length items') <= LOG_QUEUE_SIZE.
Proof.
  apply (submit_keeps_system_ready ilp32 false 4096 4104 3
           {| str_addr := 4112; str_chars := "%lld %lld"%string |}
           [{| va_type := CLongLong; va_bits := 1 |};
            {| va_type := CLongLong; va_bits := 2 |}]
           {| sys_pool := set_used sample_pool 1000; sys_queue := Some [0] |}
           [0]).
  - exact ilp32_wf.
  - repeat split; vm_compute; congruence.
  - reflexivity.
  - vm_compute. congruence.
  - vm_compute. reflexivity.
  - split; vm_compute; congruence.
Defined.

(** * Properties that rest on the whole development *)

(** ** Size agreement *)

Lemma switch_class_type (q : string) :
  table_covers (fst (read_length_modifier q),
                deref (snd (read_length_modifier q))) = true ->
  fst (switch_class q)
  = spec_type (fst (read_length_modifier q))
      (deref (snd (read_length_modifier q))).
Proof.
  unfold switch_class, read_length_modifier.
  destruct (is_char (deref q) "h") eqn:Eh.
  { destruct (is_char (deref1 q) "h");
      unfold table_covers; cbn; intros ->; reflexivity. }
  destruct (is_char (deref q) "l") eqn:El.
  { destruct (is_char (deref1 q) "l");
      unfold table_covers; cbn; try (intros ->); reflexivity. }
  destruct (is_char (deref q) "z"); [reflexivity |].
  destruct (is_char (deref q) "t"); [reflexivity |].
  destruct (is_char (deref q) "j"); [reflexivity |].
  intros _. cbn [fst snd spec_type].
  unfold is_int_conv, is_integer_conv, spec_type_by_conversion.
  destruct (is_char (deref q) "d" || is_char (deref q) "i"
            || is_char (deref q) "o" || is_char (deref q) "u"
            || is_char (deref q) "x" || is_char (deref q) "X"
            || is_char (deref q) "c"); [reflexivity |].
  destruct (is_float_conv (deref q)); [reflexivity |].
  destruct (is_char (deref q) "s"); [reflexivity |].
  destruct (is_char (deref q) "p"); [reflexivity |].
  destruct (is_char (deref q) "n"); reflexivity.
Qed.

Lemma capture_types_spec :
  forall p,
    specs_complete p = true ->
    forallb table_covers (conversion_specs p) = true ->
    capture_types p = Done (spec_arg_types p).
Proof.
  induction p as [p IH] using string_length_ind. intros Hok Hcov.
  rewrite capture_types_equation. rewrite specs_complete_equation in Hok.
  unfold spec_arg_types in *. rewrite conversion_specs_equation in *.
  destruct p as [| c t]; [reflexivity |].
  cbn [deref].
  destruct (is_char c NUL) eqn:Hnul; [reflexivity |].
  destruct (is_char c "%") eqn:Hpct.
  - destruct (is_char (deref t) "%") eqn:Hpp.
    + (* the literal %% *)
      destruct t as [| c' t']; [discriminate |]. cbn [deref drop1] in *.
      assert (Hs : scan_body (String c (String c' t')) = Done (None, t')).
      { unfold scan_body. cbn [deref deref1]. rewrite Hpct, Hpp. cbn [andb negb].
        rewrite (incr_done c _ Hnul). cbn [bind].
        apply is_char_eq in Hpp. subst c'. reflexivity. }
      rewrite Hs.
      rewrite (IH t' (scan_body_shorter _ _ _ Hs) Hok Hcov). reflexivity.
    + (* a conversion specification *)
      unfold read_spec in *. cbv zeta in *.
      set (q := if is_char (deref (skip_while is_digit (skip_while is_flag t))) "."
                then skip_while is_digit
                       (drop1 (skip_while is_digit (skip_while is_flag t)))
                else skip_while is_digit (skip_while is_flag t)) in *.
      destruct (switch_class_table ilp32 q) as [Hsnd _].
      pose proof (switch_class_type q) as Hty.
      destruct (snd (read_length_modifier q)) as [| conv rest] eqn:Hq;
        [discriminate |].
      destruct (is_char conv NUL) eqn:Hconv; [discriminate |].
      cbn [forallb fold_right fst snd deref] in *.
      apply andb_true_iff in Hcov. destruct Hcov as [Hc1 Hc2].
      assert (Hs : scan_body (String c t)
                   = Done (spec_type (fst (read_length_modifier q)) conv, rest)).
      { unfold scan_body. cbn [deref deref1]. rewrite Hpct, Hpp. cbn [andb negb].
        rewrite (incr_done c _ Hnul). cbn [bind].
        rewrite skip_flags_width_precision_done. cbn [bind]. cbv zeta. fold q.
        destruct (switch_class q) as [ty q2]. cbn [fst snd bind] in *.
        rewrite Hsnd, (Hty Hc1), (incr_done conv rest Hconv). reflexivity. }
      rewrite Hs.
      rewrite (IH rest (scan_body_shorter _ _ _ Hs) Hok Hc2). reflexivity.
  - (* an ordinary character *)
    assert (Hs : scan_body (String c t) = Done (None, t)).
    { unfold scan_body. cbn [deref deref1]. rewrite Hpct. cbn [andb bind].
      now rewrite (incr_done c _ Hnul). }
    rewrite Hs.
    rewrite (IH t (scan_body_shorter _ _ _ Hs) Hok Hcov). reflexivity.
Qed.

Lemma ctype_eqb_eq (t1 t2 : ctype) : ctype_eqb t1 t2 = true -> t1 = t2.
Proof. destruct t1, t2; simpl; intros H; try discriminate; reflexivity. Qed.

Lemma copy_loop_captured (a : abi) (cap : Z) :
  abi_wf a -> cap <= SIZE_MAX a ->
  forall p b w g ts w' b',
    capture_types p = Done ts ->
    0 <= w -> w + total_size a ts = cap ->
    copy_loop a cap p b w g = Done (w', b') ->
    w' = cap /\
    exists captured rest,
      g = captured ++ rest /\
      map va_type captured = ts /\
      b' = firstn (Z.to_nat w) b ++ packed a captured
             ++ skipn (Z.to_nat cap) b.
Proof.
  intros Hwf Hcap.
  assert (Hstop : forall b w g ts w' b',
             total_size a ts <= 0 -> w + total_size a ts = cap ->
             Done (w, b) = Done (w', b') ->
             w' = cap /\
             exists captured rest,
               g = captured ++ rest /\
               map va_type captured = ts /\
               b' = firstn (Z.to_nat w) b ++ packed a captured
                      ++ skipn (Z.to_nat cap) b).
  { intros b w g ts w' b' Hz Hsum H. inversion H. subst w' b'.
    pose proof (total_size_zero a ts Hwf Hz) as Hnil. subst ts.
    simpl in Hsum. split; [lia |]. exists [], g.
    split; [reflexivity |]. split; [reflexivity |].
    cbn [packed flat_map app]. replace cap with w by lia.
    now rewrite firstn_skipn. }
  induction p as [p IH] using string_length_ind.
  intros b w g ts w' b' Hts Hw Hsum Hrun.
  rewrite copy_loop_equation in Hrun. rewrite capture_types_equation in Hts.
  destruct (is_char (deref p) NUL).
  { inversion Hts as [Hnil]. rewrite <- Hnil in *.
    apply (Hstop b w g [] w' b'); [simpl; lia | exact Hsum | exact Hrun]. }
  pose proof (total_size_nonneg a ts Hwf) as Hnn.
  destruct (w <? cap) eqn:Hlt; cbn [negb] in Hrun.
  2:{ apply Z.ltb_ge in Hlt.
      apply (Hstop b w g ts w' b'); [lia | exact Hsum | exact Hrun]. }
  rewrite copy_body_scan in Hrun.
  destruct (scan_body p) as [[t p'] | |] eqn:Hs; try discriminate.
  pose proof (scan_body_shorter _ _ _ Hs) as Hshort.
  destruct (capture_types p') as [ts' | |] eqn:Hts'; try discriminate.
  inversion Hts as [Hcons]; clear Hts. rewrite <- Hcons in *.
  cbn [bind] in Hrun.
  destruct t as [ty |]; cbn [cons_some capture_opt] in *.
  - pose proof (total_size_nonneg a ts' Hwf) as Hnn'.
    pose proof (sizeof_pos a ty Hwf) as Hsz.
    cbn [total_size fold_right] in Hsum. fold (total_size a ts') in Hsum.
    unfold capture, va_arg in Hrun.
    destruct g as [| x g]; [discriminate |].
    destruct (ctype_eqb (va_type x) ty) eqn:Hx; [| discriminate].
    apply ctype_eqb_eq in Hx. cbn [bind] in Hrun.
    destruct (store b w (encode_le (Z.to_nat (sizeof a ty)) (va_bits x)))
      as [b1 | |] eqn:Hst; cbn [bind] in Hrun; try discriminate.
    unfold size_add in Hrun. rewrite size_wrap_small in Hrun by lia.
    destruct (IH p' Hshort b1 (w + sizeof a ty) g ts' w' b' Hts')
      as (Hw' & g1 & rest & Hg & Hty & Hb'); [lia | lia | exact Hrun |].
    split; [exact Hw' |]. exists (x :: g1), rest.
    split; [rewrite Hg; reflexivity |].
    split; [cbn [map]; rewrite Hx, Hty; reflexivity |].
    rewrite Hb'. cbn [packed flat_map]. fold (packed a g1). rewrite Hx.
    replace (Z.to_nat (w + sizeof a ty))
      with (Z.to_nat w
            + List.length (encode_le (Z.to_nat (sizeof a ty)) (va_bits x)))%nat
      by (rewrite length_encode_le; lia).
    rewrite (store_prefix _ _ _ _ Hst), <- !app_assoc. do 3 f_equal.
    apply (store_skipn _ _ _ _ _ Hst). rewrite length_encode_le. lia.
  - cbn [bind] in Hrun.
    apply (IH p' Hshort b w g ts' w' b' Hts' Hw Hsum Hrun).
Qed.

Lemma calculate_defined (a : abi) (fmt : string) (m n : Z) :
  abi_wf a ->
  (forall t, sizeof a t <= m) ->
  m * Z.of_nat (String.length fmt) <= 2 * SIZE_MAX a ->
  log_format_calculate_buffer_size a (Some fmt) = Done n ->
  exists ts,
    capture_types fmt = Done ts /\ n = total_size a ts /\ 0 <= n <= SIZE_MAX a.
Proof.
  intros Hwf Hm Hmax Hn. unfold log_format_calculate_buffer_size in Hn.
  rewrite calculate_loop_scan in Hn.
  destruct (capture_types fmt) as [ts | |] eqn:Hts; cbn [bind] in Hn;
    try discriminate.
  pose proof (capture_types_count fmt ts Hts) as Hcount.
  pose proof (total_size_le a m ts Hm) as Hle.
  pose proof (total_size_nonneg a ts Hwf) as Hnn.
  pose proof (sizeof_pos a CInt Hwf) as Hpos. pose proof (Hm CInt) as Hm0.
  assert (Hhalf : 2 * (m * Z.of_nat (List.length ts))
                  <= m * Z.of_nat (String.length fmt)) by nia.
  rewrite fold_sizes_exact in Hn by (try exact Hwf; lia).
  inversion Hn. exists ts. split; [reflexivity |]. split; lia.
Qed.

(** C1. The size [log_format_calculate_buffer_size] returns for a format
    string is the number of bytes [log_format_copy_args_to_buffer] writes
    and returns when called with that size as the capacity.

    First, for a format string in which no conversion specification is cut
    off by the end of the string and [hh], [h] and [l] stand with integer
    conversions, and for arguments of the types the table of the
    specification assigns to its conversions, both calls return: the size
    is some [n], the copy returns [n], and the buffer afterwards holds the
    representations of the arguments, [n] bytes in all, followed by its
    old contents from offset [n] on.

    Second, for every format string and every argument list, whenever the
    two calls return at all, the count is the size, and the first [n]
    bytes of the buffer are the representations of the arguments the copy
    consumed, the rest being untouched.

    The format string is shorter than a bound that keeps the sum of the
    sizes representable in [size_t]. *)
Theorem size_agreement (a : abi) (fmt : string) (args : va_list)
  (buffer : list Z) (m : Z) :
  abi_wf a ->
  (forall t, sizeof a t <= m) ->
  m * Z.of_nat (String.length fmt) <= 2 * SIZE_MAX a ->
  (specs_complete fmt = true ->
   forallb table_covers (conversion_specs fmt) = true ->
   map va_type args = spec_arg_types fmt ->
   total_size a (spec_arg_types fmt) <= Z.of_nat (List.length buffer) ->
   exists n,
     log_format_calculate_buffer_size a (Some fmt) = Done n /\
     log_format_copy_args_to_buffer a (Some buffer) n (Some fmt) args
     = Done (n, Some (packed a args ++ skipn (Z.to_nat n) buffer)) /\
     Z.of_nat (List.length (packed a args)) = n)
  /\
  (forall n w buffer',
      log_format_calculate_buffer_size a (Some fmt) = Done n ->
      log_format_copy_args_to_buffer a (Some buffer) n (Some fmt) args
      = Done (w, buffer') ->
      w = n /\
      exists captured rest,
        args = captured ++ rest /\
        buffer' = Some (packed a captured ++ skipn (Z.to_nat n) buffer) /\
        Z.of_nat (List.length (packed a captured)) = n).
Proof.
  intros Hwf Hm Hmax. split.
  - intros Hok Hcov Hargs Hlen.
    pose proof (capture_types_spec fmt Hok Hcov) as Hts.
    pose proof (capture_types_count fmt _ Hts) as Hcount.
    pose proof (total_size_le a m (spec_arg_types fmt) Hm) as Hle.
    pose proof (total_size_nonneg a (spec_arg_types fmt) Hwf) as Hnn.
    pose proof (sizeof_pos a CInt Hwf) as Hpos. pose proof (Hm CInt) as Hm0.
    assert (Hfits : total_size a (spec_arg_types fmt) <= SIZE_MAX a) by nia.
    exists (total_size a (spec_arg_types fmt)).
    split; [now apply calculate_buffer_size_total |].
    rewrite <- Hargs in *. split; [| apply length_packed, Hwf].
    unfold log_format_copy_args_to_buffer.
    destruct (total_size a (map va_type args) =? 0) eqn:Hz.
    + apply Z.eqb_eq in Hz.
      assert (Hnil : map va_type args = [])
        by (apply (total_size_zero a); [exact Hwf | lia]).
      rewrite Hz. destruct args; [| discriminate]. reflexivity.
    + rewrite (copy_loop_layout a _ Hwf fmt buffer 0 args (map va_type args))
        by (auto; lia).
      reflexivity.
  - intros n w buffer' Hn Hrun.
    destruct (calculate_defined a fmt m n Hwf Hm Hmax Hn)
      as (ts & Hts & Hnts & Hrange).
    unfold log_format_copy_args_to_buffer in Hrun.
    destruct (n =? 0) eqn:Hz.
    + apply Z.eqb_eq in Hz. inversion Hrun. subst w buffer'.
      split; [lia |]. exists [], args.
      split; [reflexivity |]. rewrite Hz. split; reflexivity.
    + destruct (copy_loop a n fmt buffer 0 args) as [[w1 b1] | |] eqn:Hloop;
        cbn [bind] in Hrun; try discriminate.
      inversion Hrun. subst w buffer'.
      destruct (copy_loop_captured a n Hwf (proj2 Hrange) fmt buffer 0 args ts
                  w1 b1 Hts) as (Hw & g1 & rest & Hg & Hty & Hb);
        [lia | lia | exact Hloop |].
      split; [exact Hw |]. exists g1, rest.
      split; [exact Hg |]. split; [now rewrite Hb |].
      rewrite (length_packed a g1 Hwf), Hty. lia.
Qed.

Lemma size_agreement_witness :
  exists n,
    log_format_calculate_buffer_size ilp32 (Some "x=%d y=%s z=%-8.3lld"%string)
    = Done n /\
    log_format_copy_args_to_buffer ilp32 (Some (repeat 255 20%nat)) n
      (Some "x=%d y=%s z=%-8.3lld"%string)
      [ {| va_type := CInt; va_bits := 42 |};
        {| va_type := CCharPtr; va_bits := 134217984 |};
        {| va_type := CLongLong; va_bits := 1099511627776 |} ]
    = Done (n, Some (packed ilp32
                       [ {| va_type := CInt; va_bits := 42 |};
                         {| va_type := CCharPtr; va_bits := 134217984 |};
                         {| va_type := CLongLong; va_bits := 1099511627776 |} ]
                     ++ skipn (Z.to_nat n) (repeat 255 20%nat))) /\
    Z.of_nat (List.length
                (packed ilp32
                   [ {| va_type := CInt; va_bits := 42 |};
                     {| va_type := CCharPtr; va_bits := 134217984 |};
                     {| va_type := CLongLong; va_bits := 1099511627776 |} ]))
    = n.
Proof.
  apply (proj1 (size_agreement ilp32 "x=%d y=%s z=%-8.3lld"
                  [ {| va_type := CInt; va_bits := 42 |};
                    {| va_type := CCharPtr; va_bits := 134217984 |};
                    {| va_type := CLongLong; va_bits := 1099511627776 |} ]
                  (repeat 255 20%nat) 8 ilp32_wf
                  ltac:(intros t; destruct t; vm_compute; congruence)
                  ltac:(vm_compute; congruence))).
  - vm_compute. reflexivity.
  - vm_compute. reflexivity.
  - vm_compute. reflexivity.
  - vm_compute. congruence.
Defined.

(** Outside the first part: ["%lf"] stands for a [double] in the table, and
    the copy takes a [long] from the argument list, which C leaves
    undefined for an argument passed as a [double]; with a [long] passed
    the two calls agree on 4 bytes. *)
Example copy_takes_long_for_lf :
  log_format_copy_args_to_buffer ilp32 (Some (repeat 0 8)) 4 (Some "%lf"%string)
    [{| va_type := CDouble; va_bits := 4607182418800017408 |}] = Undefined
  /\ log_format_copy_args_to_buffer ilp32 (Some (repeat 0 8)) 4 (Some "%lf"%string)
       [{| va_type := CLong; va_bits := 7 |}]
     = Done (4, Some [7; 0; 0; 0; 0; 0; 0; 0]).
Proof. split; vm_compute; reflexivity. Qed.

(** ** The bound test of the pool *)

(** C7 at the failing input: on the 32-bit target, with the watermark at 28
    and a request for [2 ^ 32 - 48] argument bytes, the watermark plus the
    total size of the message is [2 ^ 32], far beyond the
    [LOG_BUFFER_SIZE_BYTES] of the pool, so the pool is exhausted for this
    request.  The sum the bound test of [log_pool_alloc] compares is
    computed in [size_t] and wraps around to 0: the call does not return
    [NULL] but the message at offset 28, it sets the watermark to 0 and
    writes the size into the arena. *)
Theorem log_pool_alloc_bound_wraps :
  LOG_BUFFER_SIZE_BYTES
  < prv_log_buffer_used sample_pool + (sizeof_log_msg_t ilp32 + (2 ^ 32 - 48))
  /\ 0 <= 2 ^ 32 - 48 <= SIZE_MAX ilp32
  /\ pool_ready sample_pool
  /\ exists s',
       log_pool_alloc ilp32 false (2 ^ 32 - 48) sample_pool = Done (Some 28, s')
       /\ prv_log_buffer_used sample_pool = 28
       /\ prv_log_buffer_used s' = 0
       /\ nth 44 (prv_log_buffer_pool sample_pool) 0 = 0
       /\ nth 44 (prv_log_buffer_pool s') 0 = 208.
Proof.
  split; [vm_compute; reflexivity |].
  split; [split; vm_compute; congruence |].
  split; [repeat split; vm_compute; congruence |].
  eexists. split; [vm_compute; reflexivity |].
  repeat split; vm_compute; reflexivity.
Qed.

(** ** Back ends the fan-out no longer reaches *)

(** C9 at the failing input: the back ends at 100, 200 and 300 are registered
    in this order and the one at 200 is registered once more; every call of
    [log_backend_register_backend] returns 0.  The back end at 300 has a
    [process_msg], yet [log_queue_process_immediate] calls the
    [process_msg] of the back end at 100 only, and then [log_pool_free]:
    the second registration of 200 has cut 300 off the list. *)
Theorem fan_out_misses_registered_backend :
  exists r1 r2 r3 r4 s',
    log_backend_register_backend 8 (Some 100)
      {| backends := sample_backends; prv_inst_head := None |} = Done (0, r1) /\
    log_backend_register_backend 8 (Some 200) r1 = Done (0, r2) /\
    log_backend_register_backend 8 (Some 300) r2 = Done (0, r3) /\
    log_backend_register_backend 8 (Some 200) r3 = Done (0, r4) /\
    process_msg (backends r4 300) = Some 7003 /\
    log_queue_process_immediate ilp32 false 8 (Some 0) r3 sample_pool
    = Done ([CallProcessMsg 7001 100 0; CallProcessMsg 7003 300 0;
             CallPoolFree 0], s') /\
    log_queue_process_immediate ilp32 false 8 (Some 0) r4 sample_pool
    = Done ([CallProcessMsg 7001 100 0; CallPoolFree 0], s').
Proof.
  do 5 eexists.
  split; [reflexivity |]. split; [reflexivity |]. split; [reflexivity |].
  split; [reflexivity |]. split; [reflexivity |].
  split; vm_compute; reflexivity.
Qed.
